(** * gtp_connection.py: the boolean negamax solver and its GTP commands

A shallow embedding of [negamax_boolean], [store_result], the two table
classes and the commands [genmove_cmd] and [solve] of
[gtp_connection.py].  The board ([board.py], [board_util.py]) is a
collaborator whose code is not part of the sources: it enters as an
interface (class [BoardOps]) and, where a property needs them, as laws
(record [BoardLaws]). *)

From Stdlib Require Import ZArith List Ascii String Lia.
From stdpp Require Import gmap strings list pretty.

Open Scope Z_scope.

(** ** Names imported from [board_util] *)

(** The colour codes [EMPTY], [BLACK], [WHITE] and [BORDER]. *)
Inductive Color := EMPTY | BLACK | WHITE | BORDER.

#[global] Instance Color_eq_dec : EqDecision Color.
Proof. solve_decision. Defined.

(** A point is an index into the board array; [PASS] is Python's [None], so
    an optional point is [option Z] and [move is None] is a match. *)
Definition Point := Z.
Definition PASS : option Point := None.

(** ** Python exceptions and outcomes of a call *)

Inductive exn := TimeoutError | KeyError | ValueError | IndexError | ZeroDivisionError.

(** A call returns a value, raises, or exceeds the recursion depth the model
    was given ([OutOfFuel]). *)
Inductive outcome (A : Type) :=
| Ret (a : A)
| Raise (e : exn)
| OutOfFuel.
Arguments Ret {A} a.
Arguments Raise {A} e.
Arguments OutOfFuel {A}.

(** ** class TranspositionTable *)

Module TranspositionTable.
Section Table.
  Context {Code : Type} `{Countable Code}.

(** [self.table]: position code to [(score, move)]. *)
Definition t := gmap Code (bool * option Point).

(** [__init__]: [self.table = {}]. *)
Definition init : t := ∅.

(** [self.table[code] = (score, move)] *)
Definition store (self : t) (code : Code) (score : bool) (move : option Point) : t :=
  <[code := (score, move)]> self.

(** [return self.table.get(code)] *)
Definition lookup (self : t) (code : Code) : option (bool * option Point) :=
  self !! code.
End Table.
Arguments t Code {_ _}.
End TranspositionTable.

(** ** class HistoryHeuristicTable *)

Module HistoryHeuristicTable.
(** [self.table]: move to accumulated score. *)
Definition t := gmap Point Z.

Definition init : t := ∅.

(** [if move in self.table: self.table[move] += depth**2]
    [else: self.table[move] = depth**2] *)
Definition update (self : t) (move : Point) (depth : Z) : t :=
  match self !! move with
  | Some v => <[move := v + depth ^ 2]> self
  | None => <[move := depth ^ 2]> self
  end.

(** [return self.table.get(code) or 0]: [None] and [0] are both falsy. *)
Definition lookup (self : t) (code : Point) : Z :=
  match self !! code with
  | Some v => if Z.eqb v 0 then 0 else v
  | None => 0
  end.
End HistoryHeuristicTable.

(** ** The board collaborator *)

(** What [gtp_connection.py] calls on the board object and on
    [GoBoardUtil].  A mutating method maps the object's state before the
    call to its state after it; [play_move] also returns its flag. *)
Class BoardOps (Board Code : Type) `{Countable Code} := {
  size : Board → Z;
  current_player : Board → Color;
  generate_legal_moves : Board → Color → list Point;
  play_move : Board → Point → Color → bool * Board;
  undoMove : Board → Point → Board;
  code : Board → Code;
  is_legal : Board → Point → Color → bool;
  count_steps : Board → Z;
  copy : Board → Board;
  MAXSIZE : Z
}.

(** ** The solver *)

Section Solver.
  Context {Board Code : Type} `{BoardOps Board Code}.

(** Calls made on the collaborators, newest first.  The log is ghost
    state: no statement of the program reads it. *)
Inductive event :=
| EGenerate (c : Color)
| EPlay (move : Point) (c : Color)
| EUndo (move : Point)
| EUpdate (move : Point) (depth : Z)
| EStore (c : Code) (result : bool) (move : option Point).

(** The objects [negamax_boolean] receives by reference, with the pending
    alarm: [Some n] when SIGALRM will be delivered after [n] more
    statements, [None] when no alarm is armed. *)
Record Env := mkEnv {
  e_board : Board;
  e_tt : TranspositionTable.t Code;
  e_history : HistoryHeuristicTable.t;
  e_alarm : option nat;
  e_log : list event
}.

Definition M (A : Type) := Env → Env * outcome A.

Definition ret {A} (a : A) : M A := fun e => (e, Ret a).

Definition bind {A B} (m : M A) (k : A → M B) : M B :=
  fun e =>
    match m e with
    | (e', Ret a) => k a e'
    | (e', Raise x) => (e', Raise x)
    | (e', OutOfFuel) => (e', OutOfFuel)
    end.

Notation "'let*' x ':=' m 'in' k" := (bind m (fun x => k))
  (at level 10, x name, m at level 100, k at level 200).
Notation "'run' m 'in' k" := (bind m (fun _ => k))
  (at level 10, m at level 100, k at level 200).

(** [handler]: when the alarm is due the next statement does not run and
    [TimeoutError] is raised in its place. *)
Definition tick : M unit :=
  fun e =>
    match e_alarm e with
    | None => (e, Ret tt)
    | Some O => (e, Raise TimeoutError)
    | Some (S n) =>
        (mkEnv (e_board e) (e_tt e) (e_history e) (Some n) (e_log e), Ret tt)
    end.

Definition emit (ev : event) : M unit :=
  fun e => (mkEnv (e_board e) (e_tt e) (e_history e) (e_alarm e) (ev :: e_log e), Ret tt).

Definition get_board : M Board := fun e => (e, Ret (e_board e)).
Definition set_board (b : Board) : M unit :=
  fun e => (mkEnv b (e_tt e) (e_history e) (e_alarm e) (e_log e), Ret tt).
Definition get_tt : M (TranspositionTable.t Code) := fun e => (e, Ret (e_tt e)).
Definition set_tt (t : TranspositionTable.t Code) : M unit :=
  fun e => (mkEnv (e_board e) t (e_history e) (e_alarm e) (e_log e), Ret tt).
Definition get_history : M HistoryHeuristicTable.t := fun e => (e, Ret (e_history e)).
Definition set_history (h : HistoryHeuristicTable.t) : M unit :=
  fun e => (mkEnv (e_board e) (e_tt e) h (e_alarm e) (e_log e), Ret tt).

(** [result = tt.lookup(board.code())] *)
Definition stmt_lookup : M (option (bool * option Point)) :=
  run tick in
  let* b := get_board in
  let* t := get_tt in
  ret (TranspositionTable.lookup t (code b)).

(** [moves = GoBoardUtil.generate_legal_moves(board, board.current_player)] *)
Definition stmt_generate : M (list Point) :=
  run tick in
  let* b := get_board in
  run emit (EGenerate (current_player b)) in
  ret (generate_legal_moves b (current_player b)).

(** [list.sort(key=..., reverse=True)]: descending by key, and stable, so
    moves of equal key keep their order. *)
Fixpoint insert_desc (key : Point → Z) (x : Point) (l : list Point) : list Point :=
  match l with
  | [] => [x]
  | y :: l' => if Z.leb (key y) (key x) then x :: y :: l' else y :: insert_desc key x l'
  end.

Definition sort_desc (key : Point → Z) (l : list Point) : list Point :=
  foldr (insert_desc key) [] l.

(** [moves.sort(key=lambda x: history_table.lookup(x), reverse=True)] *)
Definition stmt_sort (moves : list Point) : M (list Point) :=
  run tick in
  let* h := get_history in
  ret (sort_desc (HistoryHeuristicTable.lookup h) moves).

(** [board.play_move(move, board.current_player)]: the flag is dropped. *)
Definition stmt_play (move : Point) : M unit :=
  run tick in
  let* b := get_board in
  run emit (EPlay move (current_player b)) in
  set_board (snd (play_move b move (current_player b))).

(** [board.undoMove(move)] *)
Definition stmt_undo (move : Point) : M unit :=
  run tick in
  let* b := get_board in
  run emit (EUndo move) in
  set_board (undoMove b move).

(** [history_table.update(move, depth)] *)
Definition stmt_update (move : Point) (depth : Z) : M unit :=
  run tick in
  let* h := get_history in
  run emit (EUpdate move depth) in
  set_history (HistoryHeuristicTable.update h move depth).

(** [store_result(tt, board, result, move)]:
    [tt.store(board.code(), result, move); return result, move] *)
Definition store_result (result : bool) (move : option Point) : M (bool * option Point) :=
  run tick in
  let* b := get_board in
  let* t := get_tt in
  run emit (EStore (code b) result move) in
  run set_tt (TranspositionTable.store t (code b) result move) in
  ret (result, move).

(** The [for move in moves] loop of [negamax_boolean]; [rec] is the
    recursive call at [depth + 1]. *)
Fixpoint try_moves (rec : M (bool * option Point)) (depth : Z) (moves : list Point)
  : M (bool * option Point) :=
  match moves with
  | [] => store_result false None
  | move :: rest =>
      run stmt_play move in
      let* r := rec in
      let success := negb (fst r) in
      run stmt_undo move in
      if success then
        run stmt_update move depth in
        store_result true (Some move)
      else try_moves rec depth rest
  end.

(** [negamax_boolean(board, tt, history_table, depth)] *)
Fixpoint negamax_boolean (fuel : nat) (depth : Z) : M (bool * option Point) :=
  match fuel with
  | O => fun e => (e, OutOfFuel)
  | S fuel' =>
      let* result := stmt_lookup in
      match result with
      | Some r => ret r
      | None =>
          let* moves := stmt_generate in
          let* moves := stmt_sort moves in
          try_moves (negamax_boolean fuel' (depth + 1)) depth moves
      end
  end.

(** *** The loop as section 7 of the specification words it

Not the program: a second solver, written from the specification's
sentence on illegal moves, in which the flag of [play_move] is
inspected and a rejected candidate is skipped, the loop going on with
the next one.  It is compared with [negamax_boolean] below. *)

(** The application of a candidate, its flag kept. *)
Definition stmt_play_checked (move : Point) : M bool :=
  run tick in
  let* b := get_board in
  run emit (EPlay move (current_player b)) in
  run set_board (snd (play_move b move (current_player b))) in
  ret (fst (play_move b move (current_player b))).

(** The loop that goes on with the next candidate after a rejection. *)
Fixpoint try_moves_skipping (rec : M (bool * option Point)) (depth : Z)
  (moves : list Point) : M (bool * option Point) :=
  match moves with
  | [] => store_result false None
  | move :: rest =>
      let* accepted := stmt_play_checked move in
      if accepted then
        let* r := rec in
        let success := negb (fst r) in
        run stmt_undo move in
        if success then
          run stmt_update move depth in
          store_result true (Some move)
        else try_moves_skipping rec depth rest
      else try_moves_skipping rec depth rest
  end.

(** The solver around that loop. *)
Fixpoint negamax_skipping (fuel : nat) (depth : Z) : M (bool * option Point) :=
  match fuel with
  | O => fun e => (e, OutOfFuel)
  | S fuel' =>
      let* result := stmt_lookup in
      match result with
      | Some r => ret r
      | None =>
          let* moves := stmt_generate in
          let* moves := stmt_sort moves in
          try_moves_skipping (negamax_skipping fuel' (depth + 1)) depth moves
      end
  end.

End Solver.

Arguments event : clear implicits.
Arguments Env Board Code {_ _}.

(** ** Coordinates and their text *)

Inductive coord := CPass | CRowCol (row col : Z).

Definition column_letters : string := "ABCDEFGHJKLMNOPQRSTUVWXYZ".

(** [s[i]] of Python: a negative index counts from the end, an index out of
    range raises [IndexError]. *)
Definition py_index (s : string) (i : Z) : outcome ascii :=
  let n := Z.of_nat (String.length s) in
  let j := if Z.ltb i 0 then i + n else i in
  if Z.ltb j 0 then Raise IndexError
  else match String.get (Z.to_nat j) s with
       | Some c => Ret c
       | None => Raise IndexError
       end.

Definition lower_ascii (c : ascii) : ascii :=
  let n := nat_of_ascii c in
  if (Nat.leb 65 n && Nat.leb n 90)%bool then ascii_of_nat (n + 32) else c.

(** [str.lower()] on ASCII text. *)
Fixpoint lower (s : string) : string :=
  match s with
  | EmptyString => EmptyString
  | String c s' => String (lower_ascii c) (lower s')
  end.

(** [point_to_coord(point, boardsize)]; [divmod] by zero raises. *)
Definition point_to_coord (point : option Point) (boardsize : Z) : outcome coord :=
  match point with
  | None => Ret CPass
  | Some p =>
      let NS := boardsize + 1 in
      if Z.eqb NS 0 then Raise ZeroDivisionError
      else Ret (CRowCol (p `div` NS) (p `mod` NS))
  end.

(** [format_point(move)], with [MAXSIZE] of [board_util] as [maxsize]. *)
Definition format_point (maxsize : Z) (move : coord) : outcome string :=
  match move with
  | CPass => Ret "pass"%string
  | CRowCol row col =>
      if negb (Z.leb 0 row && Z.ltb row maxsize) || negb (Z.leb 0 col && Z.ltb col maxsize)
      then Raise ValueError
      else match py_index column_letters (col - 1) with
           | Ret c => Ret (String c (pretty row))
           | Raise x => Raise x
           | OutOfFuel => OutOfFuel
           end
  end.

(** [color_to_int(c)]: a dictionary lookup, [None] for [KeyError]. *)
Definition color_to_int (c : string) : option Color :=
  if String.eqb c "b" then Some BLACK
  else if String.eqb c "w" then Some WHITE
  else if String.eqb c "e" then Some EMPTY
  else if String.eqb c "BORDER" then Some BORDER
  else None.

Definition newline : string := String "010"%char EmptyString.

(** [format_point(point_to_coord(move, boardsize))], the text of a move. *)
Definition move_text (maxsize boardsize : Z) (move : Point) : outcome string :=
  match point_to_coord (Some move) boardsize with
  | Ret c => format_point maxsize c
  | Raise x => Raise x
  | OutOfFuel => OutOfFuel
  end.

(** The line [respond(response)] writes. *)
Definition reply (response : string) : string :=
  ("= " +:+ response +:+ newline +:+ newline)%string.

(** ** class GtpConnection *)

Section Gtp.
  Context {Board Code : Type} `{BoardOps Board Code}.

(** The fields the two commands use.  [self.board] is a reference:
    [g_board] names a board object and [g_objects] gives the state of
    every board object, so that rebinding [self.board] and mutating the
    object it names are different things; [g_next] is the first name not
    yet given to an object.  The tables are owned by the connection alone
    and are kept by value. *)
Record GtpConnection := mkGtp {
  g_board : nat;
  g_objects : nat → Board;
  g_next : nat;
  g_timelimit : Z;
  g_tt : gmap Z (TranspositionTable.t Code);
  g_history_heuristic : gmap Z HistoryHeuristicTable.t;
  g_stdout : list string
}.

(** The state of the object [self.board] names. *)
Definition the_board (g : GtpConnection) : Board := g_objects g (g_board g).

Definition set_object (objs : nat → Board) (r : nat) (b : Board) : nat → Board :=
  fun r' => if Nat.eqb r' r then b else objs r'.

(** [respond(response)]: [stdout.write('= {}\n\n'.format(response))] *)
Definition respond (response : string) (g : GtpConnection) : GtpConnection :=
  mkGtp (g_board g) (g_objects g) (g_next g) (g_timelimit g) (g_tt g)
    (g_history_heuristic g)
    (g_stdout g ++ [reply response]).

(** The state of the connection once a call of [negamax_boolean] that was
    given [self.board] and the two tables of size [sz] has stopped in
    [e]: the three objects were mutated in place. *)
Definition after_search (g : GtpConnection) (sz : Z) (e : Env Board Code) : GtpConnection :=
  mkGtp (g_board g) (set_object (g_objects g) (g_board g) (e_board e)) (g_next g)
    (g_timelimit g) (<[sz := e_tt e]> (g_tt g))
    (<[sz := e_history e]> (g_history_heuristic g)) (g_stdout g).

(** [self.board.play_move(move, color)] *)
Definition play_on_board (move : Point) (color : Color) (g : GtpConnection) : GtpConnection :=
  mkGtp (g_board g)
    (set_object (g_objects g) (g_board g) (snd (play_move (the_board g) move color)))
    (g_next g) (g_timelimit g) (g_tt g) (g_history_heuristic g) (g_stdout g).

(** [genmove_cmd(self, args)]; no alarm is armed during this call. *)
Definition genmove_cmd (fuel : nat) (args : list string) (g : GtpConnection)
  : GtpConnection * outcome unit :=
  match args with
  | [] => (g, Raise IndexError)
  | a0 :: _ =>
    let board_color := lower a0 in
    match color_to_int board_color with
    | None => (g, Raise KeyError)
    | Some color =>
      let b := the_board g in
      match g_tt g !! size b, g_history_heuristic g !! size b with
      | None, _ | _, None => (g, Raise KeyError)
      | Some t, Some h =>
        match negamax_boolean fuel 0 (mkEnv b t h None []) with
        | (e, OutOfFuel) => (after_search g (size b) e, OutOfFuel)
        | (e, Raise x) => (after_search g (size b) e, Raise x)
        | (e, Ret (_, None)) => (respond "resign" (after_search g (size b) e), Ret tt)
        | (e, Ret (_, Some move)) =>
          let g1 := after_search g (size b) e in
          match point_to_coord (Some move) (size (the_board g1)) with
          | OutOfFuel => (g1, OutOfFuel)
          | Raise x => (g1, Raise x)
          | Ret move_coord =>
            match format_point MAXSIZE move_coord with
            | OutOfFuel => (g1, OutOfFuel)
            | Raise x => (g1, Raise x)
            | Ret move_as_string =>
              if is_legal (the_board g1) move color then
                (respond (lower move_as_string) (play_on_board move color g1), Ret tt)
              else (respond "resign" g1, Ret tt)
            end
          end
        end
      end
    end
  end.

(** [self.board = board_copy] after [respond("unknown")], where
    [board_copy] is the object [snapshot]. *)
Definition timed_out (snapshot : nat) (g : GtpConnection) : GtpConnection :=
  let g' := respond "unknown" g in
  mkGtp snapshot (g_objects g') (g_next g') (g_timelimit g') (g_tt g')
    (g_history_heuristic g') (g_stdout g').

(** The two responses of [solve] after a search that returned [move]. *)
Definition report (move : option Point) (g : GtpConnection) : GtpConnection * outcome unit :=
  let b := the_board g in
  match move with
  | Some m =>
    let color := if decide (current_player b = BLACK) then "b"%string else "w"%string in
    match point_to_coord (Some m) (size b) with
    | OutOfFuel => (g, OutOfFuel)
    | Raise x => (g, Raise x)
    | Ret c =>
      match format_point MAXSIZE c with
      | OutOfFuel => (g, OutOfFuel)
      | Raise x => (g, Raise x)
      | Ret s => (respond (color +:+ " " +:+ lower s) g, Ret tt)
      end
    end
  | None =>
    let color := if decide (current_player b = BLACK) then "w"%string else "b"%string in
    (respond color g, Ret tt)
  end.

(** [solve(self, args)].  Time is not modelled: [budget] is the number of
    statements of the search that run before SIGALRM arrives, the alarm
    having been armed for [self.timelimit] seconds. *)
Definition solve (fuel budget : nat) (args : list string) (g : GtpConnection)
  : GtpConnection * outcome unit :=
  let b := the_board g in
  let steps := count_steps b in
  (* board_copy = self.board.copy() *)
  let board_copy := g_next g in
  let g0 := mkGtp (g_board g) (set_object (g_objects g) board_copy (copy b))
              (S (g_next g)) (g_timelimit g) (g_tt g) (g_history_heuristic g)
              (g_stdout g) in
  (* signal.alarm(self.timelimit); try: *)
  match g_tt g0 !! size b, g_history_heuristic g0 !! size b with
  | None, _ | _, None => (g0, Raise KeyError)
  | Some t, Some h =>
    match negamax_boolean fuel steps (mkEnv b t h (Some budget) []) with
    | (e, OutOfFuel) => (after_search g0 (size b) e, OutOfFuel)
    | (e, Raise TimeoutError) =>
        (timed_out board_copy (after_search g0 (size b) e), Ret tt)
    | (e, Raise x) => (after_search g0 (size b) e, Raise x)
    | (e, Ret (_, move)) =>
        (* signal.alarm(0), unless the alarm arrives first *)
        match e_alarm e with
        | Some O => (timed_out board_copy (after_search g0 (size b) e), Ret tt)
        | _ => report move (after_search g0 (size b) e)
        end
    end
  end.

End Gtp.

Arguments GtpConnection Board Code {_ _}.

(** ** The game the solver decides, and what is asked of a board *)

Section Game.
  Context {Board Code : Type} `{BoardOps Board Code}.

(** The moves [negamax_boolean] enumerates at [b], and the position it
    reaches by applying one of them. *)
Definition legal (b : Board) : list Point :=
  generate_legal_moves b (current_player b).

Definition next (b : Board) (m : Point) : Board :=
  snd (play_move b m (current_player b)).

(** A forced win for the player to move: some legal move leads to a
    position the opponent loses; a loss: every legal move (there may be
    none) leads to a win of the opponent. *)
Inductive Win : Board → Prop :=
| Win_move b m : In m (legal b) → Loss (next b m) → Win b
with Loss : Board → Prop :=
| Loss_all b : (∀ m, In m (legal b) → Win (next b m)) → Loss b.

(** The same verdict computed by plain exhaustive search, [n] plies deep,
    without tables and without stopping at the first winning move. *)
Fixpoint exhaustive (n : nat) (b : Board) : bool :=
  match n with
  | O => false
  | S n' => existsb (fun m => negb (exhaustive n' (next b m))) (legal b)
  end.

(** *** Laws of a board *)

(** Every enumerated move is accepted by [play_move]. *)
Definition enumerated_moves_accepted : Prop :=
  ∀ b m, In m (legal b) → fst (play_move b m (current_player b)) = true.

(** [undoMove] takes back an enumerated move. *)
Definition undo_restores : Prop :=
  ∀ b m, In m (legal b) → undoMove (next b m) m = b.

(** Every game ends: [rank] bounds the number of moves still to come. *)
Definition game_ends (rank : Board → nat) : Prop :=
  ∀ b m, In m (legal b) → (rank (next b m) < rank b)%nat.

(** Distinct positions have distinct codes. *)
Definition codes_distinct : Prop :=
  ∀ b1 b2 : Board, code b1 = code b2 → b1 = b2.

(** [copy] yields an object in the same state. *)
Definition copy_faithful : Prop := ∀ b : Board, copy b = b.

(** A move that is legal for a colour changes the position when played. *)
Definition legal_play_changes : Prop :=
  ∀ b m c, is_legal b m c = true → code (snd (play_move b m c)) ≠ code b.

(** After a play that is legal for a colour, that colour is not to move. *)
Definition turn_passes : Prop :=
  ∀ b m c, is_legal b m c = true → current_player (snd (play_move b m c)) ≠ c.

(** *** What a correct table entry is *)

Definition result_ok (b : Board) (r : bool * option Point) : Prop :=
  match r with
  | (true, Some m) => In m (legal b) ∧ Loss (next b m)
  | (false, None) => Loss b
  | _ => False
  end.

Definition tt_sound (t : TranspositionTable.t Code) : Prop :=
  ∀ b r, TranspositionTable.lookup t (code b) = Some r → result_ok b r.

(** *** Reading the log *)

(** In a log (newest first) every [history_table.update(move, depth)] is
    directly followed by [store_result(tt, board, True, move)]. *)
Fixpoint updates_stored (l : list (event Code)) : Prop :=
  match l with
  | [] => True
  | ev :: l' =>
      updates_stored l' ∧
      match l' with
      | EUpdate m _ :: _ => ∃ c, ev = EStore c true (Some m)
      | _ => True
      end
  end.

(** The newest call is not an update still waiting for its store. *)
Definition settled (l : list (event Code)) : Prop :=
  match l with
  | EUpdate _ _ :: _ => False
  | _ => True
  end.

(** [h'] keeps every entry of [h] and scores no move lower. *)
Definition history_le (h h' : HistoryHeuristicTable.t) : Prop :=
  ∀ m : Point,
    (is_Some (h !! m) → is_Some (h' !! m)) ∧
    HistoryHeuristicTable.lookup h m ≤ HistoryHeuristicTable.lookup h' m.

(** The number of moves applied so far. *)
Fixpoint plays (l : list (event Code)) : nat :=
  match l with
  | [] => O
  | EPlay _ _ :: l' => S (plays l')
  | _ :: l' => plays l'
  end.

End Game.

(** ** Concrete boards *)

(** A pile of tokens from which the player to move takes one or two, on a
    board as large as boards get: its size is [MAXSIZE], and move 2, which
    lies in column 2, has no text.  (The boards declared after it are the
    ones found first where a statement leaves the board open.) *)
Module FullPile.
Record t := mk { tokens : nat; black : bool }.

Definition takes (m : Point) : nat := Z.to_nat m.

Definition accepts (p : t) (m : Point) (c : Color) : bool :=
  (Z.eqb m 1 || Z.eqb m 2) && Nat.leb (takes m) (tokens p)
  && (bool_decide (c = BLACK) || bool_decide (c = WHITE)).

#[global] Instance board : BoardOps t (nat * bool) := {|
  size := fun _ => 2;
  current_player := fun p => if black p then BLACK else WHITE;
  generate_legal_moves := fun p _ =>
    match tokens p with
    | O => []
    | S O => [1]
    | _ => [1; 2]
    end;
  play_move := fun p m c =>
    if accepts p m c
    then (true, mk (tokens p - takes m) (bool_decide (c = WHITE)))
    else (false, p);
  undoMove := fun p m => mk (tokens p + takes m) (negb (black p));
  code := fun p => (tokens p, black p);
  is_legal := accepts;
  count_steps := fun _ => 0;
  copy := fun p => p;
  MAXSIZE := 2
|}.

(** A connection on [p], with tables for its size. *)
Definition connection (p : t) : GtpConnection t (nat * bool) :=
  mkGtp 0%nat (fun _ => p) 1%nat 1
    {[ 2 := TranspositionTable.init ]} {[ 2 := HistoryHeuristicTable.init ]} [].
End FullPile.

(** A pile of tokens from which the player to move takes one or two; who
    cannot move loses.  It offers the board interface and obeys every law
    above, and is small enough to run the solver on. *)
Module Pile.
Record t := mk { tokens : nat; black : bool }.

Definition takes (m : Point) : nat := Z.to_nat m.

Definition accepts (p : t) (m : Point) (c : Color) : bool :=
  (Z.eqb m 1 || Z.eqb m 2) && Nat.leb (takes m) (tokens p)
  && (bool_decide (c = BLACK) || bool_decide (c = WHITE)).

#[global] Instance board : BoardOps t (nat * bool) := {|
  size := fun _ => 2;
  current_player := fun p => if black p then BLACK else WHITE;
  generate_legal_moves := fun p _ =>
    match tokens p with
    | O => []
    | S O => [1]
    | _ => [1; 2]
    end;
  play_move := fun p m c =>
    if accepts p m c
    then (true, mk (tokens p - takes m) (bool_decide (c = WHITE)))
    else (false, p);
  undoMove := fun p m => mk (tokens p + takes m) (negb (black p));
  code := fun p => (tokens p, black p);
  is_legal := accepts;
  count_steps := fun _ => 0;
  copy := fun p => p;
  MAXSIZE := 25
|}.

Definition rank (p : t) : nat := tokens p.

(** The solver's objects at the start of a session. *)
Definition fresh (p : t) (alarm : option nat) : Env t (nat * bool) :=
  mkEnv p TranspositionTable.init HistoryHeuristicTable.init alarm [].

(** A connection on [p]: object 0 is the board, tables exist for its size. *)
Definition connection (p : t) : GtpConnection t (nat * bool) :=
  mkGtp 0%nat (fun _ => p) 1%nat 1
    {[ 2 := TranspositionTable.init ]} {[ 2 := HistoryHeuristicTable.init ]} [].
End Pile.

(** The same pile behind a careless enumeration: move 2 is listed even when
    a single token is left, and [play_move] then rejects it. *)
Module LoosePile.
Record t := mk { tokens : nat; black : bool }.

Definition takes (m : Point) : nat := Z.to_nat m.

Definition accepts (p : t) (m : Point) (c : Color) : bool :=
  (Z.eqb m 1 || Z.eqb m 2) && Nat.leb (takes m) (tokens p)
  && (bool_decide (c = BLACK) || bool_decide (c = WHITE)).

#[global] Instance board : BoardOps t (nat * bool) := {|
  size := fun _ => 2;
  current_player := fun p => if black p then BLACK else WHITE;
  generate_legal_moves := fun p _ =>
    match tokens p with
    | O => []
    | _ => [2; 1]
    end;
  play_move := fun p m c =>
    if accepts p m c
    then (true, mk (tokens p - takes m) (bool_decide (c = WHITE)))
    else (false, p);
  undoMove := fun p m => mk (tokens p + takes m) (negb (black p));
  code := fun p => (tokens p, black p);
  is_legal := accepts;
  count_steps := fun _ => 0;
  copy := fun p => p;
  MAXSIZE := 25
|}.

Definition fresh (p : t) (alarm : option nat) : Env t (nat * bool) :=
  mkEnv p TranspositionTable.init HistoryHeuristicTable.init alarm [].
End LoosePile.

(** ** The state after each statement *)

Section Steps.
  Context {Board Code : Type} `{BoardOps Board Code}.

(** The alarm is due: the next statement raises instead of running. *)
Definition fires (e : Env Board Code) : bool :=
  match e_alarm e with
  | Some O => true
  | _ => false
  end.

Definition rest_alarm (a : option nat) : option nat :=
  match a with
  | Some (S n) => Some n
  | _ => a
  end.

Definition probed (e : Env Board Code) : Env Board Code :=
  mkEnv (e_board e) (e_tt e) (e_history e) (rest_alarm (e_alarm e)) (e_log e).

Definition generated (e : Env Board Code) : Env Board Code :=
  mkEnv (e_board e) (e_tt e) (e_history e) (rest_alarm (e_alarm e))
    (EGenerate (current_player (e_board e)) :: e_log e).

Definition played (move : Point) (e : Env Board Code) : Env Board Code :=
  mkEnv (next (e_board e) move) (e_tt e) (e_history e) (rest_alarm (e_alarm e))
    (EPlay move (current_player (e_board e)) :: e_log e).

Definition undone (move : Point) (e : Env Board Code) : Env Board Code :=
  mkEnv (undoMove (e_board e) move) (e_tt e) (e_history e) (rest_alarm (e_alarm e))
    (EUndo move :: e_log e).

Definition updated (move : Point) (depth : Z) (e : Env Board Code) : Env Board Code :=
  mkEnv (e_board e) (e_tt e) (HistoryHeuristicTable.update (e_history e) move depth)
    (rest_alarm (e_alarm e)) (EUpdate move depth :: e_log e).

Definition stored (result : bool) (move : option Point) (e : Env Board Code)
  : Env Board Code :=
  mkEnv (e_board e)
    (TranspositionTable.store (e_tt e) (code (e_board e)) result move)
    (e_history e) (rest_alarm (e_alarm e))
    (EStore (code (e_board e)) result move :: e_log e).

(** Every update logged so far has had its store. *)
Definition log_ok (e : Env Board Code) : Prop :=
  updates_stored (e_log e) ∧ settled (e_log e).

(** Every table of the connection is sound. *)
Definition tables_sound (g : GtpConnection Board Code) : Prop :=
  ∀ sz t, g_tt g !! sz = Some t → tt_sound t.

(** The moves in the order the loop tries them. *)
Definition ordered (e : Env Board Code) : list Point :=
  sort_desc (HistoryHeuristicTable.lookup (e_history e)) (legal (e_board e)).

End Steps.

(** ** Reading a move *)

(** The blanks of [str.isspace], [str.split()] and [str.lstrip()] on
    ASCII text: codes 9 to 13 and 28 to 32. *)
Definition is_space (c : ascii) : bool :=
  let n := nat_of_ascii c in
  (Nat.leb 9 n && Nat.leb n 13) || (Nat.leb 28 n && Nat.leb n 32).

(** The blanks [int()] skips around the number of an ASCII text: codes 9
    to 13 and the space, not the separators 28 to 31. *)
Definition is_int_space (c : ascii) : bool :=
  let n := nat_of_ascii c in
  (Nat.leb 9 n && Nat.leb n 13) || Nat.eqb n 32.

Definition digit_value (c : ascii) : option Z :=
  let n := nat_of_ascii c in
  if (Nat.leb 48 n && Nat.leb n 57)%bool then Some (Z.of_nat n - 48) else None.

Fixpoint all_int_space (s : string) : bool :=
  match s with
  | EmptyString => true
  | String c s' => is_int_space c && all_int_space s'
  end.

(** Python's [int(s)] on ASCII text, base ten: blanks around, one sign,
    digits with single underscores between them.  It is [int()] without
    the limit on the number of digits that interpreters from 3.11 on put
    on the conversion (4300 by default, and adjustable). *)

Fixpoint int_digits (s : string) (acc : Z) (after_digit : bool) : option Z :=
  match s with
  | EmptyString => if after_digit then Some acc else None
  | String c s' =>
      match digit_value c with
      | Some d => int_digits s' (10 * acc + d) true
      | None =>
          if Ascii.eqb c "_" then
            if after_digit then int_digits s' acc false else None
          else if is_int_space c && after_digit then
            if all_int_space s' then Some acc else None
          else None
      end
  end.

(** [s.lstrip()] *)
Fixpoint lstrip (s : string) : string :=
  match s with
  | EmptyString => EmptyString
  | String c s' => if is_space c then lstrip s' else s
  end.

(** The blanks [int()] skips before the number. *)
Fixpoint lstrip_int (s : string) : string :=
  match s with
  | EmptyString => EmptyString
  | String c s' => if is_int_space c then lstrip_int s' else s
  end.

(** [int(s)]; [None] stands for [ValueError]. *)
Definition py_int (s : string) : option Z :=
  match lstrip_int s with
  | EmptyString => None
  | String c r =>
      if Ascii.eqb c "+" then int_digits r 0 false
      else if Ascii.eqb c "-" then option_map Z.opp (int_digits r 0 false)
      else int_digits (String c r) 0 false
  end.

(** What [move_to_coord] gives: coordinates, or a [ValueError] with its
    message. *)
Inductive move_parse :=
| Parsed (c : coord)
| ValueErrorMsg (msg : string).

(** [move_to_coord(point_str, board_size)], with [MAXSIZE] as [maxsize].
    The [IndexError] of [s[0]] and the [ValueError]s raised inside the
    [try] all leave as [ValueError("wrong coordinate")]. *)
Definition move_to_coord (maxsize : Z) (point_str : string) (board_size : Z) : move_parse :=
  if negb (Z.leb 2 board_size && Z.leb board_size maxsize)
  then ValueErrorMsg "board_size out of range"
  else
    let s := lower point_str in
    if String.eqb s "pass" then Parsed CPass
    else
      match s with
      | EmptyString => ValueErrorMsg "wrong coordinate"
      | String col_c rest =>
          let n := Z.of_nat (nat_of_ascii col_c) in
          if negb (Z.leb 97 n && Z.leb n 122) || Z.eqb n 105
          then ValueErrorMsg "wrong coordinate"
          else
            let col := n - 97 in
            let col := if Z.ltb n 105 then col + 1 else col in
            match py_int rest with
            | None => ValueErrorMsg "wrong coordinate"
            | Some row =>
                if Z.ltb row 1 then ValueErrorMsg "wrong coordinate"
                else if negb (Z.leb col board_size && Z.leb row board_size)
                then ValueErrorMsg "wrong coordinate"
                else Parsed (CRowCol row col)
            end
      end.

(** The value [int_digits] has reached after the digits of [x], from [q]. *)
Fixpoint shift (fuel : nat) (x : N) (q : Z) : Z :=
  match fuel with
  | O => q
  | S fuel' =>
      if N.eqb x 0 then q
      else 10 * shift fuel' (x `div` 10)%N q + Z.of_N (x `mod` 10)%N
  end.

Fixpoint all_digits (s : string) : bool :=
  match s with
  | EmptyString => true
  | String c s' => match digit_value c with Some _ => true | None => false end && all_digits s'
  end.

(** ** More commands of the connection *)

(** What these commands call besides [BoardOps]: [board.reset(size)],
    [coord_to_point(row, col, boardsize)] of [board_util] and
    [board.get_empty_points()]. *)
Class BoardAdmin (Board : Type) := {
  board_reset : Board → Z → Board;
  coord_to_point : Z → Z → Z → Point;
  get_empty_points : Board → list Point
}.

(** The quotation mark of the messages. *)
Definition quote : string := String "034"%char EmptyString.

Section MoreCommands.
Context {Board Code : Type} `{BoardOps Board Code} `{BoardAdmin Board}.

(** [__init__], for the fields modelled: the limit is 1 and there is one
    table of each kind, for the size of the board. *)
Definition GtpConnection_init (board : nat) (objects : nat → Board) (next : nat)
  : GtpConnection Board Code :=
  mkGtp board objects next 1
    {[ size (objects board) := TranspositionTable.init ]}
    {[ size (objects board) := HistoryHeuristicTable.init ]} [].

(** [reset(self, size)]: tables are made only for a size not in [self.tt];
    then [self.board.reset(size)]. *)
Definition reset (sz : Z) (g : GtpConnection Board Code) : GtpConnection Board Code :=
  let tables :=
    match g_tt g !! sz with
    | Some _ => (g_tt g, g_history_heuristic g)
    | None => (<[sz := TranspositionTable.init]> (g_tt g),
               <[sz := HistoryHeuristicTable.init]> (g_history_heuristic g))
    end in
  mkGtp (g_board g)
    (set_object (g_objects g) (g_board g) (board_reset (the_board g) sz))
    (g_next g) (g_timelimit g) (fst tables) (snd tables) (g_stdout g).

(** [clear_board_cmd(self, args)] *)
Definition clear_board_cmd (args : list string) (g : GtpConnection Board Code)
  : GtpConnection Board Code * outcome unit :=
  (respond EmptyString (reset (size (the_board g)) g), Ret tt).

(** [boardsize_cmd(self, args)]: [self.reset(int(args[0]))] *)
Definition boardsize_cmd (args : list string) (g : GtpConnection Board Code)
  : GtpConnection Board Code * outcome unit :=
  match args with
  | [] => (g, Raise IndexError)
  | a0 :: _ =>
      match py_int a0 with
      | None => (g, Raise ValueError)
      | Some n => (respond EmptyString (reset n g), Ret tt)
      end
  end.

(** [timelimit_cmf(self, args)]: outside [1 .. 100] nothing is set and
    nothing is answered. *)
Definition timelimit_cmf (args : list string) (g : GtpConnection Board Code)
  : GtpConnection Board Code * outcome unit :=
  match args with
  | [] => (g, Raise IndexError)
  | a0 :: _ =>
      match py_int a0 with
      | None => (g, Raise ValueError)
      | Some a =>
          if Z.leb 1 a && Z.leb a 100 then
            (respond EmptyString
               (mkGtp (g_board g) (g_objects g) (g_next g) a (g_tt g)
                  (g_history_heuristic g) (g_stdout g)), Ret tt)
          else (g, Ret tt)
      end
  end.

(** ['illegal move: "{} {}" {}'.format(a, b, why)] *)
Definition illegal_move (a b why : string) : string :=
  ("illegal move: " +:+ quote +:+ a +:+ " " +:+ b +:+ quote +:+ " " +:+ why)%string.

(** [play_cmd(self, args)].  Every exception raised inside its [try] is
    answered with its text; [unbound] is the text of the error the branch
    [else: self.error(... move ...)] raises by reading [move] before it is
    bound, which depends on the interpreter.  What [debug_msg] writes to
    the error stream is left out. *)
Definition play_cmd (unbound : string) (args : list string) (g : GtpConnection Board Code)
  : GtpConnection Board Code * outcome unit :=
  match args with
  | a0 :: a1 :: _ =>
      let board_color := lower a0 in
      let board_move := a1 in
      if negb (String.eqb board_color "b") && negb (String.eqb board_color "w") then
        (respond ("illegal move: " +:+ quote +:+ board_color +:+ quote +:+ " wrong color") g,
         Ret tt)
      else
        match color_to_int board_color with
        | None =>
            (respond (illegal_move a0 a1 ("'" +:+ board_color +:+ "'")) g, Ret tt)
        | Some color =>
            if String.eqb (lower a1) "pass" then
              (respond ("illegal move: " +:+ quote +:+ a0 +:+ " " +:+ a1 +:+ quote
                        +:+ " wrong coordinate") g, Ret tt)
            else
              match move_to_coord MAXSIZE a1 (size (the_board g)) with
              | ValueErrorMsg msg => (respond (illegal_move a0 a1 msg) g, Ret tt)
              | Parsed CPass => (respond (illegal_move a0 a1 unbound) g, Ret tt)
              | Parsed (CRowCol row col) =>
                  let move := coord_to_point row col (size (the_board g)) in
                  if negb (fst (play_move (the_board g) move color)) then
                    (respond (illegal_move a0 board_move EmptyString)
                       (play_on_board move color g), Ret tt)
                  else (respond EmptyString (play_on_board move color g), Ret tt)
              end
        end
  | _ => (g, Raise IndexError)
  end.

(** Both tables exist for the size of the board. *)
Definition tables_ready (g : GtpConnection Board Code) : Prop :=
  is_Some (g_tt g !! size (the_board g)) ∧
  is_Some (g_history_heuristic g !! size (the_board g)).

(** A move [play_cmd] plays: colour, row and column read, move accepted. *)
Definition play_accepted (a0 a1 : string) (g : GtpConnection Board Code) : Prop :=
  ∃ color row col,
    color_to_int (lower a0) = Some color ∧ (color = BLACK ∨ color = WHITE) ∧
    move_to_coord MAXSIZE a1 (size (the_board g)) = Parsed (CRowCol row col) ∧
    fst (play_move (the_board g)
           (coord_to_point row col (size (the_board g))) color) = true.

End MoreCommands.

(** The pile under [reset], [coord_to_point] and [get_empty_points]: a
    reset refills the pile to as many tokens as the size asked for; points
    are numbered as on a board with a border column; the empty points are
    the numbers one may think of taking. *)
#[global] Instance Pile_admin : BoardAdmin Pile.t := {|
  board_reset := fun _ sz => Pile.mk (Z.to_nat sz) true;
  coord_to_point := fun row col sz => (sz + 1) * row + col;
  get_empty_points := fun _ => [1; 2; 3]
|}.

(** ** Reading a command line *)

(** [c in chars] *)
Definition in_chars (chars : string) (c : ascii) : bool :=
  existsb (Ascii.eqb c) (list_ascii_of_string chars).

(** [s.strip(chars)], from the left and from the right. *)
Fixpoint lstrip_chars (chars s : string) : string :=
  match s with
  | EmptyString => EmptyString
  | String c s' => if in_chars chars c then lstrip_chars chars s' else s
  end.

Fixpoint rstrip_chars (chars s : string) : string :=
  match s with
  | EmptyString => EmptyString
  | String c s' =>
      match rstrip_chars chars s' with
      | EmptyString => if in_chars chars c then EmptyString else String c EmptyString
      | r => String c r
      end
  end.

Definition strip (chars s : string) : string :=
  rstrip_chars chars (lstrip_chars chars s).

(** [c.isdigit()] on ASCII. *)
Definition isdigit (c : ascii) : bool :=
  match digit_value c with Some _ => true | None => false end.

(** [re.sub("^\d+", "", s)]: the digits the text starts with are dropped. *)
Fixpoint drop_digits (s : string) : string :=
  match s with
  | EmptyString => EmptyString
  | String c s' => if isdigit c then drop_digits s' else s
  end.

(** [s.split()]: the words between runs of blanks; [word] is the word
    being read. *)
Fixpoint split_from (word s : string) : list string :=
  match s with
  | EmptyString =>
      match word with EmptyString => [] | _ => [word] end
  | String c s' =>
      if is_space c then
        match word with
        | EmptyString => split_from EmptyString s'
        | _ => word :: split_from EmptyString s'
        end
      else split_from (word +:+ String c EmptyString) s'
  end.

Definition split (s : string) : list string := split_from EmptyString s.

(** The tab and the carriage return of [' \r\t']. *)
Definition blank_chars : string :=
  String " "%char (String "013"%char (String "009"%char EmptyString)).

(** The keys of [self.commands], in the order of the literal. *)
Definition command_names : list string :=
  ["protocol_version"; "quit"; "name"; "boardsize"; "showboard"; "clear_board";
   "komi"; "version"; "known_command"; "genmove"; "list_commands"; "play";
   "legal_moves"; "gogui-rules_game_id"; "gogui-rules_board_size";
   "gogui-rules_legal_moves"; "gogui-rules_side_to_move"; "gogui-rules_board";
   "gogui-rules_final_result"; "gogui-analyze_commands"; "timelimit"; "solve"]%string.

(** [self.argmap]: the number of arguments required and the usage line. *)
Definition argmap (cmd : string) : option (Z * string) :=
  if String.eqb cmd "boardsize" then Some (1, "Usage: boardsize INT"%string)
  else if String.eqb cmd "komi" then Some (1, "Usage: komi FLOAT"%string)
  else if String.eqb cmd "known_command" then Some (1, "Usage: known_command CMD_NAME"%string)
  else if String.eqb cmd "genmove" then Some (1, "Usage: genmove {w,b}"%string)
  else if String.eqb cmd "play" then Some (2, "Usage: play {b,w} MOVE"%string)
  else if String.eqb cmd "legal_moves" then Some (1, "Usage: legal_moves {w,b}"%string)
  else if String.eqb cmd "timelimit" then Some (1, "Usage: timelimit seconds"%string)
  else None.

(** The line [error(error_msg)] writes. *)
Definition error_reply (error_msg : string) : string :=
  ("? " +:+ error_msg +:+ newline +:+ newline)%string.

Section Dispatch.
Context {Board Code : Type} `{BoardOps Board Code} `{BoardAdmin Board}.

(** A bound method [self.x_cmd], called with [args]. *)
Definition command : Type :=
  list string → GtpConnection Board Code → GtpConnection Board Code * outcome unit.

(** [error(self, error_msg)]: [stdout.write('? {}\n\n'.format(error_msg))] *)
Definition error (error_msg : string) (g : GtpConnection Board Code)
  : GtpConnection Board Code :=
  mkGtp (g_board g) (g_objects g) (g_next g) (g_timelimit g) (g_tt g)
    (g_history_heuristic g)
    (g_stdout g ++ [error_reply error_msg]).

(** [has_arg_error(self, cmd, argnum)] *)
Definition has_arg_error (cmd : string) (argnum : Z) (g : GtpConnection Board Code)
  : GtpConnection Board Code * bool :=
  match argmap cmd with
  | Some (n, usage) =>
      if negb (Z.eqb n argnum) then (error usage g, true) else (g, false)
  | None => (g, false)
  end.

(** [known_command_cmd(self, args)] *)
Definition known_command_cmd (args : list string) (g : GtpConnection Board Code)
  : GtpConnection Board Code * outcome unit :=
  match args with
  | [] => (g, Raise IndexError)
  | a0 :: _ =>
      if existsb (String.eqb a0) command_names then (respond "true" g, Ret tt)
      else (respond "false" g, Ret tt)
  end.

(** [list_commands_cmd(self, args)]:
    [self.respond(' '.join(list(self.commands.keys())))] *)
Definition list_commands_cmd (args : list string) (g : GtpConnection Board Code)
  : GtpConnection Board Code * outcome unit :=
  (respond (String.concat " " command_names) g, Ret tt).

(** [sorted(l)] on a list of texts: insertion from the right; texts are
    compared as Python compares [str], character by character. *)
Fixpoint insert_text (x : string) (l : list string) : list string :=
  match l with
  | [] => [x]
  | y :: l' => if String.leb x y then x :: l else y :: insert_text x l'
  end.

Fixpoint sorted (l : list string) : list string :=
  match l with
  | [] => []
  | x :: l' => insert_text x (sorted l')
  end.

(** The loop [for move in moves: ... gtp_moves.append(format_point(coords))] *)
Fixpoint format_moves (moves : list Point) (boardsize : Z) : outcome (list string) :=
  match moves with
  | [] => Ret []
  | move :: rest =>
      match move_text MAXSIZE boardsize move with
      | Ret s =>
          match format_moves rest boardsize with
          | Ret gtp_moves => Ret (s :: gtp_moves)
          | Raise x => Raise x
          | OutOfFuel => OutOfFuel
          end
      | Raise x => Raise x
      | OutOfFuel => OutOfFuel
      end
  end.

(** [self.respond(' '.join(sorted(gtp_moves)))] after that loop. *)
Definition respond_moves (moves : list Point) (g : GtpConnection Board Code)
  : GtpConnection Board Code * outcome unit :=
  match format_moves moves (size (the_board g)) with
  | Ret gtp_moves => (respond (String.concat " " (sorted gtp_moves)) g, Ret tt)
  | Raise x => (g, Raise x)
  | OutOfFuel => (g, OutOfFuel)
  end.

(** [legal_moves_cmd(self, args)] *)
Definition legal_moves_cmd (args : list string) (g : GtpConnection Board Code)
  : GtpConnection Board Code * outcome unit :=
  match args with
  | [] => (g, Raise IndexError)
  | a0 :: _ =>
      match color_to_int (lower a0) with
      | None => (g, Raise KeyError)
      | Some color => respond_moves (generate_legal_moves (the_board g) color) g
      end
  end.

(** The empty points [is_legal] accepts for the player to move, the list
    [legal_moves] of the two [gogui-rules] commands below. *)
Definition playable (b : Board) : list Point :=
  List.filter (λ move, is_legal b move (current_player b)) (get_empty_points b).

(** [gogui_rules_legal_moves_cmd(self, args)] *)
Definition gogui_rules_legal_moves_cmd (args : list string) (g : GtpConnection Board Code)
  : GtpConnection Board Code * outcome unit :=
  respond_moves (playable (the_board g)) g.

(** [gogui_rules_final_result_cmd(self, args)] *)
Definition gogui_rules_final_result_cmd (args : list string) (g : GtpConnection Board Code)
  : GtpConnection Board Code * outcome unit :=
  let result :=
    match playable (the_board g) with
    | [] => if decide (current_player (the_board g) = WHITE)
            then "black"%string else "white"%string
    | _ :: _ => "unknown"%string
    end in
  (respond result g, Ret tt).

(** [gogui_rules_side_to_move_cmd(self, args)] *)
Definition gogui_rules_side_to_move_cmd (args : list string) (g : GtpConnection Board Code)
  : GtpConnection Board Code * outcome unit :=
  (respond (if decide (current_player (the_board g) = BLACK)
            then "black"%string else "white"%string) g, Ret tt).

(** [gogui_rules_board_size_cmd(self, args)]: [str(self.board.size)] *)
Definition gogui_rules_board_size_cmd (args : list string) (g : GtpConnection Board Code)
  : GtpConnection Board Code * outcome unit :=
  (respond (pretty (size (the_board g))) g, Ret tt).

(** [gogui_rules_game_id_cmd(self, args)] *)
Definition gogui_rules_game_id_cmd (args : list string) (g : GtpConnection Board Code)
  : GtpConnection Board Code * outcome unit :=
  (respond "NoGo" g, Ret tt).

(** [protocol_version_cmd(self, args)] *)
Definition protocol_version_cmd (args : list string) (g : GtpConnection Board Code)
  : GtpConnection Board Code * outcome unit :=
  (respond "2" g, Ret tt).

(** [gogui_analyze_cmd(self, args)] *)
Definition gogui_analyze_cmd (args : list string) (g : GtpConnection Board Code)
  : GtpConnection Board Code * outcome unit :=
  (respond
     ("pstring/Legal Moves For ToPlay/gogui-rules_legal_moves" +:+ newline +:+
      "pstring/Side to Play/gogui-rules_side_to_move" +:+ newline +:+
      "pstring/Final Result/gogui-rules_final_result" +:+ newline +:+
      "pstring/Board Size/gogui-rules_board_size" +:+ newline +:+
      "pstring/Rules GameID/gogui-rules_game_id" +:+ newline +:+
      "pstring/Show Board/gogui-rules_board" +:+ newline) g, Ret tt).

(** The search of a command stops after [fuel] nested calls, the alarm of
    [solve] arrives after [budget] statements, [unbound] is the text of
    [play_cmd]'s unbound-variable error, and [other] stands for the
    handlers that are not modelled here ([quit], [name], [version],
    [showboard], [komi] and [gogui-rules_board]: they reach the engine,
    the array of the board or [exit]). *)
Variables (fuel budget : nat) (unbound : string) (other : string → command).

(** [self.commands]: the handler of a name, [None] for a name that is not
    a key. *)
Definition commands (name : string) : option command :=
  if String.eqb name "boardsize" then Some boardsize_cmd
  else if String.eqb name "clear_board" then Some clear_board_cmd
  else if String.eqb name "genmove" then Some (genmove_cmd fuel)
  else if String.eqb name "play" then Some (play_cmd unbound)
  else if String.eqb name "timelimit" then Some timelimit_cmf
  else if String.eqb name "solve" then Some (solve fuel budget)
  else if String.eqb name "known_command" then Some known_command_cmd
  else if String.eqb name "list_commands" then Some list_commands_cmd
  else if String.eqb name "legal_moves" then Some legal_moves_cmd
  else if String.eqb name "gogui-rules_legal_moves" then Some gogui_rules_legal_moves_cmd
  else if String.eqb name "gogui-rules_final_result" then Some gogui_rules_final_result_cmd
  else if String.eqb name "gogui-rules_side_to_move" then Some gogui_rules_side_to_move_cmd
  else if String.eqb name "gogui-rules_board_size" then Some gogui_rules_board_size_cmd
  else if String.eqb name "gogui-rules_game_id" then Some gogui_rules_game_id_cmd
  else if String.eqb name "protocol_version" then Some protocol_version_cmd
  else if String.eqb name "gogui-analyze_commands" then Some gogui_analyze_cmd
  else if existsb (String.eqb name) command_names then Some (other name)
  else None.

(** [get_cmd] from [has_arg_error] on.  An exception of the handler is
    raised again; what [debug_msg] writes to the error stream is left
    out. *)
Definition run_command (command_name : string) (args : list string)
    (g : GtpConnection Board Code) : GtpConnection Board Code * outcome unit :=
  let (g1, wrong) := has_arg_error command_name (Z.of_nat (length args)) g in
  if wrong then (g1, Ret tt)
  else
    match commands command_name with
    | Some cmd => cmd args g1
    | None => (error "Unknown command" g1, Ret tt)
    end.

(** [get_cmd(self, command)], on ASCII text. *)
Definition get_cmd (command : string) (g : GtpConnection Board Code)
  : GtpConnection Board Code * outcome unit :=
  if Nat.eqb (String.length (strip blank_chars command)) 0 then (g, Ret tt)
  else
    match command with
    | EmptyString => (g, Raise IndexError)
    | String c0 _ =>
        if Ascii.eqb c0 "#" then (g, Ret tt)
        else
          let command := if isdigit c0 then lstrip (drop_digits command) else command in
          match split command with
          | [] => (g, Ret tt)
          | command_name :: args => run_command command_name args g
          end
    end.

End Dispatch.

Arguments command Board Code {_ _}.

(** ** A session *)

Section Session.
Context {Board Code : Type} `{BoardOps Board Code} `{BoardAdmin Board}.
Variables (fuel : nat) (unbound : string) (other : string → command Board Code).

(** [start_connection(self)] on the lines [stdin.readline()] gives one
    after the other, the empty text being the end of the input;
    [budgets n] is the budget of the alarm during the [n]-th line from
    here.  An exception that leaves [get_cmd] ends the loop. *)
Fixpoint start_connection (budgets : nat → nat) (lines : list string)
    (g : GtpConnection Board Code) : GtpConnection Board Code * outcome unit :=
  match lines with
  | [] => (g, Ret tt)
  | line :: rest =>
      match line with
      | EmptyString => (g, Ret tt)
      | String _ _ =>
          match get_cmd fuel (budgets O) unbound other line g with
          | (g1, Ret _) => start_connection (λ n, budgets (S n)) rest g1
          | (g1, Raise x) => (g1, Raise x)
          | (g1, OutOfFuel) => (g1, OutOfFuel)
          end
      end
  end.

End Session.

(** ** Notions for the further properties *)

(** [l] runs through keys that never increase. *)
Fixpoint descending (key : Point → Z) (l : list Point) : Prop :=
  match l with
  | [] => True
  | x :: l' => Forall (fun y => key y ≤ key x) l' ∧ descending key l'
  end.

(** The moves of [l] whose key is [k], in the order they have in [l]. *)
Definition with_key (key : Point → Z) (k : Z) (l : list Point) : list Point :=
  List.filter (fun x => Z.eqb (key x) k) l.

(** [later a a']: the alarm [a'] is due no sooner than [a]. *)
Inductive later : option nat → option nat → Prop :=
| later_never a : later a None
| later_by n k : later (Some n) (Some (n + k)%nat).

(** Every character of [s] is one of [chars]. *)
Fixpoint all_in (chars s : string) : bool :=
  match s with
  | EmptyString => true
  | String c s' => in_chars chars c && all_in chars s'
  end.

(** Texts in ascending order, each no greater than the next. *)
Fixpoint ascending (l : list string) : Prop :=
  match l with
  | [] => True
  | x :: l' =>
      match l' with
      | [] => True
      | y :: _ => String.leb x y = true
      end ∧ ascending l'
  end.

(** A word of a command line: not empty, no blank in it. *)
Fixpoint no_space (s : string) : bool :=
  match s with
  | EmptyString => true
  | String c s' => negb (is_space c) && no_space s'
  end.

Definition is_word (s : string) : bool :=
  match s with
  | EmptyString => false
  | String _ _ => no_space s
  end.

(** The updates of [l], one after the other. *)
Definition updates (l : list (Point * Z)) (h : HistoryHeuristicTable.t)
  : HistoryHeuristicTable.t :=
  fold_left (fun h p => HistoryHeuristicTable.update h (fst p) (snd p)) l h.

(** What the updates of [l] credit to [m]. *)
Definition credit (m : Point) (l : list (Point * Z)) : Z :=
  fold_right (fun p acc => if decide (fst p = m) then snd p ^ 2 + acc else acc) 0 l.

Section MoreNotions.
Context {Board Code : Type} `{BoardOps Board Code}.

(** The same objects under another alarm. *)
Definition set_alarm (a : option nat) (e : Env Board Code) : Env Board Code :=
  mkEnv (e_board e) (e_tt e) (e_history e) a (e_log e).

(** Wherever there is a transposition table there is a history table. *)
Definition tables_in_step (g : GtpConnection Board Code) : Prop :=
  dom (g_tt g) = dom (g_history_heuristic g).

(** [g'] differs from [g] in its tables at most in those of size [sz],
    which it has if [g] has them; the time limit is the same. *)
Definition same_but (sz : Z) (g g' : GtpConnection Board Code) : Prop :=
  g_timelimit g' = g_timelimit g ∧
  dom (g_tt g') = dom (g_tt g) ∧
  dom (g_history_heuristic g') = dom (g_history_heuristic g) ∧
  ∀ s, s ≠ sz →
       g_tt g' !! s = g_tt g !! s ∧
       g_history_heuristic g' !! s = g_history_heuristic g !! s.

(** [g'] is [g] after one line of answer. *)
Definition answered (g g' : GtpConnection Board Code) : Prop :=
  ∃ text, g_stdout g' = g_stdout g ++ [reply text].

(** The letter [solve] prints for the player to move, and for the other. *)
Definition mover_letter (b : Board) : string :=
  if decide (current_player b = BLACK) then "b"%string else "w"%string.

Definition other_letter (b : Board) : string :=
  if decide (current_player b = BLACK) then "w"%string else "b"%string.

End MoreNotions.

(** * Properties *)

Section StepFacts.
  Context {Board Code : Type} `{BoardOps Board Code}.
  Implicit Types (e : Env Board Code) (move m : Point) (depth : Z).

Lemma stmt_lookup_eq e :
  stmt_lookup e =
  if fires e then (e, Raise TimeoutError)
  else (probed e, Ret (TranspositionTable.lookup (e_tt e) (code (e_board e)))).
Proof.
  unfold stmt_lookup, bind, tick, fires, probed, get_board, get_tt, get_history, set_board, set_tt, set_history, emit, ret.
  destruct e as [b t h [[|n]|] l]; reflexivity.
Qed.

Lemma stmt_generate_eq e :
  stmt_generate e =
  if fires e then (e, Raise TimeoutError)
  else (generated e, Ret (legal (e_board e))).
Proof.
  unfold stmt_generate, bind, tick, fires, generated, get_board, get_tt, get_history, set_board, set_tt, set_history, emit, ret.
  destruct e as [b t h [[|n]|] l]; reflexivity.
Qed.

Lemma stmt_sort_eq e moves :
  stmt_sort moves e =
  if fires e then (e, Raise TimeoutError)
  else (probed e, Ret (sort_desc (HistoryHeuristicTable.lookup (e_history e)) moves)).
Proof.
  unfold stmt_sort, bind, tick, fires, probed, get_board, get_tt, get_history, set_board, set_tt, set_history, emit, ret.
  destruct e as [b t h [[|n]|] l]; reflexivity.
Qed.

Lemma stmt_play_eq e move :
  stmt_play move e =
  if fires e then (e, Raise TimeoutError) else (played move e, Ret tt).
Proof.
  unfold stmt_play, bind, tick, fires, played, get_board, get_tt, get_history, set_board, set_tt, set_history, emit, ret.
  destruct e as [b t h [[|n]|] l]; reflexivity.
Qed.

Lemma stmt_undo_eq e move :
  stmt_undo move e =
  if fires e then (e, Raise TimeoutError) else (undone move e, Ret tt).
Proof.
  unfold stmt_undo, bind, tick, fires, undone, get_board, get_tt, get_history, set_board, set_tt, set_history, emit, ret.
  destruct e as [b t h [[|n]|] l]; reflexivity.
Qed.

Lemma stmt_update_eq e move depth :
  stmt_update move depth e =
  if fires e then (e, Raise TimeoutError) else (updated move depth e, Ret tt).
Proof.
  unfold stmt_update, bind, tick, fires, updated, get_board, get_tt, get_history, set_board, set_tt, set_history, emit, ret.
  destruct e as [b t h [[|n]|] l]; reflexivity.
Qed.

Lemma store_result_eq e result mv :
  store_result result mv e =
  if fires e then (e, Raise TimeoutError)
  else (stored result mv e, Ret (result, mv)).
Proof.
  unfold store_result, bind, tick, fires, stored, get_board, get_tt, get_history, set_board, set_tt, set_history, emit, ret.
  destruct e as [b t h [[|n]|] l]; reflexivity.
Qed.

(** One turn of the loop, statement by statement. *)
Lemma try_moves_cons rec depth move rest e :
  try_moves rec depth (move :: rest) e =
  if fires e then (e, Raise TimeoutError)
  else match rec (played move e) with
       | (e2, Ret r) =>
           if fires e2 then (e2, Raise TimeoutError)
           else if negb (fst r) then
             if fires (undone move e2) then (undone move e2, Raise TimeoutError)
             else if fires (updated move depth (undone move e2))
                  then (updated move depth (undone move e2), Raise TimeoutError)
                  else (stored true (Some move) (updated move depth (undone move e2)),
                        Ret (true, Some move))
           else try_moves rec depth rest (undone move e2)
       | (e2, Raise x) => (e2, Raise x)
       | (e2, OutOfFuel) => (e2, OutOfFuel)
       end.
Proof.
  cbn [try_moves]. unfold bind at 1. rewrite stmt_play_eq.
  destruct (fires e); [reflexivity|].
  unfold bind at 1. destruct (rec (played move e)) as [e2 [r| |]]; try reflexivity.
  unfold bind at 1. rewrite stmt_undo_eq.
  destruct (fires e2); [reflexivity|].
  destruct (negb (fst r)); [|reflexivity].
  unfold bind at 1. rewrite stmt_update_eq.
  destruct (fires (undone move e2)); [reflexivity|].
  apply store_result_eq.
Qed.

Lemma try_moves_nil rec depth e :
  try_moves rec depth [] e =
  if fires e then (e, Raise TimeoutError) else (stored false None e, Ret (false, None)).
Proof. apply store_result_eq. Qed.

(** One call, up to its loop. *)
Lemma negamax_boolean_S fuel depth e :
  negamax_boolean (S fuel) depth e =
  if fires e then (e, Raise TimeoutError)
  else match TranspositionTable.lookup (e_tt e) (code (e_board e)) with
       | Some r => (probed e, Ret r)
       | None =>
           if fires (probed e) then (probed e, Raise TimeoutError)
           else if fires (generated (probed e))
                then (generated (probed e), Raise TimeoutError)
                else try_moves (negamax_boolean fuel (depth + 1)) depth (ordered e)
                       (probed (generated (probed e)))
       end.
Proof.
  cbn [negamax_boolean]. unfold bind at 1. rewrite stmt_lookup_eq.
  destruct (fires e); [reflexivity|].
  destruct (TranspositionTable.lookup _ _); [reflexivity|].
  unfold bind at 1. rewrite stmt_generate_eq.
  destruct (fires (probed e)); [reflexivity|].
  unfold bind at 1. rewrite stmt_sort_eq.
  destruct (fires (generated (probed e))); reflexivity.
Qed.

End StepFacts.

(** ** The order of moves *)

Section Ordering.
  Implicit Types (key : Point → Z) (l : list Point).

Lemma insert_desc_In key x l y :
  In y (insert_desc key x l) ↔ y = x ∨ In y l.
Proof.
  induction l as [|z l IH]; simpl.
  - intuition.
  - destruct (key z <=? key x); simpl; [intuition|].
    rewrite IH. intuition.
Qed.

(** Sorting neither adds nor drops a move. *)
Lemma sort_desc_In key l y : In y (sort_desc key l) ↔ In y l.
Proof.
  induction l as [|x l IH]; simpl; [reflexivity|].
  rewrite insert_desc_In, IH. intuition.
Qed.
End Ordering.

(** ** A call that returns has put the board back *)

(** Takes the head of an equation on a run of the loop or of a call apart:
    an alarm test, the outcome of the recursive call, the win test. *)
Ltac run_step Hrun :=
  match type of Hrun with
  | (if fires ?e then _ else _) = _ =>
      let F := fresh "Hfire" in destruct (fires e) eqn:F
  | (match ?rec ?e with _ => _ end) = _ =>
      let e2 := fresh "e2" in
      let r := fresh "r" in
      let x := fresh "x" in
      let Hrec := fresh "Hcall" in
      destruct (rec e) as [e2 [r|x|]] eqn:Hrec
  | (if negb ?b then _ else _) = _ =>
      let W := fresh "Hwin" in destruct (negb b) eqn:W
  | (match TranspositionTable.lookup ?t ?c with _ => _ end) = _ =>
      let r := fresh "hit" in
      let L := fresh "Hlookup" in
      destruct (TranspositionTable.lookup t c) as [r|] eqn:L
  end.

Ltac run_done Hrun :=
  match type of Hrun with
  | (_, _) = (_, _) => first [discriminate Hrun | injection Hrun as <- <-]
  end.

Section Restores.
  Context {Board Code : Type} `{BoardOps Board Code}.
  Implicit Types (e : Env Board Code) (move m : Point) (depth : Z).
  Hypothesis Hundo : undo_restores.

Lemma try_moves_restores rec depth
  (Hrec : ∀ e e' r, rec e = (e', Ret r) → e_board e' = e_board e) moves :
  ∀ e e' r,
    (∀ m, In m moves → In m (legal (e_board e))) →
    try_moves rec depth moves e = (e', Ret r) →
    e_board e' = e_board e.
Proof.
  induction moves as [|move rest IH]; intros e e' r Hin Hrun.
  - rewrite try_moves_nil in Hrun. run_step Hrun; run_done Hrun. reflexivity.
  - rewrite try_moves_cons in Hrun.
    run_step Hrun; [run_done Hrun|].
    run_step Hrun; [|run_done Hrun|run_done Hrun].
    apply Hrec in Hcall. simpl in Hcall.
    assert (Hback : e_board (undone move e2) = e_board e).
    { simpl. rewrite Hcall. apply Hundo, Hin. now left. }
    run_step Hrun; [run_done Hrun|].
    run_step Hrun.
    + run_step Hrun; [run_done Hrun|].
      run_step Hrun; run_done Hrun. exact Hback.
    + apply IH in Hrun; [congruence|].
      intros m Hm. rewrite Hback. apply Hin. now right.
Qed.

Lemma negamax_boolean_restores fuel :
  ∀ depth e e' r,
    negamax_boolean fuel depth e = (e', Ret r) → e_board e' = e_board e.
Proof.
  induction fuel as [|fuel IH]; intros depth e e' r Hrun; [discriminate|].
  rewrite negamax_boolean_S in Hrun.
  run_step Hrun; [run_done Hrun|].
  run_step Hrun; [run_done Hrun; reflexivity|].
  run_step Hrun; [run_done Hrun|].
  run_step Hrun; [run_done Hrun|].
  apply try_moves_restores in Hrun; [exact Hrun|apply IH|].
  intros m Hm. apply sort_desc_In in Hm. exact Hm.
Qed.
End Restores.

(** ** Wins and losses *)

Section Verdicts.
  Context {Board Code : Type} `{BoardOps Board Code}.
  Implicit Types (b : Board) (m : Point).

(** No position is both won and lost. *)
Lemma Win_not_Loss : ∀ b, Win b → Loss b → False.
Proof.
  fix IH 2. intros b Hw Hl.
  destruct Hw as [b m Hin Hloss]. destruct Hl as [b Hall].
  specialize (Hall m Hin).
  destruct Hloss as [b' Hall']. destruct Hall as [b' m' Hin' Hloss'].
  exact (IH _ (Hall' m' Hin') Hloss').
Qed.

Section Ranked.
  Variable rank : Board → nat.
  Hypothesis Hrank : game_ends rank.

Lemma rank_zero_no_move b : rank b = O → legal b = [].
Proof.
  intros Hz. destruct (legal b) as [|m l] eqn:Hl; [reflexivity|].
  assert (In m (legal b)) as Hin by (rewrite Hl; now left).
  apply Hrank in Hin. lia.
Qed.

(** The plain search is right at any depth the rank allows. *)
Lemma exhaustive_verdict n :
  ∀ b, (rank b ≤ n)%nat →
    (exhaustive n b = true → Win b) ∧ (exhaustive n b = false → Loss b).
Proof.
  induction n as [|n IH]; intros b Hle.
  - split; [discriminate|]. intros _. constructor.
    rewrite rank_zero_no_move by lia. intros m [].
  - simpl. split; intros Hex.
    + apply existsb_exists in Hex as (m & Hin & Hneg).
      apply negb_true_iff in Hneg.
      apply Win_move with m; [exact Hin|].
      apply IH; [|exact Hneg]. apply Hrank in Hin. lia.
    + constructor. intros m Hin.
      assert (negb (exhaustive n (next b m)) = false) as Hneg.
      { destruct (negb (exhaustive n (next b m))) eqn:E; [|reflexivity].
        rewrite <- Hex. symmetry. apply existsb_exists. eauto. }
      apply negb_false_iff in Hneg.
      apply IH; [|exact Hneg]. apply Hrank in Hin. lia.
Qed.

Lemma exhaustive_Win n b : (rank b ≤ n)%nat → (exhaustive n b = true ↔ Win b).
Proof.
  intros Hle. destruct (exhaustive_verdict n b Hle) as [Hw Hl].
  split; [exact Hw|]. intros HW.
  destruct (exhaustive n b); [reflexivity|].
  exfalso. apply (Win_not_Loss b HW). now apply Hl.
Qed.

(** Every position is won or lost, and lost is not won. *)
Lemma Loss_iff_not_Win b : Loss b ↔ ¬ Win b.
Proof.
  split.
  - intros Hl Hw. exact (Win_not_Loss b Hw Hl).
  - intros Hn. destruct (exhaustive_verdict (rank b) b (le_n _)) as [Hw Hl].
    destruct (exhaustive (rank b) b); [exfalso; now apply Hn, Hw|now apply Hl].
Qed.

(** The spec's reading of a forced win. *)
Lemma Win_unfold b : Win b ↔ ∃ m, In m (legal b) ∧ ¬ Win (next b m).
Proof.
  split.
  - intros [b' m Hin Hloss]. exists m. split; [exact Hin|].
    now apply Loss_iff_not_Win.
  - intros (m & Hin & Hn). apply Win_move with m; [exact Hin|].
    now apply Loss_iff_not_Win.
Qed.
End Ranked.
End Verdicts.

(** ** The table stays sound and the answer is right *)

Section Sound.
  Context {Board Code : Type} `{BoardOps Board Code}.
  Implicit Types (e : Env Board Code) (b : Board) (move m : Point) (depth : Z).
  Hypothesis Hundo : undo_restores.
  Hypothesis Hinj : codes_distinct.

Lemma tt_sound_store t b result mv :
  tt_sound t → result_ok b (result, mv) →
  tt_sound (TranspositionTable.store t (code b) result mv).
Proof.
  intros Ht Hok b' r'. unfold TranspositionTable.store, TranspositionTable.lookup.
  unfold TranspositionTable.t in *.
  destruct (decide (code b = code b')) as [Heq|Hne].
  - rewrite Heq, lookup_insert_eq. intros [= <-].
    apply Hinj in Heq. now subst b'.
  - rewrite lookup_insert_ne by exact Hne. apply Ht.
Qed.

Lemma tt_sound_empty : tt_sound (TranspositionTable.init (Code:=Code)).
Proof.
  intros b r. unfold TranspositionTable.lookup, TranspositionTable.init.
  unfold TranspositionTable.t. rewrite lookup_empty. discriminate.
Qed.

(** A sound answer [true] for the position after [m] settles [m] as a
    move into a won position. *)
Lemma result_ok_true b r : result_ok b r → fst r = true → Win b.
Proof.
  destruct r as [[|] [m|]]; simpl; try tauto; try discriminate.
  intros [Hin Hloss] _. now apply Win_move with m.
Qed.

Lemma result_ok_false b r : result_ok b r → fst r = false → Loss b.
Proof. destruct r as [[|] [m|]]; simpl; try tauto; discriminate. Qed.

Lemma try_moves_sound rec depth
  (Hrec : ∀ e e' o, tt_sound (e_tt e) → rec e = (e', o) →
            tt_sound (e_tt e') ∧
            ∀ r, o = Ret r → e_board e' = e_board e ∧ result_ok (e_board e) r)
  b moves :
  ∀ e e' o,
    e_board e = b →
    tt_sound (e_tt e) →
    (∀ m, In m moves → In m (legal b)) →
    (∀ m, In m (legal b) → In m moves ∨ Win (next b m)) →
    try_moves rec depth moves e = (e', o) →
    tt_sound (e_tt e') ∧ ∀ r, o = Ret r → result_ok b r.
Proof.
  induction moves as [|move rest IH]; intros e e' o Hb Ht Hin Hdone Hrun.
  - rewrite try_moves_nil in Hrun. run_step Hrun; injection Hrun as <- <-.
    { split; [exact Ht|discriminate]. }
    assert (Loss b) as Hl.
    { constructor. intros m Hm. destruct (Hdone m Hm) as [[]|Hw]. exact Hw. }
    split; [|intros r [= <-]; exact Hl]. simpl. rewrite Hb. now apply tt_sound_store.
  - rewrite try_moves_cons in Hrun.
    run_step Hrun; [injection Hrun as <- <-; split; [exact Ht|discriminate]|].
    run_step Hrun; apply Hrec in Hcall as [Ht2 Hret]; try exact Ht;
      [|injection Hrun as <- <-; split; [exact Ht2|discriminate]..].
    destruct (Hret _ eq_refl) as [Hb2 Hok2].
    simpl in Hb2, Hok2. rewrite Hb in Hb2, Hok2.
    assert (Hlegal : In move (legal b)) by (apply Hin; now left).
    assert (Hback : e_board (undone move e2) = b).
    { simpl. rewrite Hb2. now apply Hundo. }
    run_step Hrun; [injection Hrun as <- <-; split; [exact Ht2|discriminate]|].
    run_step Hrun.
    + run_step Hrun; [injection Hrun as <- <-; split; [exact Ht2|discriminate]|].
      run_step Hrun; injection Hrun as <- <-; [split; [exact Ht2|discriminate]|].
      apply negb_true_iff in Hwin.
      assert (result_ok b (true, Some move)) as Hok.
      { simpl. split; [exact Hlegal|]. now apply result_ok_false with r. }
      split; [|intros r' [= <-]; exact Hok].
      simpl. rewrite Hb2, Hundo by exact Hlegal. now apply tt_sound_store.
    + apply negb_false_iff in Hwin.
      apply IH in Hrun; [exact Hrun|exact Hback|exact Ht2| |].
      * intros m Hm. apply Hin. now right.
      * intros m Hm. destruct (Hdone m Hm) as [[<-|Hm']|Hw]; [|now left|now right].
        right. now apply result_ok_true with r.
Qed.

(** Whatever the outcome of a call, the table is sound after it if it was
    before; when the call returns, the board is back and the answer is
    right. *)
Lemma negamax_boolean_sound fuel :
  ∀ depth e e' o,
    tt_sound (e_tt e) →
    negamax_boolean fuel depth e = (e', o) →
    tt_sound (e_tt e') ∧
    ∀ r, o = Ret r → e_board e' = e_board e ∧ result_ok (e_board e) r.
Proof.
  induction fuel as [|fuel IH]; intros depth e e' o Ht Hrun.
  { injection Hrun as <- <-. split; [exact Ht|discriminate]. }
  assert (∀ r, o = Ret r → e_board e' = e_board e) as Hb.
  { intros r ->. now apply negamax_boolean_restores in Hrun. }
  rewrite negamax_boolean_S in Hrun.
  run_step Hrun; [injection Hrun as <- <-; split; [exact Ht|discriminate]|].
  run_step Hrun.
  { injection Hrun as <- <-. split; [exact Ht|].
    intros r [= <-]. split; [reflexivity|now apply Ht]. }
  run_step Hrun; [injection Hrun as <- <-; split; [exact Ht|discriminate]|].
  run_step Hrun; [injection Hrun as <- <-; split; [exact Ht|discriminate]|].
  apply try_moves_sound with (b := e_board e) in Hrun;
    [|apply IH|reflexivity|exact Ht| |].
  - destruct Hrun as [Ht' Hok]. split; [exact Ht'|].
    intros r Hr. split; [now apply Hb with r|now apply Hok].
  - intros m Hm. now apply sort_desc_In in Hm.
  - intros m Hm. left. now apply sort_desc_In.
Qed.
End Sound.

(** ** Without an alarm nothing is raised; with one, only [TimeoutError] *)

Section Alarm.
  Context {Board Code : Type} `{BoardOps Board Code}.
  Implicit Types (e : Env Board Code) (move m : Point) (depth : Z).

Lemma unarmed_fires e : e_alarm e = None → fires e = false.
Proof. unfold fires. now intros ->. Qed.

Lemma try_moves_unarmed rec depth
  (Hrec : ∀ e e' o, e_alarm e = None → rec e = (e', o) →
            e_alarm e' = None ∧ ∀ x, o ≠ Raise x) moves :
  ∀ e e' o,
    e_alarm e = None →
    try_moves rec depth moves e = (e', o) →
    e_alarm e' = None ∧ ∀ x, o ≠ Raise x.
Proof.
  induction moves as [|move rest IH]; intros e e' o Ha Hrun.
  - rewrite try_moves_nil, unarmed_fires in Hrun by exact Ha.
    run_done Hrun. simpl. rewrite Ha. split; [reflexivity|discriminate].
  - rewrite try_moves_cons, unarmed_fires in Hrun by exact Ha.
    cbv iota in Hrun.
    run_step Hrun; apply Hrec in Hcall as [Ha2 Hx]; try (simpl; now rewrite Ha).
    + rewrite unarmed_fires in Hrun by exact Ha2. cbv iota in Hrun.
      run_step Hrun.
      * rewrite !unarmed_fires in Hrun by (simpl; now rewrite ?Ha2).
        cbv iota in Hrun. run_done Hrun. simpl. rewrite Ha2. split; [reflexivity|discriminate].
      * apply IH in Hrun; [exact Hrun|]. simpl. now rewrite Ha2.
    + now destruct (Hx x).
    + run_done Hrun. split; [exact Ha2|discriminate].
Qed.

Lemma negamax_boolean_unarmed fuel :
  ∀ depth e e' o,
    e_alarm e = None →
    negamax_boolean fuel depth e = (e', o) →
    e_alarm e' = None ∧ ∀ x, o ≠ Raise x.
Proof.
  induction fuel as [|fuel IH]; intros depth e e' o Ha Hrun.
  - injection Hrun as <- <-. split; [exact Ha|discriminate].
  - rewrite negamax_boolean_S, unarmed_fires in Hrun by exact Ha.
    cbv iota in Hrun.
    assert (e_alarm (probed e) = None) as Ha1 by (simpl; now rewrite Ha).
    run_step Hrun.
    + run_done Hrun. split; [exact Ha1|discriminate].
    + rewrite !unarmed_fires in Hrun by (simpl; now rewrite ?Ha).
      cbv iota in Hrun.
      apply try_moves_unarmed in Hrun; [exact Hrun|apply IH|].
      simpl. now rewrite Ha.
Qed.

Lemma try_moves_raises rec depth
  (Hrec : ∀ e e' x, rec e = (e', Raise x) → x = TimeoutError) moves :
  ∀ e e' x, try_moves rec depth moves e = (e', Raise x) → x = TimeoutError.
Proof.
  induction moves as [|move rest IH]; intros e e' x Hrun.
  - rewrite try_moves_nil in Hrun. run_step Hrun; congruence.
  - rewrite try_moves_cons in Hrun.
    run_step Hrun; [congruence|].
    run_step Hrun; [|apply Hrec in Hcall; congruence|discriminate].
    run_step Hrun; [congruence|].
    run_step Hrun; [|now apply IH in Hrun].
    run_step Hrun; [congruence|].
    run_step Hrun; congruence.
Qed.

(** [TimeoutError] is the one exception the solver can raise. *)
Lemma negamax_boolean_raises fuel :
  ∀ depth e e' x, negamax_boolean fuel depth e = (e', Raise x) → x = TimeoutError.
Proof.
  induction fuel as [|fuel IH]; intros depth e e' x Hrun; [discriminate|].
  rewrite negamax_boolean_S in Hrun.
  run_step Hrun; [congruence|].
  run_step Hrun; [discriminate|].
  run_step Hrun; [congruence|].
  run_step Hrun; [congruence|].
  apply try_moves_raises in Hrun; [exact Hrun|apply IH].
Qed.
End Alarm.

(** ** Fuel beyond the rank is never used up *)

Section Fuel.
  Context {Board Code : Type} `{BoardOps Board Code}.
  Implicit Types (e : Env Board Code) (b : Board) (move m : Point) (depth : Z).
  Hypothesis Hundo : undo_restores.
  Variable rank : Board → nat.
  Hypothesis Hrank : game_ends rank.

Lemma try_moves_enough rec depth b
  (Hback : ∀ e e' r, rec e = (e', Ret r) → e_board e' = e_board e)
  (Hrec : ∀ e e', (rank (e_board e) < rank b)%nat → rec e ≠ (e', OutOfFuel)) moves :
  ∀ e e',
    e_board e = b →
    (∀ m, In m moves → In m (legal b)) →
    try_moves rec depth moves e ≠ (e', OutOfFuel).
Proof.
  induction moves as [|move rest IH]; intros e e' Hb Hin Hrun.
  - rewrite try_moves_nil in Hrun. run_step Hrun; discriminate.
  - rewrite try_moves_cons in Hrun.
    assert (Hlegal : In move (legal b)) by (apply Hin; now left).
    run_step Hrun; [discriminate|].
    run_step Hrun; [|discriminate|].
    + apply Hback in Hcall. simpl in Hcall. rewrite Hb in Hcall.
      run_step Hrun; [discriminate|].
      run_step Hrun.
      * run_step Hrun; [discriminate|]. run_step Hrun; discriminate.
      * apply IH in Hrun; [exact Hrun| |].
        -- simpl. rewrite Hcall. now apply Hundo.
        -- intros m Hm. apply Hin. now right.
    + injection Hrun as <-. apply Hrec in Hcall; [exact Hcall|].
      simpl. rewrite Hb. now apply Hrank.
Qed.

Lemma negamax_boolean_enough fuel :
  ∀ depth e e',
    (rank (e_board e) < fuel)%nat →
    negamax_boolean fuel depth e ≠ (e', OutOfFuel).
Proof.
  induction fuel as [|fuel IH]; intros depth e e' Hlt Hrun; [lia|].
  rewrite negamax_boolean_S in Hrun.
  run_step Hrun; [discriminate|].
  run_step Hrun; [discriminate|].
  run_step Hrun; [discriminate|].
  run_step Hrun; [discriminate|].
  apply try_moves_enough with (b := e_board e) in Hrun; [exact Hrun| | |reflexivity|].
  - intros e1 e1' r. now apply negamax_boolean_restores.
  - intros e1 e1' Hlt1. apply IH. lia.
  - intros m Hm. now apply sort_desc_In in Hm.
Qed.

(** Without an alarm and with fuel beyond the rank, the call returns. *)
Lemma negamax_boolean_returns fuel depth e :
  e_alarm e = None →
  (rank (e_board e) < fuel)%nat →
  ∃ e' r, negamax_boolean fuel depth e = (e', Ret r).
Proof.
  intros Ha Hlt.
  destruct (negamax_boolean fuel depth e) as [e' [r|x|]] eqn:Hrun.
  - eauto.
  - apply negamax_boolean_unarmed in Hrun as [_ Hx]; [now destruct (Hx x)|exact Ha].
  - now apply negamax_boolean_enough in Hrun.
Qed.
End Fuel.

(** ** The history table only grows *)

Section History.
  Implicit Types (h : HistoryHeuristicTable.t) (m move : Point) (depth : Z).

Lemma history_lookup_unseen h m : h !! m = None → HistoryHeuristicTable.lookup h m = 0.
Proof. unfold HistoryHeuristicTable.lookup. now intros ->. Qed.

Lemma history_update_same h move depth :
  HistoryHeuristicTable.lookup (HistoryHeuristicTable.update h move depth) move
  = HistoryHeuristicTable.lookup h move + depth ^ 2.
Proof.
  unfold HistoryHeuristicTable.lookup, HistoryHeuristicTable.update.
  unfold HistoryHeuristicTable.t in *.
  destruct (h !! move) as [v|] eqn:Hv; rewrite lookup_insert_eq.
  - destruct (Z.eqb_spec (v + depth ^ 2) 0), (Z.eqb_spec v 0); lia.
  - destruct (Z.eqb_spec (depth ^ 2) 0); lia.
Qed.

Lemma history_update_other h move depth m :
  move ≠ m →
  HistoryHeuristicTable.update h move depth !! m = h !! m.
Proof.
  intros Hne. unfold HistoryHeuristicTable.update.
  unfold HistoryHeuristicTable.t in *.
  destruct (h !! move); now rewrite lookup_insert_ne.
Qed.

Lemma history_update_keeps h move depth m :
  is_Some (h !! m) → is_Some (HistoryHeuristicTable.update h move depth !! m).
Proof.
  intros Hs. destruct (decide (move = m)) as [->|Hne].
  - unfold HistoryHeuristicTable.update. unfold HistoryHeuristicTable.t in *.
    destruct (h !! m); rewrite lookup_insert_eq; eauto.
  - now rewrite history_update_other.
Qed.

Lemma history_le_refl h : history_le h h.
Proof. intros m. split; [tauto|lia]. Qed.

Lemma history_le_trans h1 h2 h3 : history_le h1 h2 → history_le h2 h3 → history_le h1 h3.
Proof.
  intros H12 H23 m. destruct (H12 m) as [Ha Hb], (H23 m) as [Hc Hd].
  split; [tauto|lia].
Qed.

Lemma history_le_update h move depth :
  history_le h (HistoryHeuristicTable.update h move depth).
Proof.
  intros m. split; [apply history_update_keeps|].
  destruct (decide (move = m)) as [->|Hne].
  - rewrite history_update_same.
    assert (0 ≤ depth ^ 2) by (apply Z.pow_even_nonneg; now exists 1). lia.
  - unfold HistoryHeuristicTable.lookup at 2.
    rewrite history_update_other by exact Hne. reflexivity.
Qed.
End History.

Section Tables.
  Context {Board Code : Type} `{BoardOps Board Code}.
  Implicit Types (e : Env Board Code) (move m : Point) (depth : Z).

Lemma try_moves_history rec depth
  (Hrec : ∀ e e' o, rec e = (e', o) → history_le (e_history e) (e_history e')) moves :
  ∀ e e' o,
    try_moves rec depth moves e = (e', o) →
    history_le (e_history e) (e_history e').
Proof.
  induction moves as [|move rest IH]; intros e e' o Hrun.
  - rewrite try_moves_nil in Hrun.
    run_step Hrun; injection Hrun as <- <-; apply history_le_refl.
  - rewrite try_moves_cons in Hrun.
    run_step Hrun; [injection Hrun as <- <-; apply history_le_refl|].
    run_step Hrun; apply Hrec in Hcall; simpl in Hcall;
      [|now injection Hrun as <- <-|now injection Hrun as <- <-].
    run_step Hrun; [now injection Hrun as <- <-|].
    run_step Hrun; [|apply IH in Hrun; eapply history_le_trans; eauto].
    assert (history_le (e_history e)
              (HistoryHeuristicTable.update (e_history e2) move depth)) as Hup.
    { eapply history_le_trans; [exact Hcall|apply history_le_update]. }
    run_step Hrun; [now injection Hrun as <- <-|].
    run_step Hrun; injection Hrun as <- <-; exact Hup.
Qed.

(** Whatever the outcome, a call removes no entry of the history table and
    lowers no score. *)
Lemma negamax_boolean_history fuel :
  ∀ depth e e' o,
    negamax_boolean fuel depth e = (e', o) →
    history_le (e_history e) (e_history e').
Proof.
  induction fuel as [|fuel IH]; intros depth e e' o Hrun.
  - injection Hrun as <- <-. apply history_le_refl.
  - rewrite negamax_boolean_S in Hrun.
    run_step Hrun; [injection Hrun as <- <-; apply history_le_refl|].
    run_step Hrun; [injection Hrun as <- <-; apply history_le_refl|].
    run_step Hrun; [injection Hrun as <- <-; apply history_le_refl|].
    run_step Hrun; [injection Hrun as <- <-; apply history_le_refl|].
    apply try_moves_history in Hrun; [exact Hrun|apply IH].
Qed.

(** *** The log *)

Lemma updates_stored_cons (ev : event Code) l :
  updates_stored l → settled l → updates_stored (ev :: l).
Proof. intros Hl Hs. split; [exact Hl|]. now destruct l as [|[] l]. Qed.

Lemma try_moves_log rec depth
  (Hrec : ∀ e e' o, log_ok e → rec e = (e', o) →
            updates_stored (e_log e') ∧ (∀ r, o = Ret r → settled (e_log e'))) moves :
  ∀ e e' o,
    log_ok e →
    try_moves rec depth moves e = (e', o) →
    updates_stored (e_log e') ∧ (∀ r, o = Ret r → settled (e_log e')).
Proof.
  induction moves as [|move rest IH]; intros e e' o [Hl Hs] Hrun.
  - rewrite try_moves_nil in Hrun. run_step Hrun; injection Hrun as <- <-.
    + split; [exact Hl|discriminate].
    + split; [now apply updates_stored_cons|intros; exact I].
  - rewrite try_moves_cons in Hrun.
    run_step Hrun; [injection Hrun as <- <-; split; [exact Hl|discriminate]|].
    assert (log_ok (played move e)) as Hp.
    { split; [now apply updates_stored_cons|exact I]. }
    run_step Hrun; apply Hrec in Hcall as [Hl2 Hs2]; try exact Hp;
      [|injection Hrun as <- <-; split; [exact Hl2|discriminate]
       |injection Hrun as <- <-; split; [exact Hl2|discriminate]].
    specialize (Hs2 _ eq_refl).
    run_step Hrun; [injection Hrun as <- <-; split; [exact Hl2|discriminate]|].
    assert (log_ok (undone move e2)) as Hu.
    { split; [now apply updates_stored_cons|exact I]. }
    run_step Hrun; [|now apply IH in Hrun].
    destruct Hu as [Hlu Hsu].
    run_step Hrun; [injection Hrun as <- <-; split; [exact Hlu|discriminate]|].
    assert (updates_stored (e_log (updated move depth (undone move e2)))) as Hlp.
    { now apply updates_stored_cons. }
    run_step Hrun; injection Hrun as <- <-; [split; [exact Hlp|discriminate]|].
    split; [|intros; exact I].
    split; [exact Hlp|]. simpl. eauto.
Qed.

Lemma negamax_boolean_log fuel :
  ∀ depth e e' o,
    log_ok e →
    negamax_boolean fuel depth e = (e', o) →
    updates_stored (e_log e') ∧ (∀ r, o = Ret r → settled (e_log e')).
Proof.
  induction fuel as [|fuel IH]; intros depth e e' o [Hl Hs] Hrun.
  - injection Hrun as <- <-. split; [exact Hl|discriminate].
  - rewrite negamax_boolean_S in Hrun.
    run_step Hrun; [injection Hrun as <- <-; split; [exact Hl|discriminate]|].
    run_step Hrun; [injection Hrun as <- <-; split; [exact Hl|intros; exact Hs]|].
    run_step Hrun; [injection Hrun as <- <-; split; [exact Hl|discriminate]|].
    assert (log_ok (generated (probed e))) as [Hlg Hsg].
    { split; [now apply updates_stored_cons|exact I]. }
    run_step Hrun; [injection Hrun as <- <-; split; [exact Hlg|discriminate]|].
    apply try_moves_log in Hrun; [exact Hrun|apply IH|]. now split.
Qed.

(** *** An update still waiting for its store *)

Lemma try_moves_unsettled rec depth
  (Hrec : ∀ e e' o, settled (e_log e) → rec e = (e', o) →
            settled (e_log e') ∨ o = Raise TimeoutError) moves :
  ∀ e e' o,
    try_moves rec depth moves e = (e', o) →
    settled (e_log e') ∨ o = Raise TimeoutError.
Proof.
  induction moves as [|move rest IH]; intros e e' o Hrun.
  - rewrite try_moves_nil in Hrun.
    run_step Hrun; injection Hrun as <- <-; [now right|left; exact I].
  - rewrite try_moves_cons in Hrun.
    run_step Hrun; [injection Hrun as <- <-; now right|].
    run_step Hrun; apply Hrec in Hcall; try exact I;
      [|injection Hrun as <- <-; exact Hcall|injection Hrun as <- <-; exact Hcall].
    run_step Hrun; [injection Hrun as <- <-; now right|].
    run_step Hrun; [|now apply IH in Hrun].
    run_step Hrun; [injection Hrun as <- <-; now right|].
    run_step Hrun; injection Hrun as <- <-; [now right|left; exact I].
Qed.

(** Only an interrupted call leaves an update as the newest event. *)
Lemma negamax_boolean_unsettled fuel :
  ∀ depth e e' o,
    settled (e_log e) →
    negamax_boolean fuel depth e = (e', o) →
    settled (e_log e') ∨ o = Raise TimeoutError.
Proof.
  induction fuel as [|fuel IH]; intros depth e e' o Hs Hrun.
  - injection Hrun as <- <-. now left.
  - rewrite negamax_boolean_S in Hrun.
    run_step Hrun; [injection Hrun as <- <-; now right|].
    run_step Hrun; [injection Hrun as <- <-; left; exact Hs|].
    run_step Hrun; [injection Hrun as <- <-; now right|].
    run_step Hrun; [injection Hrun as <- <-; now right|].
    apply try_moves_unsettled in Hrun; [exact Hrun|].
    intros e1 e1' o1 Hs1 Hrun1. eapply IH; eassumption.
Qed.

(** *** The answer is in the table *)

Lemma try_moves_memo rec depth moves :
  ∀ e e' r,
    try_moves rec depth moves e = (e', Ret r) →
    TranspositionTable.lookup (e_tt e') (code (e_board e')) = Some r.
Proof.
  induction moves as [|move rest IH]; intros e e' r Hrun.
  - rewrite try_moves_nil in Hrun. run_step Hrun; run_done Hrun.
    simpl. unfold TranspositionTable.lookup, TranspositionTable.store.
    unfold TranspositionTable.t in *. apply lookup_insert_eq.
  - rewrite try_moves_cons in Hrun.
    run_step Hrun; [run_done Hrun|].
    run_step Hrun; [|run_done Hrun|run_done Hrun].
    run_step Hrun; [run_done Hrun|].
    run_step Hrun; [|now apply IH in Hrun].
    run_step Hrun; [run_done Hrun|].
    run_step Hrun; run_done Hrun.
    simpl. unfold TranspositionTable.lookup, TranspositionTable.store.
    unfold TranspositionTable.t in *. apply lookup_insert_eq.
Qed.

Lemma negamax_boolean_memo fuel depth e e' r :
  negamax_boolean fuel depth e = (e', Ret r) →
  TranspositionTable.lookup (e_tt e') (code (e_board e')) = Some r.
Proof.
  destruct fuel as [|fuel]; intros Hrun; [discriminate|].
  rewrite negamax_boolean_S in Hrun.
  run_step Hrun; [run_done Hrun|].
  run_step Hrun; [run_done Hrun; exact Hlookup|].
  run_step Hrun; [run_done Hrun|].
  run_step Hrun; [run_done Hrun|].
  now apply try_moves_memo in Hrun.
Qed.
End Tables.

(** ** The pile obeys the laws of a board *)

Section PileLaws.
  Implicit Types (p : Pile.t) (m : Point).

Lemma Pile_legal_cases p m :
  In m (legal p) →
  (m = 1 ∧ (1 ≤ Pile.tokens p)%nat) ∨ (m = 2 ∧ (2 ≤ Pile.tokens p)%nat).
Proof.
  unfold legal. simpl. destruct p as [[|[|n]] bl]; simpl.
  - intros [].
  - intros [<-|[]]. left. split; [reflexivity|lia].
  - intros [<-|[<-|[]]]; [left|right]; split; try reflexivity; lia.
Qed.

Lemma Pile_next p m :
  In m (legal p) →
  next p m = Pile.mk (Pile.tokens p - Pile.takes m) (negb (Pile.black p)).
Proof.
  intros Hin. apply Pile_legal_cases in Hin.
  unfold next. simpl. unfold Pile.accepts.
  destruct p as [n bl]; simpl in *.
  destruct Hin as [[-> Hn]|[-> Hn]]; destruct n as [|[|n]]; try lia;
    destruct bl; reflexivity.
Qed.

Lemma Pile_accepted : enumerated_moves_accepted (Board := Pile.t).
Proof.
  intros p m Hin. apply Pile_legal_cases in Hin.
  simpl. unfold Pile.accepts.
  destruct p as [n bl]; simpl in *.
  destruct Hin as [[-> Hn]|[-> Hn]]; destruct n as [|[|n]]; try lia;
    destruct bl; reflexivity.
Qed.

Lemma Pile_undo : undo_restores (Board := Pile.t).
Proof.
  intros p m Hin. rewrite Pile_next by exact Hin.
  apply Pile_legal_cases in Hin. destruct p as [n bl]; simpl in *.
  rewrite negb_involutive. f_equal.
  destruct Hin as [[-> Hn]|[-> Hn]]; unfold Pile.takes; simpl; lia.
Qed.

Lemma Pile_ends : game_ends Pile.rank.
Proof.
  intros p m Hin. rewrite Pile_next by exact Hin.
  apply Pile_legal_cases in Hin. unfold Pile.rank. simpl.
  destruct Hin as [[-> Hn]|[-> Hn]]; unfold Pile.takes; simpl; lia.
Qed.

Lemma Pile_codes : codes_distinct (Board := Pile.t).
Proof. intros [n1 b1] [n2 b2]. simpl. now intros [= -> ->]. Qed.

Lemma Pile_copy : copy_faithful (Board := Pile.t).
Proof. intros p. reflexivity. Qed.

Lemma Pile_turn : turn_passes (Board := Pile.t).
Proof.
  intros [n bl] m c Hlegal. simpl in *. rewrite Hlegal. simpl.
  unfold Pile.accepts in Hlegal. apply andb_true_iff in Hlegal as [_ Hc].
  destruct c; simpl in *; try discriminate.
Qed.

Lemma Pile_changes : legal_play_changes (Board := Pile.t).
Proof.
  intros p m c Hl. simpl in *. rewrite Hl. simpl.
  unfold Pile.accepts in Hl.
  apply andb_true_iff in Hl as [Hl _]. apply andb_true_iff in Hl as [Hm Hle].
  apply Nat.leb_le in Hle. intros [= Ht _].
  apply orb_true_iff in Hm as [Hm|Hm]; apply Z.eqb_eq in Hm; subst m;
    unfold Pile.takes in *; simpl in *; lia.
Qed.
End PileLaws.

(** * The solver's contract *)

Section Contract.
  Context {Board Code : Type} `{BoardOps Board Code}.
  Implicit Types (e : Env Board Code) (b : Board) (move m : Point) (depth : Z).

(** C1.  On a board that obeys its laws (moves are taken back by
    [undoMove], codes identify positions, every game ends), with a sound
    table, no alarm and fuel beyond the rank, [negamax_boolean] returns;
    it returns [(true, m)] for a legal move [m] exactly when the player to
    move has a forced win, that is when some legal move leads to a position
    that is not a win for the opponent; its verdict is that of the plain
    exhaustive search, which has no table and tries every move; and it
    leaves the board as it was and the table sound, so that the same holds
    of the next call. *)
Theorem negamax_boolean_forced_win (rank : Board → nat) fuel depth e :
  undo_restores → codes_distinct → game_ends rank →
  tt_sound (e_tt e) →
  e_alarm e = None →
  (rank (e_board e) < fuel)%nat →
  ∃ e' r,
    negamax_boolean fuel depth e = (e', Ret r) ∧
    ((∃ m, r = (true, Some m) ∧ In m (legal (e_board e))) ↔ Win (e_board e)) ∧
    (Win (e_board e) ↔
       ∃ m, In m (legal (e_board e)) ∧ ¬ Win (next (e_board e) m)) ∧
    fst r = exhaustive fuel (e_board e) ∧
    e_board e' = e_board e ∧
    tt_sound (e_tt e').
Proof.
  intros Hundo Hinj Hrank Ht Ha Hfuel.
  destruct (negamax_boolean_returns Hundo rank Hrank fuel depth e Ha Hfuel)
    as (e' & r & Hrun).
  exists e', r. split; [exact Hrun|].
  destruct (negamax_boolean_sound Hundo Hinj fuel depth e e' (Ret r) Ht Hrun)
    as [Ht' Hret].
  destruct (Hret r eq_refl) as [Hb Hok].
  pose proof (exhaustive_Win rank Hrank fuel (e_board e)) as Hex.
  cut (fst r = exhaustive fuel (e_board e)); [intros Hv|].
  { split; [|split; [|split; [exact Hv|split; [exact Hb|exact Ht']]]].
    - split.
      + intros (m & -> & Hin). now apply result_ok_true with (true, Some m).
      + intros Hw. destruct r as [[|] [m|]]; simpl in Hok; try tauto.
        * exists m. tauto.
        * exfalso. exact (Win_not_Loss _ Hw Hok).
    - apply (Win_unfold rank Hrank). }
  destruct (fst r) eqn:Hr.
  - symmetry. apply Hex; [lia|]. now apply result_ok_true with r.
  - destruct (exhaustive fuel (e_board e)) eqn:Hx; [|reflexivity].
    exfalso. apply (Win_not_Loss (e_board e)).
    + apply Hex; [lia|reflexivity].
    + now apply result_ok_false with r.
Qed.

(** C4.  At a position without legal moves, a sound table and no alarm,
    [negamax_boolean] returns [(false, None)] and the table then holds
    [(false, None)] under the position's code; when the lookup misses, this
    is the empty loop falling through to the final [store_result], the only
    call made on the table or the board besides the enumeration. *)
Theorem negamax_boolean_no_moves fuel depth e :
  legal (e_board e) = [] →
  tt_sound (e_tt e) →
  e_alarm e = None →
  ∃ e',
    negamax_boolean (S fuel) depth e = (e', Ret (false, None)) ∧
    e_board e' = e_board e ∧
    TranspositionTable.lookup (e_tt e') (code (e_board e)) = Some (false, None) ∧
    (TranspositionTable.lookup (e_tt e) (code (e_board e)) = None →
       e_tt e' = TranspositionTable.store (e_tt e) (code (e_board e)) false None ∧
       e_log e' = EStore (code (e_board e)) false None
                    :: EGenerate (current_player (e_board e)) :: e_log e).
Proof.
  intros Hnone Ht Ha.
  rewrite negamax_boolean_S, unarmed_fires by exact Ha. cbv iota.
  destruct (TranspositionTable.lookup (e_tt e) (code (e_board e))) as [r|] eqn:Hl.
  - pose proof (Ht _ _ Hl) as Hok.
    destruct r as [[|] [m|]]; simpl in Hok; try tauto.
    + rewrite Hnone in Hok. now destruct Hok as [[] _].
    + exists (probed e). split; [reflexivity|]. split; [reflexivity|].
      split; [exact Hl|discriminate].
  - rewrite !unarmed_fires by (simpl; now rewrite ?Ha). cbv iota.
    unfold ordered. rewrite Hnone. simpl sort_desc.
    rewrite try_moves_nil, unarmed_fires by (simpl; now rewrite ?Ha).
    eexists. split; [reflexivity|]. simpl. split; [reflexivity|].
    split; [|intros _; split; reflexivity].
    unfold TranspositionTable.lookup, TranspositionTable.store.
    unfold TranspositionTable.t in *. apply lookup_insert_eq.
Qed.

(** C6.  Once a call has returned [r], a further call on the board and
    tables as that call left them, at any depth and with any fuel, returns
    the same [r] from the table lookup alone: no move is applied or taken
    back, nothing is enumerated, stored or scored, and the board and both
    tables are as before. *)
Theorem negamax_boolean_again fuel depth e e1 r fuel' depth' :
  negamax_boolean fuel depth e = (e1, Ret r) →
  fires e1 = false →
  ∃ e2,
    negamax_boolean (S fuel') depth' e1 = (e2, Ret r) ∧
    TranspositionTable.lookup (e_tt e1) (code (e_board e1)) = Some r ∧
    e_board e2 = e_board e1 ∧ e_tt e2 = e_tt e1 ∧
    e_history e2 = e_history e1 ∧ e_log e2 = e_log e1 ∧
    plays (e_log e2) = plays (e_log e1).
Proof.
  intros Hrun Hquiet. apply negamax_boolean_memo in Hrun.
  exists (probed e1). rewrite negamax_boolean_S, Hquiet, Hrun.
  repeat split; reflexivity.
Qed.

(** C7, as the code has it.  Scores of the history table: an unseen move
    scores 0; [update(move, depth)] adds [depth^2] to the score of [move],
    starting from [depth^2] when [move] was absent, and leaves the other
    entries alone; a call of [negamax_boolean], whatever its outcome,
    removes no entry and lowers no score.  The solver calls
    [update(move, depth)] only directly before
    [store_result(tt, board, True, move)], the statement that stores and
    returns [(True, move)]: in the log of the calls every update has that
    store next to it, but for one case, the update that is the newest
    event of the log.  That case is a search interrupted between the two
    statements: the call has raised [TimeoutError], and the move keeps a
    credit for a result that was neither stored nor returned.  A call that
    returns, or runs out of recursion, leaves no such update. *)
Theorem history_table_monotone fuel depth e e' o :
  log_ok e →
  negamax_boolean fuel depth e = (e', o) →
  (∀ m, HistoryHeuristicTable.lookup HistoryHeuristicTable.init m = 0) ∧
  (∀ h m, h !! m = None → HistoryHeuristicTable.lookup h m = 0) ∧
  (∀ h m d,
     HistoryHeuristicTable.lookup (HistoryHeuristicTable.update h m d) m
     = HistoryHeuristicTable.lookup h m + d ^ 2 ∧
     (h !! m = None → HistoryHeuristicTable.update h m d !! m = Some (d ^ 2)) ∧
     (∀ m', m ≠ m' → HistoryHeuristicTable.update h m d !! m' = h !! m')) ∧
  history_le (e_history e) (e_history e') ∧
  (∀ m, HistoryHeuristicTable.lookup (e_history e) m
        ≤ HistoryHeuristicTable.lookup (e_history e') m) ∧
  updates_stored (e_log e') ∧
  (∀ r, o = Ret r → settled (e_log e')) ∧
  (settled (e_log e') ∨ o = Raise TimeoutError).
Proof.
  intros Hlog Hrun.
  pose proof (negamax_boolean_unsettled fuel depth e e' o (proj2 Hlog) Hrun) as Hset.
  pose proof (negamax_boolean_history fuel depth e e' o Hrun) as Hle.
  split; [intros m; reflexivity|].
  split; [apply history_lookup_unseen|].
  split.
  { intros h m d. split; [apply history_update_same|]. split.
    - intros Hm. unfold HistoryHeuristicTable.update. rewrite Hm.
      unfold HistoryHeuristicTable.t in *. apply lookup_insert_eq.
    - intros m' Hne. now apply history_update_other. }
  split; [exact Hle|].
  split; [intros m; apply Hle|].
  apply negamax_boolean_log in Hrun as [Hup Hret]; [|exact Hlog].
  split; [exact Hup|]. split; [exact Hret|exact Hset].
Qed.

(** C5, as the code has it.  In a turn of the loop the move is taken back
    by the statement after the recursive call, when that statement is
    reached: the recursive call has returned and the alarm has not arrived
    by then.  The win test and the rest of the loop then run on the board
    after [undoMove], which on a lawful board is the board before the
    move.  When the recursive call raises, and also when it returns but the
    alarm is due at [undoMove], the turn ends there with that exception: no
    statement of the loop runs any more, [undoMove] included, and the
    objects are as the recursive call left them. *)
Theorem try_moves_undo_on_return rec depth move rest e e2 o2 :
  fires e = false →
  rec (played move e) = (e2, o2) →
  match o2 with
  | Ret r =>
      (fires e2 = true →
       try_moves rec depth (move :: rest) e = (e2, Raise TimeoutError)) ∧
      (fires e2 = false →
       try_moves rec depth (move :: rest) e =
         (if negb (fst r)
          then bind (stmt_update move depth) (fun _ => store_result true (Some move))
                 (undone move e2)
          else try_moves rec depth rest (undone move e2)) ∧
       (undo_restores → In move (legal (e_board e)) →
        e_board e2 = e_board (played move e) →
        e_board (undone move e2) = e_board e))
  | Raise x => try_moves rec depth (move :: rest) e = (e2, Raise x)
  | OutOfFuel => try_moves rec depth (move :: rest) e = (e2, OutOfFuel)
  end.
Proof.
  intros Hquiet Hcall. rewrite try_moves_cons, Hquiet, Hcall.
  destruct o2 as [r|x|]; [|reflexivity|reflexivity].
  split; intros Hquiet2; rewrite Hquiet2; [reflexivity|]. split.
  - destruct (negb (fst r)); [|reflexivity].
    unfold bind. rewrite stmt_update_eq.
    destruct (fires (undone move e2)); [reflexivity|]. now rewrite store_result_eq.
  - intros Hundo Hin Hb. simpl in *. rewrite Hb. now apply Hundo.
Qed.

Lemma stmt_play_checked_eq e move :
  stmt_play_checked move e =
  if fires e then (e, Raise TimeoutError)
  else (played move e,
        Ret (fst (play_move (e_board e) move (current_player (e_board e))))).
Proof.
  unfold stmt_play_checked, bind, tick, fires, played, get_board, set_board, emit, ret.
  destruct e as [b t h [[|n]|] l]; reflexivity.
Qed.

Lemma try_moves_skipping_same rec rec' depth
  (Hundo : undo_restores) (Haccept : enumerated_moves_accepted)
  (Hsame : ∀ e, rec' e = rec e)
  (Hback : ∀ e e' r, rec e = (e', Ret r) → e_board e' = e_board e) moves :
  ∀ e,
    (∀ m, In m moves → In m (legal (e_board e))) →
    try_moves_skipping rec' depth moves e = try_moves rec depth moves e.
Proof.
  induction moves as [|move rest IH]; intros e Hin; [reflexivity|].
  rewrite try_moves_cons. cbn [try_moves_skipping].
  unfold bind at 1. rewrite stmt_play_checked_eq.
  destruct (fires e); [reflexivity|].
  assert (Hlegal : In move (legal (e_board e))) by (apply Hin; now left).
  rewrite (Haccept _ _ Hlegal).
  unfold bind at 1. rewrite Hsame.
  destruct (rec (played move e)) as [e2 [r| |]] eqn:Hcall; try reflexivity.
  unfold bind at 1. rewrite stmt_undo_eq.
  destruct (fires e2); [reflexivity|].
  destruct (negb (fst r)).
  - unfold bind at 1. rewrite stmt_update_eq.
    destruct (fires (undone move e2)); [reflexivity|]. apply store_result_eq.
  - apply IH. intros m Hm. apply Hback in Hcall. simpl in *.
    rewrite Hcall, Hundo by exact Hlegal. apply Hin. now right.
Qed.

(** C9, as the code has it.  The solver never looks at the flag
    [play_move] returns; on a board whose enumerated moves are all accepted
    and taken back by [undoMove] no candidate is rejected during the
    search, and the solver then does, statement for statement, what a solver
    that skips rejected candidates does. *)
Theorem negamax_boolean_skips_nothing fuel depth e :
  enumerated_moves_accepted → undo_restores →
  (∀ m, In m (ordered e) →
        fst (play_move (e_board e) m (current_player (e_board e))) = true) ∧
  negamax_skipping fuel depth e = negamax_boolean fuel depth e.
Proof.
  intros Haccept Hundo. split.
  { intros m Hm. apply Haccept. now apply sort_desc_In in Hm. }
  revert depth e. induction fuel as [|fuel IH]; intros depth e; [reflexivity|].
  rewrite negamax_boolean_S. cbn [negamax_skipping].
  unfold bind at 1. rewrite stmt_lookup_eq.
  destruct (fires e); [reflexivity|].
  destruct (TranspositionTable.lookup _ _); [reflexivity|].
  unfold bind at 1. rewrite stmt_generate_eq.
  destruct (fires (probed e)); [reflexivity|].
  unfold bind at 1. rewrite stmt_sort_eq.
  destruct (fires (generated (probed e))); [reflexivity|].
  apply try_moves_skipping_same; try assumption.
  - intros e1. apply IH.
  - intros e1 e1' r. now apply negamax_boolean_restores.
  - intros m Hm. now apply sort_desc_In in Hm.
Qed.

End Contract.

(** * The commands *)

Section Commands.
  Context {Board Code : Type} `{BoardOps Board Code}.
  Implicit Types (e : Env Board Code) (g : GtpConnection Board Code) (b : Board).

Lemma the_board_after_search g sz e : the_board (after_search g sz e) = e_board e.
Proof. unfold the_board, after_search, set_object. simpl. now rewrite Nat.eqb_refl. Qed.

Lemma the_board_respond g s : the_board (respond s g) = the_board g.
Proof. reflexivity. Qed.

Lemma report_board mv g g' o :
  report mv g = (g', o) → the_board g' = the_board g ∧ g_board g' = g_board g.
Proof.
  unfold report. intros Hrep.
  destruct mv as [m|]; [|injection Hrep as <- <-; now split].
  destruct (point_to_coord _ _) as [c|x|]; try (injection Hrep as <- <-; now split).
  destruct (format_point _ _) as [s|x|]; injection Hrep as <- <-; now split.
Qed.

(** After a timeout [self.board] is the snapshot; the object the search
    worked on is still there, as the search left it. *)
Lemma timed_out_after_search g sz e snapshot :
  snapshot ≠ g_board g →
  let g' := timed_out snapshot (after_search g sz e) in
  g_board g' = snapshot ∧
  the_board g' = g_objects g snapshot ∧
  g_objects g' (g_board g) = e_board e ∧
  g_stdout g' = g_stdout g ++ [reply "unknown"].
Proof.
  intros Hne. simpl. unfold the_board, timed_out, after_search, set_object. simpl.
  rewrite Nat.eqb_refl. apply Nat.eqb_neq in Hne. rewrite Hne. now repeat split.
Qed.

Lemma after_search_tables_sound g sz e :
  tables_sound g → tt_sound (e_tt e) → tables_sound (after_search g sz e).
Proof.
  intros Hg He sz' t'. unfold after_search. simpl.
  destruct (decide (sz = sz')) as [->|Hne].
  - rewrite lookup_insert_eq. now intros [= <-].
  - rewrite lookup_insert_ne by exact Hne. apply Hg.
Qed.

Lemma report_tables mv g g' o : report mv g = (g', o) → g_tt g' = g_tt g.
Proof.
  unfold report. intros Hrep.
  destruct mv as [m|]; [|now injection Hrep as <- <-].
  destruct (point_to_coord _ _) as [c|x|]; try (now injection Hrep as <- <-).
  destruct (format_point _ _) as [s|x|]; now injection Hrep as <- <-.
Qed.

(** The tables a command leaves behind are sound if they were before it,
    also when the search was interrupted: what is stored was settled. *)
Lemma solve_tables_sound fuel budget args g g' o :
  undo_restores → codes_distinct →
  tables_sound g →
  solve fuel budget args g = (g', o) →
  tables_sound g'.
Proof.
  intros Hundo Hinj Hg Hsolve. unfold solve in Hsolve. cbn zeta in Hsolve.
  set (b := the_board g) in *.
  set (g0 := mkGtp _ _ _ _ _ _ _) in Hsolve.
  assert (tables_sound g0) as Hg0 by exact Hg.
  destruct (g_tt g0 !! size b) as [t|] eqn:Ht; [|now injection Hsolve as <- <-].
  destruct (g_history_heuristic g0 !! size b) as [h|];
    [|now injection Hsolve as <- <-].
  destruct (negamax_boolean fuel (count_steps b) _) as [e o1] eqn:Hrun.
  apply (negamax_boolean_sound Hundo Hinj) in Hrun as [He _]; [|exact (Hg0 _ _ Ht)].
  pose proof (after_search_tables_sound g0 (size b) e Hg0 He) as Hafter.
  destruct o1 as [[s mv]|x|].
  - destruct (e_alarm e) as [[|n]|].
    + now injection Hsolve as <- <-.
    + apply report_tables in Hsolve. intros sz t'. rewrite Hsolve. apply Hafter.
    + apply report_tables in Hsolve. intros sz t'. rewrite Hsolve. apply Hafter.
  - destruct x; now injection Hsolve as <- <-.
  - now injection Hsolve as <- <-.
Qed.

Lemma genmove_cmd_tables_sound fuel args g g' o :
  undo_restores → codes_distinct →
  tables_sound g →
  genmove_cmd fuel args g = (g', o) →
  tables_sound g'.
Proof.
  intros Hundo Hinj Hg Hgen. unfold genmove_cmd in Hgen.
  destruct args as [|a0 args]; [now injection Hgen as <- <-|].
  destruct (color_to_int (lower a0)) as [color|]; [|now injection Hgen as <- <-].
  cbn zeta in Hgen. set (b := the_board g) in *.
  destruct (g_tt g !! size b) as [t|] eqn:Ht; [|now injection Hgen as <- <-].
  destruct (g_history_heuristic g !! size b) as [h|]; [|now injection Hgen as <- <-].
  destruct (negamax_boolean fuel 0 _) as [e o1] eqn:Hrun.
  apply (negamax_boolean_sound Hundo Hinj) in Hrun as [He _]; [|exact (Hg _ _ Ht)].
  pose proof (after_search_tables_sound g (size b) e Hg He) as Hafter.
  destruct o1 as [[s [m|]]|x|]; try (now injection Hgen as <- <-).
  destruct (point_to_coord _ _) as [c| |]; try (now injection Hgen as <- <-).
  destruct (format_point _ _) as [txt| |]; try (now injection Hgen as <- <-).
  destruct (is_legal _ _ _); now injection Hgen as <- <-.
Qed.

Lemma report_names mv g g' o :
  report mv g = (g', o) → g_board g' = g_board g ∧ g_next g' = g_next g.
Proof.
  unfold report. intros Hrep.
  destruct mv as [m|]; [|injection Hrep as <- <-; now split].
  destruct (point_to_coord _ _) as [c|x|]; try (injection Hrep as <- <-; now split).
  destruct (format_point _ _) as [s|x|]; injection Hrep as <- <-; now split.
Qed.

(** [self.board] always names an object that exists. *)
Lemma solve_names fuel budget args g g' o :
  (g_board g < g_next g)%nat →
  solve fuel budget args g = (g', o) →
  (g_board g' < g_next g')%nat.
Proof.
  intros Hlt Hsolve. unfold solve in Hsolve. cbn zeta in Hsolve.
  set (b := the_board g) in *.
  set (g0 := mkGtp _ _ _ _ _ _ _) in Hsolve.
  destruct (g_tt g0 !! size b) as [t|];
    [|injection Hsolve as <- <-; simpl; lia].
  destruct (g_history_heuristic g0 !! size b) as [h|];
    [|injection Hsolve as <- <-; simpl; lia].
  destruct (negamax_boolean fuel (count_steps b) _) as [e [[s mv]|x|]].
  - destruct (e_alarm e) as [[|n]|];
      [injection Hsolve as <- <-; simpl; lia
      |apply report_names in Hsolve as [-> ->]; simpl; lia..].
  - destruct x; injection Hsolve as <- <-; simpl; lia.
  - injection Hsolve as <- <-. simpl. lia.
Qed.

(** C2, as the code has it.  A call of [negamax_boolean] that returns
    leaves the board as it found it; of a call that the alarm interrupts
    nothing of the kind holds (the moves applied and not yet taken back
    stay on the board object).  What holds whether the search returned or
    was cut short is a property of [solve], on a lawful board that [copy]
    copies faithfully: after the command the board [self.board] names is
    in the state the board had before it, same position, same player to
    move, same code; after a timeout because [self.board] has been bound
    to the copy made before the search.  What the theorem asks of the
    connection holds again afterwards, so this is so along any sequence of
    [solve] commands.  (Fuel beyond the rank: the command does not run out
    of recursion.) *)
Theorem solve_preserves_board (rank : Board → nat) fuel budget args g g' o :
  undo_restores → copy_faithful → game_ends rank →
  (rank (the_board g) < fuel)%nat →
  (g_board g < g_next g)%nat →
  solve fuel budget args g = (g', o) →
  (∀ depth e e' r,
     negamax_boolean fuel depth e = (e', Ret r) → e_board e' = e_board e) ∧
  o ≠ OutOfFuel ∧
  the_board g' = the_board g ∧
  code (the_board g') = code (the_board g) ∧
  current_player (the_board g') = current_player (the_board g) ∧
  (g_board g' < g_next g')%nat.
Proof.
  intros Hundo Hcopy Hrank Hfuel Hlt Hsolve.
  assert (g_board g ≠ g_next g) as Hfresh by lia.
  split; [intros depth e e' r; now apply negamax_boolean_restores|].
  assert (o ≠ OutOfFuel ∧ the_board g' = the_board g) as [Ho Hb];
    [|split; [exact Ho|split; [exact Hb|split; [now rewrite Hb|split;
       [now rewrite Hb|now apply solve_names in Hsolve]]]]].
  unfold solve in Hsolve. cbn zeta in Hsolve.
  set (b := the_board g) in *.
  set (g0 := mkGtp _ _ _ _ _ _ _) in Hsolve.
  assert (the_board g0 = b) as Hg0.
  { unfold the_board, g0, set_object. simpl.
    apply Nat.eqb_neq in Hfresh. now rewrite Hfresh. }
  destruct (g_tt g0 !! size b) as [t|];
    [|injection Hsolve as <- <-; split; [discriminate|exact Hg0]].
  destruct (g_history_heuristic g0 !! size b) as [h|];
    [|injection Hsolve as <- <-; split; [discriminate|exact Hg0]].
  destruct (negamax_boolean fuel (count_steps b) _) as [e [[s mv]|x|]] eqn:Hrun.
  - apply negamax_boolean_restores in Hrun; [|exact Hundo]. simpl in Hrun.
    assert (∀ g1 o1, report mv (after_search g0 (size b) e) = (g1, o1) →
                     o1 ≠ OutOfFuel ∧ the_board g1 = b) as Hrep.
    { intros g1 o1 Hr. split.
      - unfold report in Hr. destruct mv as [m|]; [|now injection Hr as <- <-].
        unfold point_to_coord in Hr. destruct (_ =? 0); [now injection Hr as <- <-|].
        unfold format_point in Hr. destruct (_ || _); [now injection Hr as <- <-|].
        unfold py_index in Hr. destruct (_ <? 0); [now injection Hr as <- <-|].
        destruct (String.get _ _); now injection Hr as <- <-.
      - apply report_board in Hr as [-> _]. now rewrite the_board_after_search. }
    destruct (e_alarm e) as [[|n]|]; [|now apply Hrep..].
    injection Hsolve as <- <-. split; [discriminate|].
    destruct (timed_out_after_search g0 (size b) e (g_next g)) as (_ & -> & _);
      [simpl; congruence|].
    unfold g0, set_object. simpl. rewrite Nat.eqb_refl. apply Hcopy.
  - apply negamax_boolean_raises in Hrun as ->.
    injection Hsolve as <- <-. split; [discriminate|].
    destruct (timed_out_after_search g0 (size b) e (g_next g)) as (_ & -> & _);
      [simpl; congruence|].
    unfold g0, set_object. simpl. rewrite Nat.eqb_refl. apply Hcopy.
  - exfalso. revert Hrun. apply (negamax_boolean_enough Hundo rank Hrank). exact Hfuel.
Qed.

(** C3.  When the alarm arrives before [solve] has cancelled it, during the
    search or between its return and [signal.alarm(0)], the command answers
    [unknown] and rebinds [self.board] to the copy it made at the start: the
    board of the connection is then in the state the board had before the
    command, while the object the search was working on stays as the
    interrupted search left it. *)
Theorem solve_timeout fuel budget args g t h :
  copy_faithful →
  g_board g ≠ g_next g →
  g_tt g !! size (the_board g) = Some t →
  g_history_heuristic g !! size (the_board g) = Some h →
  let run := negamax_boolean fuel (count_steps (the_board g))
               (mkEnv (the_board g) t h (Some budget) []) in
  (snd run = Raise TimeoutError ∨
   ((∃ r, snd run = Ret r) ∧ e_alarm (fst run) = Some O)) →
  ∃ g',
    solve fuel budget args g = (g', Ret tt) ∧
    g_stdout g' = g_stdout g ++ [reply "unknown"] ∧
    g_board g' = g_next g ∧
    the_board g' = copy (the_board g) ∧
    the_board g' = the_board g ∧
    g_objects g' (g_board g) = e_board (fst run).
Proof.
  intros Hcopy Hfresh Ht Hh run Hfired.
  unfold solve. cbn zeta.
  set (b := the_board g) in *.
  set (g0 := mkGtp _ _ _ _ _ _ _).
  change (g_tt g0) with (g_tt g). change (g_history_heuristic g0) with (g_history_heuristic g).
  rewrite Ht, Hh. fold run.
  assert (∀ e, let g' := timed_out (g_next g) (after_search g0 (size b) e) in
            g_stdout g' = g_stdout g ++ [reply "unknown"] ∧
            g_board g' = g_next g ∧ the_board g' = copy b ∧ the_board g' = b ∧
            g_objects g' (g_board g) = e_board e) as Hout.
  { intros e.
    destruct (timed_out_after_search g0 (size b) e (g_next g)) as (Hr & Hb & Hlive & Hs);
      [simpl; congruence|].
    assert (g_objects g0 (g_next g) = copy b) as Hsnap.
    { unfold g0, set_object. simpl. now rewrite Nat.eqb_refl. }
    cbn zeta. rewrite Hb, Hsnap. repeat split; try assumption. apply Hcopy. }
  destruct run as [e [[s mv]|x|]] eqn:Hrun; simpl in Hfired.
  - destruct Hfired as [Hf|[_ Hf]]; [discriminate|]. rewrite Hf.
    eexists. split; [reflexivity|]. apply Hout.
  - destruct Hfired as [[= ->]|[[r Hr] _]]; [|discriminate].
    eexists. split; [reflexivity|]. apply Hout.
  - destruct Hfired as [Hf|[[r Hr] _]]; discriminate.
Qed.

Lemma the_board_play_on_board g m c :
  the_board (play_on_board m c g) = snd (play_move (the_board g) m c).
Proof. unfold the_board, play_on_board, set_object. simpl. now rewrite Nat.eqb_refl. Qed.


(** C10, as the code has it.  When [genmove_cmd] answers with a move and
    not with [resign], it has played that move, for the colour asked for,
    on the board of the connection: the board is in the state [play_move]
    produced, and, a legal play changing the position, its code is no
    longer the code it had before the command.  Who is to move afterwards
    is what [play_move] for that colour leaves: on a board where a play
    passes the turn on, the colour asked for is not to move afterwards, so
    the player to move has changed when the colour asked for was the
    player to move.  When another colour was asked for, the player to move
    need not have changed. *)
Theorem genmove_cmd_plays fuel args g g' :
  undo_restores → legal_play_changes →
  genmove_cmd fuel args g = (g', Ret tt) →
  g_stdout g' ≠ g_stdout g ++ [reply "resign"] →
  ∃ m color s,
    (∃ a0 rest, args = a0 :: rest ∧ color_to_int (lower a0) = Some color) ∧
    is_legal (the_board g) m color = true ∧
    move_text MAXSIZE (size (the_board g)) m = Ret s ∧
    g_stdout g' = g_stdout g ++ [reply (lower s)] ∧
    g_board g' = g_board g ∧
    the_board g' = snd (play_move (the_board g) m color) ∧
    code (the_board g') ≠ code (the_board g) ∧
    (turn_passes →
     current_player (the_board g') ≠ color ∧
     (color = current_player (the_board g) →
      current_player (the_board g') ≠ current_player (the_board g))).
Proof.
  intros Hundo Hchange Hgen Hmove.
  unfold genmove_cmd in Hgen. destruct args as [|a0 args]; [discriminate|].
  destruct (color_to_int (lower a0)) as [color|] eqn:Hcolor; [|discriminate].
  cbn zeta in Hgen. set (b := the_board g) in *.
  destruct (g_tt g !! size b) as [t|]; [|discriminate].
  destruct (g_history_heuristic g !! size b) as [h|]; [|discriminate].
  destruct (negamax_boolean fuel 0 _) as [e [[s0 [m|]]|x|]] eqn:Hrun;
    try discriminate.
  - apply negamax_boolean_restores in Hrun; [|exact Hundo]. simpl in Hrun.
    assert (the_board (after_search g (size b) e) = b) as Hafter
      by (now rewrite the_board_after_search).
    rewrite Hafter in Hgen.
    destruct (point_to_coord (Some m) (size b)) as [c| |] eqn:Hc; try discriminate.
    destruct (format_point MAXSIZE c) as [s| |] eqn:Hs; try discriminate.
    destruct (is_legal b m color) eqn:Hlegal.
    + injection Hgen as <-. exists m, color, s.
      split; [now exists a0, args|].
      split; [exact Hlegal|]. split; [unfold move_text; now rewrite Hc|].
      split; [reflexivity|]. split; [reflexivity|].
      rewrite the_board_respond, the_board_play_on_board, Hafter.
      split; [reflexivity|]. split; [now apply Hchange|].
      intros Hturn. pose proof (Hturn b m color Hlegal) as Hnot.
      split; [exact Hnot|]. now intros <-.
    + injection Hgen as <-. now destruct Hmove.
  - injection Hgen as <-. now destruct Hmove.
Qed.

End Commands.

(** * The theorems at work on the pile *)

Lemma negamax_boolean_forced_win_witness :
  let e := Pile.fresh (Pile.mk 4 true) None in
  (Pile.rank (e_board e) < 5)%nat ∧
  ∃ e' r,
    negamax_boolean 5 0 e = (e', Ret r) ∧
    ((∃ m, r = (true, Some m) ∧ In m (legal (e_board e))) ↔ Win (e_board e)) ∧
    (Win (e_board e) ↔
       ∃ m, In m (legal (e_board e)) ∧ ¬ Win (next (e_board e) m)) ∧
    fst r = exhaustive 5 (e_board e) ∧
    e_board e' = e_board e ∧
    tt_sound (Board := Pile.t) (e_tt e').
Proof.
  cbn zeta. split; [unfold Pile.rank; simpl; lia|].
  apply (negamax_boolean_forced_win Pile.rank 5 0
           (Pile.fresh (Pile.mk 4 true) None) Pile_undo Pile_codes Pile_ends).
  - apply tt_sound_empty.
  - reflexivity.
  - unfold Pile.rank. simpl. lia.
Defined.

Lemma negamax_boolean_no_moves_witness :
  let e := Pile.fresh (Pile.mk 0 true) None in
  legal (e_board e) = [] ∧
  ∃ e', negamax_boolean 3 0 e = (e', Ret (false, None)) ∧
        e_board e' = e_board e ∧
        TranspositionTable.lookup (e_tt e') (code (e_board e)) = Some (false, None).
Proof.
  cbn zeta. split; [reflexivity|].
  destruct (negamax_boolean_no_moves 2 0 (Pile.fresh (Pile.mk 0 true) None))
    as (e' & Hrun & Hb & Hl & _).
  - reflexivity.
  - apply tt_sound_empty.
  - reflexivity.
  - exists e'. split; [exact Hrun|]. split; [exact Hb|exact Hl].
Defined.

Lemma negamax_boolean_again_witness :
  let e := Pile.fresh (Pile.mk 3 true) None in
  let e1 := fst (negamax_boolean 5 0 e) in
  negamax_boolean 5 0 e = (e1, Ret (false, None)) ∧
  ∃ e2, negamax_boolean 1 7 e1 = (e2, Ret (false, None)) ∧
        e_log e2 = e_log e1 ∧ plays (e_log e2) = plays (e_log e1).
Proof.
  cbn zeta.
  assert (negamax_boolean 5 0 (Pile.fresh (Pile.mk 3 true) None)
          = (fst (negamax_boolean 5 0 (Pile.fresh (Pile.mk 3 true) None)),
             Ret (false, None))) as Hrun by (vm_compute; reflexivity).
  split; [exact Hrun|].
  destruct (negamax_boolean_again 5 0 _ _ _ 0 7 Hrun) as (e2 & H2 & _ & _ & _ & _ & Hl & Hp).
  - vm_compute. reflexivity.
  - exists e2. split; [exact H2|]. split; [exact Hl|exact Hp].
Defined.

Lemma history_table_monotone_witness :
  let e := Pile.fresh (Pile.mk 4 true) None in
  let run := negamax_boolean 5 0 e in
  log_ok e ∧
  history_le (e_history e) (e_history (fst run)) ∧
  updates_stored (e_log (fst run)) ∧
  (settled (e_log (fst run)) ∨ snd run = Raise TimeoutError).
Proof.
  cbn zeta. split; [split; exact I|].
  destruct (history_table_monotone 5 0 (Pile.fresh (Pile.mk 4 true) None)
              (fst (negamax_boolean 5 0 (Pile.fresh (Pile.mk 4 true) None)))
              (snd (negamax_boolean 5 0 (Pile.fresh (Pile.mk 4 true) None))))
    as (_ & _ & _ & Hle & _ & Hlog & _ & Hset).
  - split; exact I.
  - apply surjective_pairing.
  - split; [exact Hle|]. split; [exact Hlog|exact Hset].
Defined.

Lemma solve_preserves_board_witness :
  let g := Pile.connection (Pile.mk 3 true) in
  let run := solve 5 7 [] g in
  (g_board g < g_next g)%nat ∧
  snd run ≠ OutOfFuel ∧
  the_board (fst run) = the_board g ∧
  code (the_board (fst run)) = code (the_board g).
Proof.
  cbn zeta. split; [simpl; lia|].
  destruct (solve_preserves_board Pile.rank 5 7 [] (Pile.connection (Pile.mk 3 true))
              (fst (solve 5 7 [] (Pile.connection (Pile.mk 3 true))))
              (snd (solve 5 7 [] (Pile.connection (Pile.mk 3 true))))
              Pile_undo Pile_copy Pile_ends)
    as (_ & Ho & Hb & Hc & _).
  - unfold Pile.rank. simpl. lia.
  - simpl. lia.
  - apply surjective_pairing.
  - split; [exact Ho|]. split; [exact Hb|exact Hc].
Defined.

Lemma solve_timeout_witness :
  let g := Pile.connection (Pile.mk 3 true) in
  ∃ g', solve 5 7 [] g = (g', Ret tt) ∧
        g_stdout g' = [reply "unknown"] ∧
        g_board g' = 1%nat ∧
        the_board g' = Pile.mk 3 true ∧
        g_objects g' 0%nat = Pile.mk 2 false.
Proof.
  cbn zeta.
  destruct (solve_timeout 5 7 [] (Pile.connection (Pile.mk 3 true))
              TranspositionTable.init HistoryHeuristicTable.init Pile_copy)
    as (g' & Hrun & Hout & Hr & _ & Hb & Hlive).
  - simpl. lia.
  - reflexivity.
  - reflexivity.
  - left. vm_compute. reflexivity.
  - exists g'. split; [exact Hrun|]. split; [exact Hout|]. split; [exact Hr|].
    split; [exact Hb|]. etransitivity; [exact Hlive|]. vm_compute. reflexivity.
Defined.

Lemma try_moves_undo_on_return_witness :
  let e := Pile.fresh (Pile.mk 3 true) None in
  let rec := negamax_boolean 9 1 in
  let e2 := fst (rec (played 1 e)) in
  fires e = false ∧
  rec (played 1 e) = (e2, Ret (true, Some 2)) ∧
  fires e2 = false ∧
  try_moves rec 0 [1; 2] e = try_moves rec 0 [2] (undone 1 e2) ∧
  e_board (undone 1 e2) = e_board e.
Proof.
  cbn zeta.
  assert (fires (Pile.fresh (Pile.mk 3 true) None) = false) as Hquiet by reflexivity.
  assert (negamax_boolean 9 1 (played 1 (Pile.fresh (Pile.mk 3 true) None))
          = (fst (negamax_boolean 9 1 (played 1 (Pile.fresh (Pile.mk 3 true) None))),
             Ret (true, Some 2))) as Hcall by (vm_compute; reflexivity).
  assert (fires (fst (negamax_boolean 9 1 (played 1 (Pile.fresh (Pile.mk 3 true) None))))
          = false) as Hquiet2 by (vm_compute; reflexivity).
  assert (e_board (fst (negamax_boolean 9 1 (played 1 (Pile.fresh (Pile.mk 3 true) None))))
          = e_board (played 1 (Pile.fresh (Pile.mk 3 true) None))) as Hback
    by (vm_compute; reflexivity).
  split; [exact Hquiet|]. split; [exact Hcall|]. split; [exact Hquiet2|].
  destruct (try_moves_undo_on_return (negamax_boolean 9 1) 0 1 [2]
              (Pile.fresh (Pile.mk 3 true) None)
              (fst (negamax_boolean 9 1 (played 1 (Pile.fresh (Pile.mk 3 true) None))))
              (Ret (true, Some 2)) Hquiet Hcall) as [_ Hrun].
  destruct (Hrun Hquiet2) as [Hloop Hboard].
  split; [exact Hloop|].
  apply Hboard; [exact Pile_undo|now left|exact Hback].
Defined.


Lemma genmove_cmd_plays_witness :
  let g := Pile.connection (Pile.mk 4 true) in
  let g' := fst (genmove_cmd 5 ["B"%string] g) in
  g_stdout g' ≠ g_stdout g ++ [reply "resign"] ∧
  ∃ m color s,
    (∃ a0 rest, ["B"%string] = a0 :: rest ∧ color_to_int (lower a0) = Some color) ∧
    is_legal (the_board g) m color = true ∧
    move_text (MAXSIZE (Board := Pile.t)) (size (the_board g)) m = Ret s ∧
    g_stdout g' = g_stdout g ++ [reply (lower s)] ∧
    g_board g' = g_board g ∧
    the_board g' = snd (play_move (the_board g) m color) ∧
    code (the_board g') ≠ code (the_board g) ∧
    current_player (the_board g') ≠ color ∧
    (color = current_player (the_board g) →
     current_player (the_board g') ≠ current_player (the_board g)).
Proof.
  cbn zeta.
  assert (g_stdout (fst (genmove_cmd 5 ["B"%string] (Pile.connection (Pile.mk 4 true))))
          ≠ g_stdout (Pile.connection (Pile.mk 4 true)) ++ [reply "resign"]) as Hne
    by (vm_compute; discriminate).
  assert (genmove_cmd 5 ["B"%string] (Pile.connection (Pile.mk 4 true))
          = (fst (genmove_cmd 5 ["B"%string] (Pile.connection (Pile.mk 4 true))), Ret tt))
    as Hrun by (vm_compute; reflexivity).
  split; [exact Hne|].
  destruct (genmove_cmd_plays 5 ["B"%string] (Pile.connection (Pile.mk 4 true))
              (fst (genmove_cmd 5 ["B"%string] (Pile.connection (Pile.mk 4 true))))
              Pile_undo Pile_changes Hrun Hne)
    as (m & color & s & Hasked & Hlegal & Htext & Hout & Hname & Hboard & Hcode & Hturn).
  exists m, color, s.
  split; [exact Hasked|]. split; [exact Hlegal|]. split; [exact Htext|].
  split; [exact Hout|]. split; [exact Hname|]. split; [exact Hboard|].
  split; [exact Hcode|]. exact (Hturn Pile_turn).
Defined.

Lemma negamax_boolean_skips_nothing_witness :
  let e := Pile.fresh (Pile.mk 3 true) None in
  (∀ m, In m (ordered e) →
        fst (play_move (e_board e) m (current_player (e_board e))) = true) ∧
  negamax_skipping 5 0 e = negamax_boolean 5 0 e.
Proof.
  cbn zeta.
  apply (negamax_boolean_skips_nothing 5 0 (Pile.fresh (Pile.mk 3 true) None)).
  - exact Pile_accepted.
  - exact Pile_undo.
Defined.

(** * Where the specification and the code part *)

(** On the loose pile with one token the solver never returns, whatever
    the fuel: it re-enters the position it started from. *)
Lemma LoosePile_never_returns fuel :
  ∀ depth l,
    snd (negamax_boolean fuel depth
           (mkEnv (LoosePile.mk 1 true) TranspositionTable.init
              HistoryHeuristicTable.init None l)) = OutOfFuel.
Proof.
  induction fuel as [|fuel IH]; intros depth l; [reflexivity|].
  rewrite negamax_boolean_S.
  set (rec := negamax_boolean fuel (depth + 1)) in *.
  cbn -[rec try_moves].
  unfold TranspositionTable.init, TranspositionTable.t. rewrite lookup_empty.
  change (HistoryHeuristicTable.lookup HistoryHeuristicTable.init 1
          <=? HistoryHeuristicTable.lookup HistoryHeuristicTable.init 2) with true.
  cbv iota. rewrite try_moves_cons.
  match goal with
  | |- context [rec ?e1] =>
      assert (snd (rec e1) = OutOfFuel) as Hout by apply IH;
      destruct (rec e1) as [e2 o]
  end.
  simpl in Hout. subst o. reflexivity.
Qed.

(** C5 as the specification states it does not hold.  Pile of three, alarm
    due four statements into the first turn of the loop: move 1 is applied,
    the recursive call is interrupted, and the turn ends with the move
    still on the board and no [undoMove] in the log. *)
Lemma undo_skipped_when_aborted :
  let e := Pile.fresh (Pile.mk 3 true) (Some 4%nat) in
  let run := try_moves (negamax_boolean 9 1) 0 [1; 2] e in
  snd (negamax_boolean 9 1 (played 1 e)) = Raise TimeoutError ∧
  snd run = Raise TimeoutError ∧
  e_board e = Pile.mk 3 true ∧
  e_board (fst run) = Pile.mk 2 false ∧
  e_log (fst run) = [EGenerate WHITE; EPlay 1 BLACK] ∧
  e_board (fst run) ≠ e_board e.
Proof. vm_compute. repeat split. discriminate. Qed.

(** C2 as the specification states it does not hold.  Pile of three, alarm
    due seven statements into the call: the call of [negamax_boolean] ends
    with [TimeoutError] inside the first recursive call, and the board it
    was given is left with move 1 applied: another position, another code,
    the other player to move. *)
Lemma aborted_call_leaves_move :
  let e := Pile.fresh (Pile.mk 3 true) (Some 7%nat) in
  let run := negamax_boolean 9 0 e in
  snd run = Raise TimeoutError ∧
  e_board e = Pile.mk 3 true ∧
  e_board (fst run) = Pile.mk 2 false ∧
  code (e_board (fst run)) ≠ code (e_board e) ∧
  current_player (e_board e) = BLACK ∧
  current_player (e_board (fst run)) = WHITE.
Proof. vm_compute. repeat split. discriminate. Qed.

(** C7 as the specification states it does not hold.  One token, depth 3,
    alarm due ten statements into the call: move 1 is found to win and
    [update] runs, then the alarm arrives before [store_result].  The call
    ends with [TimeoutError]; the score of move 1 has gone from 0 to 9,
    and nothing was stored or returned for the position. *)
Lemma update_without_return :
  let e := Pile.fresh (Pile.mk 1 true) (Some 10%nat) in
  let run := negamax_boolean 9 3 e in
  snd run = Raise TimeoutError ∧
  HistoryHeuristicTable.lookup (e_history e) 1 = 0 ∧
  HistoryHeuristicTable.lookup (e_history (fst run)) 1 = 9 ∧
  TranspositionTable.lookup (e_tt (fst run)) (code (e_board e)) = None ∧
  e_log (fst run)
  = [EUpdate 1 3; EUndo 1; EStore (0%nat, false) false None; EGenerate WHITE;
     EPlay 1 BLACK; EGenerate BLACK].
Proof. vm_compute. repeat split. Qed.


(** C10 as the specification states it does not hold.  Four tokens, black
    to move, and a move asked for white: the solver's move 1 is accepted
    for white and played, and the answer is that move; black is to move
    before the command and black is to move after it. *)
Lemma genmove_keeps_player :
  let g := Pile.connection (Pile.mk 4 true) in
  let g' := fst (genmove_cmd 5 ["w"%string] g) in
  snd (genmove_cmd 5 ["w"%string] g) = Ret tt ∧
  g_stdout g' = g_stdout g ++ [reply "a0"] ∧
  the_board g' = snd (play_move (the_board g) 1 WHITE) ∧
  code (the_board g') ≠ code (the_board g) ∧
  current_player (the_board g) = BLACK ∧
  current_player (the_board g') = BLACK.
Proof. vm_compute. repeat split. discriminate. Qed.

(** C9 as the specification states it does not hold.  One token left,
    moves 2 and 1 enumerated: [play_move] rejects 2 and leaves the pile as
    it was.  A solver that skipped the rejected candidate would go on with
    move 1 and return [(true, 1)]; the program recurses on the unchanged
    position instead and does not return (with fuel 50 here, with any fuel
    by [LoosePile_never_returns]). *)
Lemma rejected_move_not_skipped :
  let p := LoosePile.mk 1 true in
  let e := LoosePile.fresh p None in
  legal p = [2; 1] ∧
  play_move p 2 (current_player p) = (false, p) ∧
  snd (negamax_skipping 50 0 e) = Ret (true, Some 1) ∧
  snd (negamax_boolean 50 0 e) = OutOfFuel.
Proof.
  cbn zeta. split; [reflexivity|]. split; [reflexivity|].
  split; vm_compute; reflexivity.
Qed.

(** * Further properties of the solver *)

Section OrderFacts.
Implicit Types (key : Point → Z) (l : list Point).

Lemma insert_desc_Permutation key x l : insert_desc key x l ≡ₚ x :: l.
Proof.
  induction l as [|y l IH]; simpl; [reflexivity|].
  destruct (key y <=? key x); [reflexivity|].
  rewrite IH. apply Permutation_swap.
Qed.

Lemma insert_desc_descending key x l :
  descending key l → descending key (insert_desc key x l).
Proof.
  induction l as [|y l IH]; simpl.
  - intros _. split; [constructor|exact I].
  - intros [Hy Hl]. destruct (Z.leb_spec (key y) (key x)) as [Hle|Hgt]; simpl.
    + split; [|split; assumption].
      constructor; [exact Hle|].
      eapply Forall_impl; [exact Hy|]. simpl. intros z Hz. lia.
    + split; [|now apply IH].
      rewrite insert_desc_Permutation. constructor; [lia|exact Hy].
Qed.

Lemma insert_desc_with_key key k x l :
  with_key key k (insert_desc key x l) = with_key key k (x :: l).
Proof.
  unfold with_key. induction l as [|y l IH]; simpl; [reflexivity|].
  destruct (Z.leb_spec (key y) (key x)) as [Hle|Hgt]; simpl; [reflexivity|].
  rewrite IH. simpl.
  destruct (Z.eqb_spec (key x) k) as [Hx|Hx]; [|reflexivity].
  destruct (Z.eqb_spec (key y) k) as [Hy|Hy]; [lia|reflexivity].
Qed.

Lemma sort_desc_stable_descending key l :
  sort_desc key l ≡ₚ l ∧
  descending key (sort_desc key l) ∧
  ∀ k, with_key key k (sort_desc key l) = with_key key k l.
Proof.
  induction l as [|x l (Hp & Hd & Hk)]; simpl.
  - split; [reflexivity|]. split; [exact I|reflexivity].
  - split; [now rewrite insert_desc_Permutation, Hp|].
    split; [now apply insert_desc_descending|].
    intros k. rewrite insert_desc_with_key. unfold with_key in *. simpl.
    now rewrite Hk.
Qed.

Lemma with_key_all key k l :
  (∀ x, In x l → key x = k) → with_key key k l = l.
Proof.
  unfold with_key. induction l as [|x l IH]; simpl; intros Hall; [reflexivity|].
  rewrite (Hall x) by (now left). rewrite Z.eqb_refl. f_equal.
  apply IH. intros y Hy. apply Hall. now right.
Qed.

Lemma sort_desc_ties key k l :
  (∀ x, In x l → key x = k) → sort_desc key l = l.
Proof.
  intros Hall. destruct (sort_desc_stable_descending key l) as (Hp & _ & Hk).
  rewrite <- (with_key_all key k l) at 2 by exact Hall.
  rewrite <- Hk. symmetry. apply with_key_all.
  intros x Hx. apply Hall. apply list_elem_of_In. rewrite <- Hp.
  now apply list_elem_of_In.
Qed.
End OrderFacts.

Section SolverOrder.
Context {Board Code : Type} `{BoardOps Board Code}.
Implicit Types (e : Env Board Code) (b : Board) (move m : Point) (depth : Z).

(** X1.  The order in which a call that misses the table tries the moves:
    they are the enumerated moves, each as often as enumerated; their
    history scores never increase along the list; moves of equal score
    keep the order of the enumeration; so with a history table that scores
    every enumerated move alike (a fresh one, say) the order is that of the
    enumeration. *)
Theorem ordered_by_history fuel depth e :
  (fires e = false →
   TranspositionTable.lookup (e_tt e) (code (e_board e)) = None →
   fires (probed e) = false → fires (generated (probed e)) = false →
   negamax_boolean (S fuel) depth e
   = try_moves (negamax_boolean fuel (depth + 1)) depth (ordered e)
       (probed (generated (probed e)))) ∧
  ordered e ≡ₚ legal (e_board e) ∧
  descending (HistoryHeuristicTable.lookup (e_history e)) (ordered e) ∧
  (∀ k, with_key (HistoryHeuristicTable.lookup (e_history e)) k (ordered e)
        = with_key (HistoryHeuristicTable.lookup (e_history e)) k (legal (e_board e))) ∧
  ((∀ m m', In m (legal (e_board e)) → In m' (legal (e_board e)) →
      HistoryHeuristicTable.lookup (e_history e) m
      = HistoryHeuristicTable.lookup (e_history e) m') →
   ordered e = legal (e_board e)).
Proof.
  split.
  { intros H1 H2 H3 H4. now rewrite negamax_boolean_S, H1, H2, H3, H4. }
  unfold ordered.
  destruct (sort_desc_stable_descending
              (HistoryHeuristicTable.lookup (e_history e)) (legal (e_board e)))
    as (Hp & Hd & Hk).
  split; [exact Hp|]. split; [exact Hd|]. split; [exact Hk|].
  intros Hsame. destruct (legal (e_board e)) as [|m0 l] eqn:Hl; [reflexivity|].
  apply sort_desc_ties with (k := HistoryHeuristicTable.lookup (e_history e) m0).
  intros x Hx. apply Hsame; [exact Hx|now left].
Qed.
End SolverOrder.

Section SolverMore.
Context {Board Code : Type} `{BoardOps Board Code}.
Implicit Types (e : Env Board Code) (b : Board) (move m : Point) (depth : Z).

(** *** The first winning move *)

Lemma try_moves_first_win rec depth
  (Hundo : undo_restores)
  (Hrec : ∀ e e' r, tt_sound (e_tt e) → rec e = (e', Ret r) →
            tt_sound (e_tt e') ∧ e_board e' = e_board e ∧ result_ok (e_board e) r)
  b moves :
  ∀ e e' r,
    e_board e = b →
    tt_sound (e_tt e) →
    (∀ m, In m moves → In m (legal b)) →
    try_moves rec depth moves e = (e', Ret r) →
    (r = (false, None) ∧ ∀ m, In m moves → Win (next b m)) ∨
    (∃ m tried rest,
       r = (true, Some m) ∧ moves = tried ++ m :: rest ∧
       (∀ m', In m' tried → Win (next b m')) ∧ Loss (next b m)).
Proof.
  induction moves as [|move rest IH]; intros e e' r Hb Ht Hin Hrun.
  - rewrite try_moves_nil in Hrun. run_step Hrun; run_done Hrun.
    left. split; [reflexivity|]. intros m [].
  - rewrite try_moves_cons in Hrun.
    run_step Hrun; [run_done Hrun|].
    run_step Hrun; [|run_done Hrun|run_done Hrun].
    apply Hrec in Hcall as (Ht2 & Hb2 & Hok2); [|exact Ht].
    simpl in Hb2, Hok2. rewrite Hb in Hb2, Hok2.
    assert (Hlegal : In move (legal b)) by (apply Hin; now left).
    run_step Hrun; [run_done Hrun|].
    run_step Hrun.
    + run_step Hrun; [run_done Hrun|].
      run_step Hrun; run_done Hrun.
      apply negb_true_iff in Hwin.
      right. exists move, [], rest. split; [reflexivity|]. split; [reflexivity|].
      split; [intros m' []|]. destruct r0 as [[|] [m0|]]; simpl in *; try tauto; discriminate.
    + apply negb_false_iff in Hwin.
      assert (Win (next b move)) as Hw.
      { destruct r0 as [[|] [m0|]]; simpl in *; try tauto; try discriminate.
        destruct Hok2 as [Hin0 Hl0]. now apply Win_move with m0. }
      apply IH in Hrun as [[-> Hall]|(m & tried & rest' & -> & -> & Htried & Hloss)].
      * left. split; [reflexivity|]. intros m [<-|Hm]; [exact Hw|now apply Hall].
      * right. exists m, (move :: tried), rest'.
        split; [reflexivity|]. split; [reflexivity|].
        split; [|exact Hloss]. intros m' [<-|Hm']; [exact Hw|now apply Htried].
      * simpl. rewrite Hb2. now apply Hundo.
      * exact Ht2.
      * intros m Hm. apply Hin. now right.
Qed.

(** X2.  Which move a search returns.  When a call misses the table and
    returns [(true, m)], [m] is the first move, in the order the loop
    tries them, that leaves the opponent in a lost position: every move
    tried before it leaves the opponent a win.  When it returns
    [(false, None)], every enumerated move leaves the opponent a win. *)
Theorem negamax_boolean_first_win fuel depth e e' r :
  undo_restores → codes_distinct →
  tt_sound (e_tt e) →
  TranspositionTable.lookup (e_tt e) (code (e_board e)) = None →
  negamax_boolean fuel depth e = (e', Ret r) →
  (r = (false, None) ∧ ∀ m, In m (legal (e_board e)) → Win (next (e_board e) m)) ∨
  (∃ m tried rest,
     r = (true, Some m) ∧ ordered e = tried ++ m :: rest ∧
     (∀ m', In m' tried → Win (next (e_board e) m')) ∧
     Loss (next (e_board e) m)).
Proof.
  intros Hundo Hinj Ht Hmiss Hrun.
  destruct fuel as [|fuel]; [discriminate|].
  rewrite negamax_boolean_S, Hmiss in Hrun.
  run_step Hrun; [run_done Hrun|].
  run_step Hrun; [run_done Hrun|].
  run_step Hrun; [run_done Hrun|].
  apply try_moves_first_win with (b := e_board e) in Hrun; try assumption;
    try reflexivity.
  - destruct Hrun as [[-> Hall]|Hfirst]; [left|now right].
    split; [reflexivity|]. intros m Hm. apply Hall. now apply sort_desc_In.
  - intros e1 e1' r1 Ht1 Hr1.
    destruct (negamax_boolean_sound Hundo Hinj fuel (depth + 1) e1 e1' (Ret r1) Ht1 Hr1)
      as [Ht' Hret].
    destruct (Hret r1 eq_refl). now repeat split.
  - intros m Hm. now apply sort_desc_In in Hm.
Qed.

(** *** Entries stay *)

Lemma try_moves_keeps rec depth
  (Hundo : undo_restores)
  (Hrec : ∀ e e' o, rec e = (e', o) →
            (e_tt e : gmap Code (bool * option Point)) ⊆ e_tt e' ∧
            ∀ r, o = Ret r → e_board e' = e_board e)
  b (t0 : gmap Code (bool * option Point)) moves :
  t0 !! code b = None →
  ∀ e e' o,
    e_board e = b →
    t0 ⊆ (e_tt e : gmap Code (bool * option Point)) →
    (∀ m, In m moves → In m (legal b)) →
    try_moves rec depth moves e = (e', o) →
    t0 ⊆ (e_tt e' : gmap Code (bool * option Point)).
Proof.
  intros Hfree.
  induction moves as [|move rest IH]; intros e e' o Hb Hsub Hin Hrun.
  - rewrite try_moves_nil in Hrun. run_step Hrun; injection Hrun as <- <-.
    + exact Hsub.
    + simpl. rewrite Hb. unfold TranspositionTable.store, TranspositionTable.t in *.
      now apply insert_subseteq_r.
  - rewrite try_moves_cons in Hrun.
    run_step Hrun; [now injection Hrun as <- <-|].
    assert (Hlegal : In move (legal b)) by (apply Hin; now left).
    run_step Hrun; apply Hrec in Hcall as [Hsub2 Hback]; simpl in Hsub2;
      assert (t0 ⊆ (e_tt e2 : gmap Code (bool * option Point))) as Hsub3
        by (etransitivity; eassumption);
      [|now injection Hrun as <- <-..].
    specialize (Hback _ eq_refl). simpl in Hback. rewrite Hb in Hback.
    assert (Hb3 : undoMove (e_board e2) move = b) by (rewrite Hback; now apply Hundo).
    run_step Hrun; [now injection Hrun as <- <-|].
    run_step Hrun.
    + run_step Hrun; [now injection Hrun as <- <-|].
      run_step Hrun; injection Hrun as <- <-; [exact Hsub3|].
      simpl. rewrite Hb3. unfold TranspositionTable.store, TranspositionTable.t in *.
      now apply insert_subseteq_r.
    + apply IH in Hrun; [exact Hrun|exact Hb3|exact Hsub3|].
      intros m Hm. apply Hin. now right.
Qed.

(** X3.  A call never removes or overwrites what the transposition table
    held when it started, whether it returns, is interrupted or runs out
    of recursion: every entry is still there, with the same result and
    move. *)
Theorem negamax_boolean_keeps_entries fuel depth e e' o :
  undo_restores →
  negamax_boolean fuel depth e = (e', o) →
  (e_tt e : gmap Code (bool * option Point)) ⊆ e_tt e' ∧
  ∀ c r, TranspositionTable.lookup (e_tt e) c = Some r →
         TranspositionTable.lookup (e_tt e') c = Some r.
Proof.
  intros Hundo Hrun.
  cut ((e_tt e : gmap Code (bool * option Point)) ⊆ e_tt e').
  { intros Hsub. split; [exact Hsub|]. intros c r Hc.
    unfold TranspositionTable.lookup, TranspositionTable.t in *.
    eapply lookup_weaken; eassumption. }
  revert depth e e' o Hrun.
  induction fuel as [|fuel IH]; intros depth e e' o Hrun.
  { now injection Hrun as <- <-. }
  rewrite negamax_boolean_S in Hrun.
  run_step Hrun; [now injection Hrun as <- <-|].
  run_step Hrun; [now injection Hrun as <- <-|].
  run_step Hrun; [now injection Hrun as <- <-|].
  run_step Hrun; [now injection Hrun as <- <-|].
  apply try_moves_keeps with (b := e_board e) (t0 := e_tt e) in Hrun;
    try assumption; try reflexivity.
  - intros e1 e1' o1 Hr1. split; [now apply IH in Hr1|].
    intros r ->. now apply negamax_boolean_restores in Hr1.
  - intros m Hm. now apply sort_desc_In in Hm.
Qed.

(** *** The credit of the winning move *)

Lemma try_moves_credit rec depth
  (Hrec : ∀ e e' o, rec e = (e', o) → history_le (e_history e) (e_history e')) moves :
  ∀ e e' m s,
    try_moves rec depth moves e = (e', Ret (s, Some m)) →
    HistoryHeuristicTable.lookup (e_history e) m + depth ^ 2
    ≤ HistoryHeuristicTable.lookup (e_history e') m.
Proof.
  induction moves as [|move rest IH]; intros e e' m s Hrun.
  - rewrite try_moves_nil in Hrun. run_step Hrun; discriminate.
  - rewrite try_moves_cons in Hrun.
    run_step Hrun; [discriminate|].
    run_step Hrun; [|discriminate|discriminate].
    apply Hrec in Hcall. simpl in Hcall.
    run_step Hrun; [discriminate|].
    run_step Hrun.
    + run_step Hrun; [discriminate|].
      run_step Hrun; [discriminate|]. injection Hrun as <- <- <-.
      simpl. rewrite history_update_same. destruct (Hcall move) as [_ Hle]. lia.
    + apply IH in Hrun. simpl in Hrun. destruct (Hcall m) as [_ Hle]. lia.
Qed.

(** X4.  When a call misses the table and returns a move, the history
    score of that move has grown by at least [depth^2] over the call (by
    exactly the [update(move, depth)] of this level, on top of what the
    calls below added); a call answered from the table changes no score. *)
Theorem negamax_boolean_credit fuel depth e e' s m :
  negamax_boolean fuel depth e = (e', Ret (s, Some m)) →
  (TranspositionTable.lookup (e_tt e) (code (e_board e)) = None →
   HistoryHeuristicTable.lookup (e_history e) m + depth ^ 2
   ≤ HistoryHeuristicTable.lookup (e_history e') m) ∧
  (TranspositionTable.lookup (e_tt e) (code (e_board e)) ≠ None →
   e_history e' = e_history e).
Proof.
  intros Hrun. destruct fuel as [|fuel]; [discriminate|].
  rewrite negamax_boolean_S in Hrun.
  run_step Hrun; [discriminate|].
  run_step Hrun.
  - injection Hrun as <- _. split; [discriminate|reflexivity].
  - split; [intros _|congruence].
    run_step Hrun; [discriminate|].
    run_step Hrun; [discriminate|].
    apply try_moves_credit in Hrun; [exact Hrun|].
    intros e1 e1' o1. apply negamax_boolean_history.
Qed.

End SolverMore.

(** * The alarm does not change an answer *)

Section Later.
Context {Board Code : Type} `{BoardOps Board Code}.
Implicit Types (e : Env Board Code) (b : Board) (move m : Point) (depth : Z).

Lemma later_step e a' :
  later (e_alarm e) a' →
  fires e = false →
  fires (set_alarm a' e) = false ∧ later (rest_alarm (e_alarm e)) (rest_alarm a').
Proof.
  unfold fires. simpl. intros Hl. inversion Hl as [a Ha|n k Hn Hk]; subst.
  - intros _. split; [reflexivity|constructor].
  - destruct n as [|n]; [discriminate|]. intros _. simpl.
    split; [reflexivity|apply later_by].
Qed.

Lemma try_moves_later rec depth
  (Hrec : ∀ e e' r a', later (e_alarm e) a' → rec e = (e', Ret r) →
            ∃ a'', later (e_alarm e') a'' ∧ rec (set_alarm a' e) = (set_alarm a'' e', Ret r))
  moves :
  ∀ e e' r a',
    later (e_alarm e) a' →
    try_moves rec depth moves e = (e', Ret r) →
    ∃ a'', later (e_alarm e') a'' ∧
           try_moves rec depth moves (set_alarm a' e) = (set_alarm a'' e', Ret r).
Proof.
  induction moves as [|move rest IH]; intros e e' r a' Hl Hrun.
  - rewrite try_moves_nil in Hrun |- *.
    run_step Hrun; run_done Hrun.
    destruct (later_step e a' Hl Hfire) as [-> Hl1].
    exists (rest_alarm a'). split; [exact Hl1|reflexivity].
  - rewrite try_moves_cons in Hrun |- *.
    run_step Hrun; [run_done Hrun|].
    destruct (later_step e a' Hl Hfire) as [-> Hl1].
    change (played move (set_alarm a' e))
      with (set_alarm (rest_alarm a') (played move e)).
    run_step Hrun; [|run_done Hrun|run_done Hrun].
    destruct (Hrec (played move e) e2 r0 (rest_alarm a') Hl1 Hcall)
      as (a2 & Hl2 & ->).
    run_step Hrun; [run_done Hrun|].
    destruct (later_step e2 a2 Hl2 Hfire0) as [-> Hl3].
    change (undone move (set_alarm a2 e2))
      with (set_alarm (rest_alarm a2) (undone move e2)).
    run_step Hrun.
    + run_step Hrun; [run_done Hrun|].
      destruct (later_step (undone move e2) (rest_alarm a2) Hl3 Hfire1) as [-> Hl4].
      change (updated move depth (set_alarm (rest_alarm a2) (undone move e2)))
        with (set_alarm (rest_alarm (rest_alarm a2)) (updated move depth (undone move e2))).
      run_step Hrun; run_done Hrun.
      destruct (later_step (updated move depth (undone move e2))
                  (rest_alarm (rest_alarm a2)) Hl4 Hfire2) as [-> Hl5].
      exists (rest_alarm (rest_alarm (rest_alarm a2))). split; [exact Hl5|reflexivity].
    + now apply IH.
Qed.

Lemma negamax_boolean_later_any fuel :
  ∀ depth e e' r a',
    later (e_alarm e) a' →
    negamax_boolean fuel depth e = (e', Ret r) →
    ∃ a'', later (e_alarm e') a'' ∧
           negamax_boolean fuel depth (set_alarm a' e) = (set_alarm a'' e', Ret r).
Proof.
  induction fuel as [|fuel IH]; intros depth e e' r a' Hl Hrun; [discriminate|].
  rewrite negamax_boolean_S in Hrun |- *.
  run_step Hrun; [run_done Hrun|].
  destruct (later_step e a' Hl Hfire) as [-> Hl1].
  change (TranspositionTable.lookup (e_tt (set_alarm a' e)) (code (e_board (set_alarm a' e))))
    with (TranspositionTable.lookup (e_tt e) (code (e_board e))).
  run_step Hrun.
  - run_done Hrun. exists (rest_alarm a'). split; [exact Hl1|reflexivity].
  - change (probed (set_alarm a' e)) with (set_alarm (rest_alarm a') (probed e)).
    run_step Hrun; [run_done Hrun|].
    destruct (later_step (probed e) (rest_alarm a') Hl1 Hfire0) as [-> Hl2].
    change (generated (set_alarm (rest_alarm a') (probed e)))
      with (set_alarm (rest_alarm (rest_alarm a')) (generated (probed e))).
    run_step Hrun; [run_done Hrun|].
    destruct (later_step (generated (probed e)) (rest_alarm (rest_alarm a')) Hl2 Hfire1)
      as [-> Hl3].
    change (ordered (set_alarm a' e)) with (ordered e).
    change (probed (set_alarm (rest_alarm (rest_alarm a')) (generated (probed e))))
      with (set_alarm (rest_alarm (rest_alarm (rest_alarm a'))) (probed (generated (probed e)))).
    apply try_moves_later; [apply IH|exact Hl3|exact Hrun].
Qed.

(** X5.  More time does not change an answer.  If a search returns under
    an alarm, it returns the same result, with the same board, tables and
    calls on its collaborators, under any alarm due later and under none. *)
Theorem negamax_boolean_later fuel depth e e' r a' :
  later (e_alarm e) a' →
  negamax_boolean fuel depth e = (e', Ret r) →
  ∃ e'',
    negamax_boolean fuel depth (set_alarm a' e) = (e'', Ret r) ∧
    e_board e'' = e_board e' ∧ e_tt e'' = e_tt e' ∧
    e_history e'' = e_history e' ∧ e_log e'' = e_log e' ∧
    later (e_alarm e') (e_alarm e'').
Proof.
  intros Hl Hrun.
  destruct (negamax_boolean_later_any fuel depth e e' r a' Hl Hrun) as (a2 & Hl2 & Hrun2).
  exists (set_alarm a2 e'). split; [exact Hrun2|]. now repeat split.
Qed.

End Later.

(** * Further properties of [solve] *)

Section SolveMore.
Context {Board Code : Type} `{BoardOps Board Code}.
Implicit Types (e : Env Board Code) (g : GtpConnection Board Code) (b : Board).

Lemma later_not_due a a' :
  later a a' → a ≠ Some O → a' ≠ Some O.
Proof.
  intros Hl Ha. inversion Hl as [a0 Ha0|n k Hn Hk]; subst; [discriminate|].
  destruct n; [congruence|discriminate].
Qed.

(** X6.  More time does not change what [solve] answers.  If [solve]
    completes within its budget (it returns and its answer is not
    [unknown]), then with any larger budget it gives the same answer and
    leaves the connection in the same state. *)
Theorem solve_more_time fuel budget k args g g' :
  solve fuel budget args g = (g', Ret tt) →
  g_stdout g' ≠ g_stdout g ++ [reply "unknown"] →
  solve fuel (budget + k) args g = (g', Ret tt).
Proof.
  intros Hsolve Hans. unfold solve in *. cbn zeta in *.
  set (b := the_board g) in *.
  set (g0 := mkGtp _ _ _ _ _ _ _) in *.
  destruct (g_tt g0 !! size b) as [t|]; [|exact Hsolve].
  destruct (g_history_heuristic g0 !! size b) as [h|]; [|exact Hsolve].
  destruct (negamax_boolean fuel (count_steps b) (mkEnv b t h (Some budget) []))
    as [e [[s mv]|x|]] eqn:Hrun.
  - destruct (negamax_boolean_later_any fuel (count_steps b)
                (mkEnv b t h (Some budget) []) e (s, mv)
                (Some (budget + k)%nat) (later_by budget k) Hrun)
      as (a2 & Hl2 & Hrun2).
    change (set_alarm (Some (budget + k)%nat) (mkEnv b t h (Some budget) []))
      with (mkEnv b t h (Some (budget + k)%nat) []) in Hrun2.
    rewrite Hrun2.
    assert (e_alarm e ≠ Some O) as Hdue.
    { intros Hdue. rewrite Hdue in Hsolve. injection Hsolve as <-.
      apply Hans. reflexivity. }
    pose proof (later_not_due _ _ Hl2 Hdue) as Hdue2.
    change (e_alarm (set_alarm a2 e)) with a2.
    change (after_search g0 (size b) (set_alarm a2 e)) with (after_search g0 (size b) e).
    destruct (e_alarm e) as [[|n]|]; [congruence| |];
      (destruct a2 as [[|n2]|]; [congruence|exact Hsolve|exact Hsolve]).
  - destruct x; try discriminate. injection Hsolve as <-.
    exfalso. apply Hans. reflexivity.
  - discriminate.
Qed.

(** X7.  What [solve] answers when it completes, on a lawful board with a
    sound table: if the player to move has lost, the letter of the other
    player alone; if the player to move has a forced win, the letter of
    the player to move followed by the text of a winning move. *)
Theorem solve_reports_winner fuel budget args g g' t h :
  undo_restores → codes_distinct →
  g_tt g !! size (the_board g) = Some t →
  g_history_heuristic g !! size (the_board g) = Some h →
  tt_sound t →
  solve fuel budget args g = (g', Ret tt) →
  g_stdout g' ≠ g_stdout g ++ [reply "unknown"] →
  let b := the_board g in
  (Loss b → g_stdout g' = g_stdout g ++ [reply (other_letter b)]) ∧
  (Win b →
     ∃ m s,
       In m (legal b) ∧ Loss (next b m) ∧
       move_text MAXSIZE (size b) m = Ret s ∧
       g_stdout g' = g_stdout g ++ [reply (mover_letter b +:+ " " +:+ lower s)]).
Proof.
  intros Hundo Hinj Ht Hh Hsound Hsolve Hans. cbn zeta.
  unfold solve in Hsolve. cbn zeta in Hsolve.
  set (b := the_board g) in *.
  set (g0 := mkGtp _ _ _ _ _ _ _) in Hsolve.
  change (g_tt g0) with (g_tt g) in Hsolve.
  change (g_history_heuristic g0) with (g_history_heuristic g) in Hsolve.
  rewrite Ht, Hh in Hsolve.
  destruct (negamax_boolean fuel (count_steps b) _) as [e [[s mv]|x|]] eqn:Hrun.
  - destruct (negamax_boolean_sound Hundo Hinj fuel (count_steps b)
                (mkEnv b t h (Some budget) []) e (Ret (s, mv)) Hsound Hrun)
      as [_ Hret].
    destruct (Hret _ eq_refl) as [Hb Hok]. simpl in Hb, Hok.
    assert (report mv (after_search g0 (size b) e) = (g', Ret tt)) as Hrep.
    { destruct (e_alarm e) as [[|n]|]; [|exact Hsolve..].
      injection Hsolve as <-. exfalso. apply Hans. reflexivity. }
    clear Hsolve. unfold report in Hrep.
    rewrite the_board_after_search, Hb in Hrep.
    destruct s, mv as [m|]; simpl in Hok; try tauto.
    + destruct Hok as [Hin Hloss].
      split; [intros Hl; exfalso; apply (Win_not_Loss b); [now apply Win_move with m|exact Hl]|].
      intros _.
      destruct (point_to_coord (Some m) (size b)) as [c| |] eqn:Hc; try discriminate.
      destruct (format_point MAXSIZE c) as [txt| |] eqn:Htxt; try discriminate.
      injection Hrep as <-. exists m, txt.
      split; [exact Hin|]. split; [exact Hloss|].
      split; [unfold move_text; now rewrite Hc|reflexivity].
    + split; [|intros Hw; exfalso; exact (Win_not_Loss b Hw Hok)].
      intros _. now injection Hrep as <-.
  - destruct x; try discriminate. injection Hsolve as <-.
    exfalso. apply Hans. reflexivity.
  - discriminate.
Qed.

(** X8.  The tables stay sound through the commands: after [solve], also
    one whose search was interrupted, and after [genmove_cmd], every
    table of the connection is sound if every table was before; what an
    interrupted search has stored are results of positions it had settled. *)
Theorem commands_keep_tables_sound fuel budget args g :
  undo_restores → codes_distinct →
  tables_sound g →
  tables_sound (fst (solve fuel budget args g)) ∧
  tables_sound (fst (genmove_cmd fuel args g)).
Proof.
  intros Hundo Hinj Hg. split.
  - destruct (solve fuel budget args g) as [g' o] eqn:Hs.
    now apply (solve_tables_sound fuel budget args g g' o).
  - destruct (genmove_cmd fuel args g) as [g' o] eqn:Hs.
    now apply (genmove_cmd_tables_sound fuel args g g' o).
Qed.

End SolveMore.

(** * Coordinates and their text *)

Section CoordText.

Lemma digit_of_char (d : N) :
  (d < 10)%N →
  digit_value (pretty_N_char d) = Some (Z.of_N d) ∧
  is_space (pretty_N_char d) = false ∧
  lower_ascii (pretty_N_char d) = pretty_N_char d ∧
  Ascii.eqb (pretty_N_char d) "+" = false ∧
  Ascii.eqb (pretty_N_char d) "-" = false ∧
  Ascii.eqb (pretty_N_char d) "a" = false.
Proof.
  intros Hd.
  assert (d = 0 ∨ d = 1 ∨ d = 2 ∨ d = 3 ∨ d = 4 ∨ d = 5 ∨ d = 6 ∨ d = 7 ∨ d = 8 ∨ d = 9)%N
    as Hcases by lia.
  repeat (destruct Hcases as [->|Hcases]; [now vm_compute|]). subst d. now vm_compute.
Qed.

Lemma shift_zero fuel q : shift fuel 0 q = q.
Proof. now destruct fuel. Qed.

Lemma shift_value fuel :
  ∀ x, (N.to_nat x ≤ fuel)%nat → shift fuel x 0 = Z.of_N x.
Proof.
  induction fuel as [|fuel IH]; intros x Hx; simpl.
  - lia.
  - destruct (N.eqb_spec x 0%N) as [->|Hne]; [reflexivity|].
    rewrite IH.
    + rewrite (N.div_mod x 10) at 3 by lia. lia.
    + assert (x `div` 10 < x)%N by (apply N.div_lt; lia). lia.
Qed.

Lemma int_digits_pretty fuel :
  ∀ x s q ad,
    (N.to_nat x ≤ fuel)%nat → (0 < x)%N →
    int_digits (pretty_N_go x s) q ad = int_digits s (shift fuel x q) true.
Proof.
  induction fuel as [|fuel IH]; intros x s q ad Hx Hpos; [lia|].
  rewrite pretty_N_go_step by exact Hpos.
  assert (x `mod` 10 < 10)%N as Hd by (apply N.mod_lt; lia).
  destruct (digit_of_char _ Hd) as (Hv & _).
  simpl shift. destruct (N.eqb_spec x 0%N) as [->|_]; [lia|].
  destruct (N.eq_dec (x `div` 10)%N 0%N) as [Hz|Hnz].
  - rewrite Hz, pretty_N_go_0, shift_zero. simpl. now rewrite Hv.
  - rewrite IH.
    + simpl. now rewrite Hv.
    + assert (x `div` 10 < x)%N by (apply N.div_lt; lia). lia.
    + now apply N.neq_0_lt_0.
Qed.

Lemma all_digits_pretty x :
  ∀ s, all_digits s = true → all_digits (pretty_N_go x s) = true.
Proof.
  induction (N.lt_wf_0 x) as [x _ IH]; intros s Hs.
  destruct (decide (0 < x)%N) as [Hpos|Hz].
  - rewrite pretty_N_go_step by exact Hpos. apply IH.
    + apply N.div_lt; lia.
    + assert (x `mod` 10 < 10)%N as Hd by (apply N.mod_lt; lia).
      destruct (digit_of_char _ Hd) as (Hv & _). simpl. now rewrite Hv.
  - assert (x = 0%N) as -> by lia. now rewrite pretty_N_go_0.
Qed.

Lemma pretty_N_go_head x :
  ∀ c s, ∃ c' s', pretty_N_go x (String c s) = String c' s'.
Proof.
  induction (N.lt_wf_0 x) as [x _ IH]; intros c s.
  destruct (decide (0 < x)%N) as [Hpos|Hz].
  - rewrite pretty_N_go_step by exact Hpos. apply IH. apply N.div_lt; lia.
  - assert (x = 0%N) as -> by lia. rewrite pretty_N_go_0. eauto.
Qed.

(** The text of a positive row: digits, the first of them at the head. *)
Lemma pretty_row_shape (row : Z) :
  1 ≤ row →
  ∃ c s, pretty row = String c s ∧
         all_digits (String c s) = true ∧
         int_digits (String c s) 0 false = Some row.
Proof.
  intros Hrow. destruct row as [|p|p]; try lia.
  unfold pretty, pretty_Z, pretty, pretty_positive, pretty, pretty_N.
  destruct (decide (N.pos p = 0%N)); [discriminate|].
  assert (∃ c s, pretty_N_go (N.pos p) EmptyString = String c s) as (c & s & Hcs).
  { rewrite pretty_N_go_step by lia. apply pretty_N_go_head. }
  exists c, s. split; [exact Hcs|]. rewrite <- Hcs. split.
  - now apply all_digits_pretty.
  - rewrite (int_digits_pretty (N.to_nat (N.pos p))) by lia.
    simpl. rewrite shift_value by lia. reflexivity.
Qed.

Lemma all_digits_lower s : all_digits s = true → lower s = s.
Proof.
  induction s as [|c s IH]; simpl; [reflexivity|].
  intros Hs. apply andb_true_iff in Hs as [Hc Hs]. rewrite IH by exact Hs.
  f_equal. unfold digit_value in Hc. unfold lower_ascii.
  destruct (Nat.leb 48 (nat_of_ascii c) && Nat.leb (nat_of_ascii c) 57)%bool eqn:Hd;
    [|discriminate].
  apply andb_true_iff in Hd as [H1 H2]. apply Nat.leb_le in H1, H2.
  destruct (Nat.leb 65 (nat_of_ascii c)) eqn:H3; [|reflexivity].
  apply Nat.leb_le in H3. lia.
Qed.

Lemma digit_char_plain c :
  (match digit_value c with Some _ => true | None => false end) = true →
  is_space c = false ∧ Ascii.eqb c "+" = false ∧ Ascii.eqb c "-" = false.
Proof.
  unfold digit_value, is_space.
  destruct (Nat.leb 48 (nat_of_ascii c) && Nat.leb (nat_of_ascii c) 57)%bool eqn:Hd;
    [intros _|discriminate].
  apply andb_true_iff in Hd as [H1 H2]. apply Nat.leb_le in H1, H2.
  split; [|split].
  - apply orb_false_iff. split; apply andb_false_iff; right; apply Nat.leb_gt; lia.
  - apply Ascii.eqb_neq. intros ->. vm_compute in H1. lia.
  - apply Ascii.eqb_neq. intros ->. vm_compute in H1. lia.
Qed.

Lemma int_space_is_space c : is_int_space c = true → is_space c = true.
Proof.
  unfold is_int_space, is_space. intros Hc.
  apply orb_true_iff in Hc as [Hc|Hc]; apply orb_true_iff; [now left|right].
  apply Nat.eqb_eq in Hc. now rewrite Hc.
Qed.

Lemma py_int_digits c s :
  all_digits (String c s) = true →
  py_int (String c s) = int_digits (String c s) 0 false.
Proof.
  intros Hs. simpl in Hs. apply andb_true_iff in Hs as [Hc _].
  destruct (digit_char_plain c Hc) as (Hsp & Hplus & Hminus).
  assert (is_int_space c = false) as Hisp.
  { destruct (is_int_space c) eqn:Hi; [|reflexivity].
    apply int_space_is_space in Hi. congruence. }
  unfold py_int. cbn [lstrip_int]. now rewrite Hisp, Hplus, Hminus.
Qed.

Lemma get_in_range s :
  ∀ n c, String.get n s = Some c → (n < String.length s)%nat.
Proof.
  induction s as [|c0 s IH]; intros n c; simpl; [discriminate|].
  destruct n as [|n]; [lia|]. intros Hg. apply IH in Hg. lia.
Qed.

(** [s[i]] succeeds only for an index within the text, from either end. *)
Lemma py_index_in_range s i c :
  py_index s i = Ret c →
  - Z.of_nat (String.length s) ≤ i < Z.of_nat (String.length s).
Proof.
  unfold py_index.
  destruct (Z.ltb_spec i 0) as [Hneg|Hpos].
  - destruct (Z.ltb_spec (i + Z.of_nat (String.length s)) 0); [discriminate|].
    destruct (String.get _ s) eqn:Hg; [|discriminate]. intros _. lia.
  - destruct (Z.ltb_spec i 0); [lia|].
    destruct (String.get _ s) eqn:Hg; [|discriminate]. intros _.
    apply get_in_range in Hg. lia.
Qed.

(** The letters of the columns, one by one. *)
Lemma column_letter (col : Z) :
  0 ≤ col < 26 →
  ∃ c, py_index column_letters (col - 1) = Ret c ∧
       let n := Z.of_nat (nat_of_ascii c) in
       65 ≤ n ≤ 90 ∧ n ≠ 73 ∧
       (1 ≤ col →
        let l := Z.of_nat (nat_of_ascii (lower_ascii c)) in
        97 ≤ l ≤ 122 ∧ l ≠ 105 ∧ (if Z.ltb l 105 then l - 97 + 1 else l - 97) = col ∧
        lower_ascii (lower_ascii c) = lower_ascii c).
Proof.
  intros Hcol.
  assert (∃ k, col = Z.of_nat k ∧ (k < 26)%nat) as (k & -> & Hk).
  { exists (Z.to_nat col). lia. }
  do 26 (destruct k as [|k];
         [eexists; split; [vm_compute; reflexivity|]; vm_compute; intuition discriminate|]).
  lia.
Qed.

(** X9.  [format_point] on a pair of coordinates, for [MAXSIZE] up to 26:
    it raises [ValueError] exactly when the row or the column is outside
    [0 .. MAXSIZE - 1], and never [IndexError]; otherwise the text is one
    capital letter other than I followed by the row in decimal.  Column 0
    is not refused: it is printed with the last letter, Z. *)
Theorem format_point_cases maxsize row col :
  maxsize ≤ 26 →
  (0 ≤ row < maxsize ∧ 0 ≤ col < maxsize →
   ∃ c, format_point maxsize (CRowCol row col) = Ret (String c (pretty row)) ∧
        65 ≤ Z.of_nat (nat_of_ascii c) ≤ 90 ∧ Z.of_nat (nat_of_ascii c) ≠ 73) ∧
  (¬ (0 ≤ row < maxsize ∧ 0 ≤ col < maxsize) →
   format_point maxsize (CRowCol row col) = Raise ValueError) ∧
  (0 ≤ row < maxsize → 0 < maxsize →
   format_point maxsize (CRowCol row 0) = Ret (String "Z" (pretty row))).
Proof.
  intros Hmax. unfold format_point. split; [|split].
  - intros [Hr Hc].
    destruct (column_letter col) as (c & Hidx & Hn & Hi & _); [lia|].
    exists c. rewrite Hidx.
    replace (negb ((0 <=? row) && (row <? maxsize)) || negb ((0 <=? col) && (col <? maxsize)))
      with false; [now split|].
    symmetry. apply orb_false_iff. split; apply negb_false_iff, andb_true_iff;
      split; first [apply Z.leb_le|apply Z.ltb_lt]; lia.
  - intros Hout.
    replace (negb ((0 <=? row) && (row <? maxsize)) || negb ((0 <=? col) && (col <? maxsize)))
      with true; [reflexivity|].
    symmetry. apply orb_true_iff.
    destruct (Z.leb_spec 0 row), (Z.ltb_spec row maxsize),
      (Z.leb_spec 0 col), (Z.ltb_spec col maxsize); simpl; auto; lia.
  - intros Hr Hpos.
    replace (negb ((0 <=? row) && (row <? maxsize)) || negb ((0 <=? 0) && (0 <? maxsize)))
      with false; [reflexivity|].
    symmetry. apply orb_false_iff. split; apply negb_false_iff, andb_true_iff;
      split; first [apply Z.leb_le|apply Z.ltb_lt]; lia.
Qed.

(** X10.  Round trip.  The text [format_point] gives for a point of the
    board is read back by [move_to_coord] as the same row and column, as
    printed and in lower case, the form in which [genmove_cmd] answers. *)
Theorem move_to_coord_format_point maxsize size row col s :
  2 ≤ size ≤ maxsize →
  1 ≤ row ≤ size → 1 ≤ col ≤ size →
  format_point maxsize (CRowCol row col) = Ret s →
  move_to_coord maxsize s size = Parsed (CRowCol row col) ∧
  move_to_coord maxsize (lower s) size = Parsed (CRowCol row col).
Proof.
  intros Hsize Hrow Hcol Hfmt. unfold format_point in Hfmt.
  destruct (negb _ || negb _); [discriminate|].
  assert (0 ≤ col < 26) as Hc26.
  { destruct (py_index column_letters (col - 1)) as [c0| |] eqn:Hidx;
      try discriminate.
    apply py_index_in_range in Hidx. simpl in Hidx. lia. }
  destruct (column_letter col Hc26) as (c & Hidx & _ & _ & Hlow).
  destruct (Hlow ltac:(lia)) as (Hl & Hi & Hval & Hidem).
  rewrite Hidx in Hfmt. injection Hfmt as <-.
  destruct (pretty_row_shape row ltac:(lia)) as (d & ds & Hp & Hdig & Hint).
  rewrite Hp.
  assert (∀ t, lower t = String (lower_ascii c) (String d ds) →
               move_to_coord maxsize t size = Parsed (CRowCol row col)) as Hread.
  { intros t Ht. unfold move_to_coord.
    replace (negb ((2 <=? size) && (size <=? maxsize))) with false
      by (symmetry; apply negb_false_iff, andb_true_iff; split; apply Z.leb_le; lia).
    cbn zeta. rewrite Ht.
    assert ((String (lower_ascii c) (String d ds) =? "pass")%string = false) as ->.
    { apply String.eqb_neq. intros [= _ Hd _]. simpl in Hdig.
      apply andb_true_iff in Hdig as [Hdv _]. subst d. vm_compute in Hdv. discriminate. }
    replace (negb ((97 <=? Z.of_nat (nat_of_ascii (lower_ascii c)))
                   && (Z.of_nat (nat_of_ascii (lower_ascii c)) <=? 122))
             || (Z.of_nat (nat_of_ascii (lower_ascii c)) =? 105)) with false.
    2:{ symmetry. apply orb_false_iff. split.
        - apply negb_false_iff, andb_true_iff; split; apply Z.leb_le; lia.
        - apply Z.eqb_neq. exact Hi. }
    rewrite py_int_digits, Hint by exact Hdig. rewrite Hval.
    replace (row <? 1) with false by (symmetry; apply Z.ltb_ge; lia).
    replace (negb ((col <=? size) && (row <=? size))) with false
      by (symmetry; apply negb_false_iff, andb_true_iff; split; apply Z.leb_le; lia).
    reflexivity. }
  assert (lower (String d ds) = String d ds) as Hld by (now apply all_digits_lower).
  assert (lower (String c (String d ds)) = String (lower_ascii c) (String d ds)) as Hl1.
  { change (lower (String c (String d ds)))
      with (String (lower_ascii c) (lower (String d ds))). now rewrite Hld. }
  split; apply Hread; [exact Hl1|].
  rewrite Hl1.
  change (lower (String (lower_ascii c) (String d ds)))
    with (String (lower_ascii (lower_ascii c)) (lower (String d ds))).
  now rewrite Hld, Hidem.
Qed.

(** X11.  What [move_to_coord] accepts.  Whenever it returns, the board
    size is within [2 .. MAXSIZE] (outside it every text is refused,
    [pass] included); coordinates it returns are on the board, row and
    column within [1 .. board_size], the column at most 25; and it returns
    [PASS] only for the text [pass], in any case of letters. *)
Theorem move_to_coord_on_board maxsize point_str board_size c :
  move_to_coord maxsize point_str board_size = Parsed c →
  2 ≤ board_size ≤ maxsize ∧
  match c with
  | CPass => lower point_str = "pass"%string
  | CRowCol row col =>
      1 ≤ row ≤ board_size ∧ 1 ≤ col ≤ board_size ∧ col ≤ 25 ∧
      lower point_str ≠ "pass"%string
  end.
Proof.
  unfold move_to_coord.
  destruct (Z.leb_spec 2 board_size), (Z.leb_spec board_size maxsize); simpl;
    try discriminate.
  destruct (String.eqb_spec (lower point_str) "pass") as [Hpass|Hpass].
  { intros [= <-]. split; [lia|exact Hpass]. }
  destruct (lower point_str) as [|col_c rest]; [discriminate|].
  set (n := Z.of_nat (nat_of_ascii col_c)).
  destruct (Z.leb_spec 97 n), (Z.leb_spec n 122), (Z.eqb_spec n 105); simpl;
    try discriminate.
  destruct (py_int rest) as [row|]; [|discriminate].
  destruct (Z.ltb_spec row 1); [discriminate|].
  destruct (Z.ltb_spec n 105);
    (match goal with
     | |- context [?a <=? board_size] => destruct (Z.leb_spec a board_size)
     end; simpl; try discriminate;
     destruct (Z.leb_spec row board_size); simpl; try discriminate;
     intros [= <-]; repeat split; try lia; exact Hpass).
Qed.

End CoordText.

(** * Further properties of the commands *)

Section CommandsMore.
Context {Board Code : Type} `{BoardOps Board Code} `{BoardAdmin Board}.
Implicit Types (e : Env Board Code) (g : GtpConnection Board Code) (b : Board).

(** X12.  The time limit stays within [1 .. 100]: [timelimit_cmf] sets it
    only to a value in that range, and then answers; for any other number
    it changes nothing and answers nothing.  The board and the tables are
    not touched. *)
Theorem timelimit_cmf_range args g g' o :
  timelimit_cmf args g = (g', o) →
  (1 ≤ g_timelimit g ≤ 100 → 1 ≤ g_timelimit g' ≤ 100) ∧
  the_board g' = the_board g ∧ g_tt g' = g_tt g ∧
  g_history_heuristic g' = g_history_heuristic g ∧
  (∀ a0 rest a, args = a0 :: rest → py_int a0 = Some a →
     if Z.leb 1 a && Z.leb a 100
     then g_timelimit g' = a ∧ g_stdout g' = g_stdout g ++ [reply EmptyString] ∧ o = Ret tt
     else g' = g ∧ o = Ret tt).
Proof.
  unfold timelimit_cmf. intros Hrun.
  destruct args as [|a0 rest].
  { injection Hrun as <- <-. split; [tauto|]. do 3 (split; [reflexivity|]).
    intros a0 rest a [=]. }
  destruct (py_int a0) as [a|] eqn:Ha.
  2:{ injection Hrun as <- <-. split; [tauto|]. do 3 (split; [reflexivity|]).
      intros a0' rest' a' [= <- <-] Ha'. congruence. }
  destruct (Z.leb 1 a && Z.leb a 100) eqn:Hrange; injection Hrun as <- <-.
  - apply andb_true_iff in Hrange as [Hlo Hhi]. apply Z.leb_le in Hlo, Hhi.
    split; [simpl; lia|]. do 3 (split; [reflexivity|]).
    intros a0' rest' a' [= <- <-] Ha'. rewrite Ha in Ha'. injection Ha' as <-.
    replace (1 <=? a) with true by (symmetry; now apply Z.leb_le).
    replace (a <=? 100) with true by (symmetry; now apply Z.leb_le).
    simpl. now repeat split.
  - split; [tauto|]. do 3 (split; [reflexivity|]).
    intros a0' rest' a' [= <- <-] Ha'. rewrite Ha in Ha'. injection Ha' as <-.
    rewrite Hrange. now split.
Qed.

Lemma reset_tables sz g :
  dom (g_tt g) = dom (g_history_heuristic g) →
  g_tt g ⊆ g_tt (reset sz g) ∧
  g_history_heuristic g ⊆ g_history_heuristic (reset sz g) ∧
  dom (g_tt (reset sz g)) = dom (g_history_heuristic (reset sz g)) ∧
  is_Some (g_tt (reset sz g) !! sz) ∧
  is_Some (g_history_heuristic (reset sz g) !! sz).
Proof.
  intros Hdom. unfold reset. simpl.
  destruct (g_tt g !! sz) as [t|] eqn:Ht; simpl.
  - split; [reflexivity|]. split; [reflexivity|]. split; [exact Hdom|].
    split; [eauto|]. apply elem_of_dom. rewrite <- Hdom. apply elem_of_dom. eauto.
  - assert (g_history_heuristic g !! sz = None) as Hh.
    { apply not_elem_of_dom. rewrite <- Hdom. now apply not_elem_of_dom. }
    split; [now apply insert_subseteq|]. split; [now apply insert_subseteq|].
    split; [now rewrite !dom_insert_L, Hdom|].
    rewrite !lookup_insert_eq. eauto.
Qed.

(** X13.  [reset] makes tables once per size and keeps them: when the
    connection has a history table wherever it has a transposition table
    (as [__init__] sets it up), [reset(size)] leaves every table it has
    as it is, adds the two empty tables only for a size it has none for,
    and keeps the two kinds of table in step; [clear_board_cmd] therefore
    forgets no solved position. *)
Theorem reset_keeps_tables sz args g :
  dom (g_tt g) = dom (g_history_heuristic g) →
  (∀ s t, g_tt g !! s = Some t → g_tt (reset sz g) !! s = Some t) ∧
  (∀ s h, g_history_heuristic g !! s = Some h →
          g_history_heuristic (reset sz g) !! s = Some h) ∧
  (g_tt g !! sz = None →
   g_tt (reset sz g) !! sz = Some TranspositionTable.init ∧
   g_history_heuristic (reset sz g) !! sz = Some HistoryHeuristicTable.init) ∧
  dom (g_tt (reset sz g)) = dom (g_history_heuristic (reset sz g)) ∧
  g_tt (fst (clear_board_cmd args g)) = g_tt (reset (size (the_board g)) g) ∧
  (is_Some (g_tt g !! size (the_board g)) →
   g_tt (fst (clear_board_cmd args g)) = g_tt g ∧
   g_history_heuristic (fst (clear_board_cmd args g)) = g_history_heuristic g).
Proof.
  intros Hdom. destruct (reset_tables sz g Hdom) as (Ht & Hh & Hd & _).
  split; [intros s t Hs; eapply lookup_weaken; eassumption|].
  split; [intros s h Hs; eapply lookup_weaken; eassumption|].
  split.
  { intros Hnone. unfold reset. simpl. rewrite Hnone. simpl.
    now rewrite !lookup_insert_eq. }
  split; [exact Hd|]. split; [reflexivity|].
  intros [t Hsome]. unfold clear_board_cmd, reset. simpl. now rewrite Hsome.
Qed.

Lemma the_board_reset sz g :
  the_board (reset sz g) = board_reset (the_board g) sz.
Proof. unfold the_board, reset, set_object. simpl. now rewrite Nat.eqb_refl. Qed.

Lemma report_not_KeyError mv g g' o :
  report mv g = (g', o) → o ≠ Raise KeyError.
Proof.
  unfold report. intros Hrep.
  destruct mv as [m|]; [|now injection Hrep as <- <-].
  unfold point_to_coord in Hrep. destruct (_ =? 0); [now injection Hrep as <- <-|].
  unfold format_point in Hrep. destruct (_ || _); [now injection Hrep as <- <-|].
  unfold py_index in Hrep. destruct (_ <? 0); [now injection Hrep as <- <-|].
  destruct (String.get _ _); now injection Hrep as <- <-.
Qed.

(** X14.  After [boardsize_cmd] or [clear_board_cmd] the tables [solve]
    and [genmove_cmd] index by the size of the board exist, provided the
    board has the size it was reset to: [solve] then raises no
    [KeyError], and [genmove_cmd] none for a colour letter it knows. *)
Theorem reset_then_search sz g fuel budget args a0 color :
  dom (g_tt g) = dom (g_history_heuristic g) →
  size (board_reset (the_board g) sz) = sz →
  color_to_int (lower a0) = Some color →
  let g1 := reset sz g in
  tables_ready g1 ∧
  snd (solve fuel budget args g1) ≠ Raise KeyError ∧
  snd (genmove_cmd fuel (a0 :: args) g1) ≠ Raise KeyError.
Proof.
  intros Hdom Hsize Hcolor. cbn zeta.
  destruct (reset_tables sz g Hdom) as (_ & _ & _ & Ht & Hh).
  assert (size (the_board (reset sz g)) = sz) as Hsz by (now rewrite the_board_reset).
  assert (tables_ready (reset sz g)) as Hready by (unfold tables_ready; now rewrite Hsz).
  split; [exact Hready|]. destruct Hready as [[t Ht1] [h Hh1]]. split.
  - unfold solve. cbn zeta.
    set (g1 := reset sz g) in *. set (b := the_board g1) in *.
    set (g0 := mkGtp _ _ _ _ _ _ _).
    change (g_tt g0) with (g_tt g1).
    change (g_history_heuristic g0) with (g_history_heuristic g1).
    rewrite Ht1, Hh1.
    destruct (negamax_boolean fuel (count_steps b) _) as [e [[s mv]|x|]] eqn:Hrun.
    + destruct (e_alarm e) as [[|n]|]; [discriminate| |];
        (destruct (report mv _) as [g2 o2] eqn:Hrep;
         now apply report_not_KeyError in Hrep).
    + apply negamax_boolean_raises in Hrun as ->. discriminate.
    + discriminate.
  - unfold genmove_cmd. rewrite Hcolor. cbn zeta.
    set (g1 := reset sz g) in *. set (b := the_board g1) in *.
    rewrite Ht1, Hh1.
    destruct (negamax_boolean fuel 0 _) as [e [[s [m|]]|x|]] eqn:Hrun;
      try discriminate.
    + unfold point_to_coord. destruct (_ =? 0); [discriminate|].
      unfold format_point. destruct (_ || _); [discriminate|].
      unfold py_index. destruct (_ <? 0); [discriminate|].
      destruct (String.get _ _); [|discriminate].
      destruct (is_legal _ _ _); discriminate.
    + apply negamax_boolean_raises in Hrun as ->. discriminate.
Qed.

Lemma move_to_coord_pass maxsize point_str board_size :
  move_to_coord maxsize point_str board_size = Parsed CPass →
  lower point_str = "pass"%string.
Proof.
  unfold move_to_coord. destruct (negb _); [discriminate|]. cbn zeta.
  destruct (String.eqb_spec (lower point_str) "pass") as [Hp|_]; [now intros _|].
  destruct (lower point_str) as [|c r]; [discriminate|].
  destruct (_ || _); [discriminate|].
  destruct (py_int r); [|discriminate].
  destruct (_ <? 1); [discriminate|]. destruct (negb _); discriminate.
Qed.

Lemma reply_illegal_not_empty (x : string) :
  reply ("illegal move: " +:+ x) ≠ reply EmptyString.
Proof. unfold reply. simpl. discriminate. Qed.

Lemma color_to_int_stone x c :
  color_to_int x = Some c → c = BLACK ∨ c = WHITE →
  (String.eqb x "b" || String.eqb x "w")%bool = true ∧
  c = (if String.eqb x "b" then BLACK else WHITE).
Proof.
  unfold color_to_int.
  destruct (String.eqb x "b"); [now intros [= <-]|].
  destruct (String.eqb x "w"); [now intros [= <-]|].
  destruct (String.eqb x "e"); [intros [= <-] [|]; discriminate|].
  destruct (String.eqb x "BORDER"); [intros [= <-] [|]; discriminate|discriminate].
Qed.

Lemma color_to_int_known x :
  (String.eqb x "b" || String.eqb x "w")%bool = true →
  ∃ c, color_to_int x = Some c ∧ (c = BLACK ∨ c = WHITE).
Proof.
  unfold color_to_int.
  destruct (String.eqb x "b"); [eauto|].
  destruct (String.eqb x "w"); [eauto|discriminate].
Qed.

(** X15.  [play_cmd] with a colour and a move: it never raises and answers
    exactly one line; the line is the empty success answer exactly when
    the colour is [b] or [w] (in either case of letter), the move reads
    as a point of the board and [play_move] accepts it, and then the board
    is as [play_move] left it; when the colour or the text of the move is
    refused, the board is not touched.  The tables are never touched, and
    the branch that reads [move] before binding it is not reached. *)
Theorem play_cmd_answers unbound a0 a1 rest g :
  ∃ g' line,
    play_cmd unbound (a0 :: a1 :: rest) g = (g', Ret tt) ∧
    g_stdout g' = g_stdout g ++ [line] ∧
    g_tt g' = g_tt g ∧ g_history_heuristic g' = g_history_heuristic g ∧
    (line = reply EmptyString ↔ play_accepted a0 a1 g) ∧
    (play_accepted a0 a1 g →
     ∃ color row col,
       color_to_int (lower a0) = Some color ∧
       move_to_coord MAXSIZE a1 (size (the_board g)) = Parsed (CRowCol row col) ∧
       the_board g' = snd (play_move (the_board g)
                             (coord_to_point row col (size (the_board g))) color)) ∧
    ((∀ c, move_to_coord MAXSIZE a1 (size (the_board g)) ≠ Parsed c) ∨
     (String.eqb (lower a0) "b" || String.eqb (lower a0) "w")%bool = false →
     the_board g' = the_board g) ∧
    (∀ unbound', play_cmd unbound' (a0 :: a1 :: rest) g = (g', Ret tt)).
Proof.
  unfold play_cmd. cbn zeta.
  destruct (String.eqb (lower a0) "b" || String.eqb (lower a0) "w")%bool eqn:Hstone.
  - (* a colour of stones *)
    assert (negb (String.eqb (lower a0) "b") && negb (String.eqb (lower a0) "w") = false)
      as -> by (now rewrite <- negb_orb, Hstone).
    destruct (color_to_int_known _ Hstone) as (color & Hcolor & Hbw). rewrite Hcolor.
    destruct (String.eqb_spec (lower a1) "pass") as [Hpass|Hpass].
    { eexists _, _. do 4 (split; [reflexivity|]).
      assert (¬ play_accepted a0 a1 g) as Hno.
      { intros (c' & row & col & _ & _ & Hparse & _).
        unfold move_to_coord in Hparse. destruct (negb _); [discriminate|].
        cbn zeta in Hparse. apply String.eqb_eq in Hpass. rewrite Hpass in Hparse.
        discriminate. }
      split; [split; [intros Habs; exfalso; revert Habs; apply reply_illegal_not_empty
                     |intros Hacc; now destruct Hno]|].
      split; [intros Hacc; now destruct Hno|]. split; reflexivity. }
    destruct (move_to_coord MAXSIZE a1 (size (the_board g))) as [[|row col]|msg] eqn:Hparse.
    + apply move_to_coord_pass in Hparse. contradiction.
    + destruct (fst (play_move (the_board g)
                       (coord_to_point row col (size (the_board g))) color)) eqn:Hplay;
        simpl negb; cbv iota.
      * eexists _, _. do 4 (split; [reflexivity|]).
        assert (play_accepted a0 a1 g) as Hacc.
        { exists color, row, col. now repeat split. }
        split; [split; [intros _; exact Hacc|reflexivity]|].
        split.
        { intros _. exists color, row, col.
          split; [first [exact Hcolor|reflexivity]|].
          split; [first [exact Hparse|reflexivity]|].
          now rewrite the_board_respond, the_board_play_on_board. }
        split; [|reflexivity].
        intros [Hnone|Hbad]; [now destruct (Hnone _ eq_refl)|discriminate].
      * eexists _, _. do 4 (split; [reflexivity|]).
        assert (¬ play_accepted a0 a1 g) as Hno.
        { intros (c' & row' & col' & Hc' & _ & Hp' & Hacc).
          rewrite Hparse in Hp'. injection Hp' as <- <-.
          rewrite Hcolor in Hc'. injection Hc' as <-. congruence. }
        split; [split; [intros Habs; exfalso; revert Habs; apply reply_illegal_not_empty
                       |intros Hacc; now destruct Hno]|].
        split; [intros Hacc; now destruct Hno|]. split; [|reflexivity].
        intros [Hnone|Hbad]; [now destruct (Hnone _ eq_refl)|discriminate].
    + eexists _, _. do 4 (split; [reflexivity|]).
      assert (¬ play_accepted a0 a1 g) as Hno.
      { intros (c' & row' & col' & _ & _ & Hp' & _). congruence. }
      split; [split; [intros Habs; exfalso; revert Habs; apply reply_illegal_not_empty
                     |intros Hacc; now destruct Hno]|].
      split; [intros Hacc; now destruct Hno|]. split; reflexivity.
  - (* any other colour *)
    assert (negb (String.eqb (lower a0) "b") && negb (String.eqb (lower a0) "w") = true)
      as -> by (now rewrite <- negb_orb, Hstone).
    eexists _, _. do 4 (split; [reflexivity|]).
    assert (¬ play_accepted a0 a1 g) as Hno.
    { intros (c' & row' & col' & Hc' & Hbw & _).
      destruct (color_to_int_stone _ _ Hc' Hbw) as [Hs _]. congruence. }
    split; [split; [intros Habs; exfalso; revert Habs; apply reply_illegal_not_empty
                   |intros Hacc; now destruct Hno]|].
    split; [intros Hacc; now destruct Hno|]. split; reflexivity.
Qed.

End CommandsMore.

(** * The history table is a counter *)

Section TableLaws.

Lemma history_lookup_other h move depth m :
  move ≠ m →
  HistoryHeuristicTable.lookup (HistoryHeuristicTable.update h move depth) m
  = HistoryHeuristicTable.lookup h m.
Proof.
  intros Hne. unfold HistoryHeuristicTable.lookup. now rewrite history_update_other.
Qed.

Lemma updates_lookup l :
  ∀ h m, HistoryHeuristicTable.lookup (updates l h) m
         = HistoryHeuristicTable.lookup h m + credit m l.
Proof.
  induction l as [|[mv d] l IH]; intros h m; simpl; [lia|].
  unfold updates in *. simpl. rewrite IH.
  destruct (decide (mv = m)) as [->|Hne].
  - rewrite history_update_same. lia.
  - now rewrite history_lookup_other.
Qed.

Lemma credit_nonneg m l : 0 ≤ credit m l.
Proof.
  induction l as [|[mv d] l IH]; simpl; [lia|].
  destruct (decide (mv = m)); [|exact IH].
  pose proof (Z.pow_even_nonneg d 2 ltac:(now exists 1)). simpl in *. lia.
Qed.

(** X16.  The history table is a counter per move: after any sequence of
    updates, [lookup] of a move gives what it gave before plus the squares
    of the depths the move was updated with, whichever of the two branches
    of [update] ran and whether the move was in the table or not; from a
    fresh table that is the sum of those squares, a number that is never
    negative. *)
Theorem history_table_counts l m :
  (∀ h, HistoryHeuristicTable.lookup (updates l h) m
        = HistoryHeuristicTable.lookup h m + credit m l) ∧
  HistoryHeuristicTable.lookup (updates l HistoryHeuristicTable.init) m = credit m l ∧
  0 ≤ credit m l.
Proof.
  split; [intros h; apply updates_lookup|]. split; [|apply credit_nonneg].
  rewrite updates_lookup. reflexivity.
Qed.

End TableLaws.

(** * From a point to its text *)

Section PointText.

Lemma point_to_coord_numbering size row col :
  0 ≤ size → 0 ≤ col ≤ size →
  point_to_coord (Some ((size + 1) * row + col)) size = Ret (CRowCol row col).
Proof.
  intros Hsize Hcol. unfold point_to_coord.
  destruct (Z.eqb_spec (size + 1) 0) as [Hz|_]; [lia|].
  assert (((size + 1) * row + col) `div` (size + 1) = row) as ->.
  { rewrite Z.mul_comm, Z.div_add_l by lia. rewrite Z.div_small by lia. lia. }
  assert (((size + 1) * row + col) `mod` (size + 1) = col) as ->.
  { rewrite Z.add_comm, Z.mul_comm, Z.mod_add by lia. apply Z.mod_small. lia. }
  reflexivity.
Qed.

Lemma format_point_raises maxsize c x :
  maxsize ≤ 26 → format_point maxsize c = Raise x → x = ValueError.
Proof.
  intros Hmax. unfold format_point. destruct c as [|row col]; [discriminate|].
  destruct (Z.leb_spec 0 row), (Z.ltb_spec row maxsize),
    (Z.leb_spec 0 col), (Z.ltb_spec col maxsize); simpl;
    try (now intros [= <-]).
  destruct (column_letter col) as (c & -> & _); [lia|discriminate].
Qed.

(** X17.  [point_to_coord] undoes the numbering of the points, row times
    [size + 1] plus column, and the text of a point is that of its row and
    column.  For [MAXSIZE] up to 26 every point of a board smaller than
    [MAXSIZE] has a text; on a board of size [MAXSIZE] the points of the
    last row and of the last column have none: [format_point] raises
    [ValueError] for them.  Whatever the point, only [ValueError] or, for
    the size -1, [ZeroDivisionError] is raised. *)
Theorem move_text_on_board maxsize size row col :
  0 ≤ size → 0 ≤ col ≤ size → maxsize ≤ 26 →
  point_to_coord (Some ((size + 1) * row + col)) size = Ret (CRowCol row col) ∧
  move_text maxsize size ((size + 1) * row + col) = format_point maxsize (CRowCol row col) ∧
  (0 ≤ row ≤ size → size < maxsize →
   ∃ c, move_text maxsize size ((size + 1) * row + col) = Ret (String c (pretty row))) ∧
  (size = maxsize → row = size ∨ col = size →
   move_text maxsize size ((size + 1) * row + col) = Raise ValueError) ∧
  (∀ p sz x, move_text maxsize sz p = Raise x →
             x = ValueError ∨ (x = ZeroDivisionError ∧ sz = -1)).
Proof.
  intros Hsize Hcol Hmax.
  pose proof (point_to_coord_numbering size row col Hsize Hcol) as Hpt.
  assert (move_text maxsize size ((size + 1) * row + col)
          = format_point maxsize (CRowCol row col)) as Htext
    by (unfold move_text, Point; now rewrite Hpt).
  split; [exact Hpt|]. split; [exact Htext|]. split; [|split].
  - intros Hrow Hlt. rewrite Htext. unfold format_point.
    replace (negb ((0 <=? row) && (row <? maxsize)) || negb ((0 <=? col) && (col <? maxsize)))
      with false.
    + destruct (column_letter col) as (c & -> & _); [lia|]. now exists c.
    + symmetry. apply orb_false_iff. split; apply negb_false_iff, andb_true_iff;
        split; first [apply Z.leb_le|apply Z.ltb_lt]; lia.
  - intros Hfull Hlast. rewrite Htext. unfold format_point.
    replace (negb ((0 <=? row) && (row <? maxsize)) || negb ((0 <=? col) && (col <? maxsize)))
      with true; [reflexivity|].
    symmetry. apply orb_true_iff.
    destruct (Z.ltb_spec row maxsize), (Z.ltb_spec col maxsize);
      rewrite ?andb_false_r; simpl; auto; lia.
  - intros p sz x. unfold move_text, point_to_coord.
    destruct (Z.eqb_spec (sz + 1) 0) as [Hz|_].
    + intros [= <-]. right. split; [reflexivity|lia].
    + intros Hx. left. eapply format_point_raises; eassumption.
Qed.

End PointText.

(** * What a search leaves alone *)

Section SearchFrame.
Context {Board Code : Type} `{BoardOps Board Code}.
Implicit Types (e : Env Board Code) (g : GtpConnection Board Code) (b : Board).

Lemma same_but_refl sz g : same_but sz g g.
Proof. now repeat split. Qed.

Lemma same_but_after_search g e t h :
  g_tt g !! size (the_board g) = Some t →
  g_history_heuristic g !! size (the_board g) = Some h →
  same_but (size (the_board g)) g (after_search g (size (the_board g)) e).
Proof.
  intros Ht Hh. unfold same_but, after_search. simpl.
  split; [reflexivity|].
  split; [apply dom_insert_lookup_L; eauto|].
  split; [apply dom_insert_lookup_L; eauto|].
  intros s Hs. now rewrite !lookup_insert_ne.
Qed.

Lemma report_frame mv g g' o :
  report mv g = (g', o) →
  g_timelimit g' = g_timelimit g ∧ g_tt g' = g_tt g ∧
  g_history_heuristic g' = g_history_heuristic g.
Proof.
  unfold report. intros Hrep.
  destruct mv as [m|]; [|injection Hrep as <- <-; now repeat split].
  destruct (point_to_coord _ _) as [c|x|];
    try (injection Hrep as <- <-; now repeat split).
  destruct (format_point _ _) as [s|x|]; injection Hrep as <- <-; now repeat split.
Qed.

Lemma solve_frame fuel budget args g g' o :
  solve fuel budget args g = (g', o) → same_but (size (the_board g)) g g'.
Proof.
  intros Hsolve. unfold solve in Hsolve. cbn zeta in Hsolve.
  set (b := the_board g) in *.
  set (g0 := mkGtp _ _ _ _ _ _ _) in Hsolve.
  change (g_tt g0) with (g_tt g) in Hsolve.
  change (g_history_heuristic g0) with (g_history_heuristic g) in Hsolve.
  destruct (g_tt g !! size b) as [t|] eqn:Ht;
    [|injection Hsolve as <- <-; now repeat split].
  destruct (g_history_heuristic g !! size b) as [h|] eqn:Hh;
    [|injection Hsolve as <- <-; now repeat split].
  assert (∀ e, same_but (size b) g (after_search g0 (size b) e)) as Hafter.
  { intros e. unfold same_but, after_search, g0. simpl.
    split; [reflexivity|].
    split; [apply dom_insert_lookup_L; eauto|].
    split; [apply dom_insert_lookup_L; eauto|].
    intros s Hs. now rewrite !lookup_insert_ne. }
  assert (∀ e, same_but (size b) g (timed_out (g_next g) (after_search g0 (size b) e)))
    as Hout by (intros e; exact (Hafter e)).
  destruct (negamax_boolean fuel (count_steps b) _) as [e [[s mv]|x|]].
  - destruct (e_alarm e) as [[|n]|];
      [injection Hsolve as <- <-; apply Hout
      |apply report_frame in Hsolve as (Hl & Ht' & Hh');
       destruct (Hafter e) as (H1' & H2' & H3' & H4');
       unfold same_but; rewrite Hl, Ht', Hh';
       exact (conj H1' (conj H2' (conj H3' H4')))..].
  - destruct x; injection Hsolve as <- <-; first [apply Hout|apply Hafter].
  - injection Hsolve as <- <-. apply Hafter.
Qed.

Lemma genmove_cmd_frame fuel args g g' o :
  genmove_cmd fuel args g = (g', o) → same_but (size (the_board g)) g g'.
Proof.
  intros Hgen. unfold genmove_cmd in Hgen.
  destruct args as [|a0 args]; [injection Hgen as <- <-; apply same_but_refl|].
  destruct (color_to_int (lower a0)) as [color|];
    [|injection Hgen as <- <-; apply same_but_refl].
  cbn zeta in Hgen. set (b := the_board g) in *.
  destruct (g_tt g !! size b) as [t|] eqn:Ht;
    [|injection Hgen as <- <-; apply same_but_refl].
  destruct (g_history_heuristic g !! size b) as [h|] eqn:Hh;
    [|injection Hgen as <- <-; apply same_but_refl].
  pose proof (λ e, same_but_after_search g e t h Ht Hh) as Hafter.
  fold b in Hafter.
  destruct (negamax_boolean fuel 0 _) as [e o1].
  destruct o1 as [[s [m|]]|x|]; try (injection Hgen as <- <-; apply Hafter).
  destruct (point_to_coord _ _) as [c| |]; try (injection Hgen as <- <-; apply Hafter).
  destruct (format_point _ _) as [txt| |]; try (injection Hgen as <- <-; apply Hafter).
  destruct (is_legal _ _ _); injection Hgen as <- <-; apply Hafter.
Qed.

(** X18.  A search keeps to the tables of the board's size.  After
    [solve] and after [genmove_cmd], however they end, the time limit is
    what it was, the connection has tables for the same sizes as before
    (a search makes none and drops none), and the tables of every other
    size are unchanged. *)
Theorem search_frame fuel budget args g :
  let changes g' :=
    g_timelimit g' = g_timelimit g ∧
    dom (g_tt g') = dom (g_tt g) ∧
    dom (g_history_heuristic g') = dom (g_history_heuristic g) ∧
    ∀ s, s ≠ size (the_board g) →
         g_tt g' !! s = g_tt g !! s ∧
         g_history_heuristic g' !! s = g_history_heuristic g !! s in
  changes (fst (solve fuel budget args g)) ∧
  changes (fst (genmove_cmd fuel args g)).
Proof.
  cbn zeta. split.
  - exact (solve_frame fuel budget args g _ _ (surjective_pairing _)).
  - exact (genmove_cmd_frame fuel args g _ _ (surjective_pairing _)).
Qed.

End SearchFrame.

(** * Reading and dispatching a command line *)

Section Words.

Lemma app_cons c (s t : string) : String c s +:+ t = String c (s +:+ t).
Proof. reflexivity. Qed.

Lemma app_empty_l (t : string) : EmptyString +:+ t = t.
Proof. reflexivity. Qed.

Lemma app_empty_r (s : string) : s +:+ EmptyString = s.
Proof. induction s as [|c s IH]; [reflexivity|]. now rewrite app_cons, IH. Qed.

Lemma app_assoc3 (s t u : string) : (s +:+ t) +:+ u = s +:+ (t +:+ u).
Proof. induction s as [|c s IH]; [reflexivity|]. now rewrite !app_cons, IH. Qed.

Lemma blank_is_space c : in_chars blank_chars c = true → is_space c = true.
Proof.
  unfold in_chars, blank_chars. simpl.
  destruct (Ascii.eqb_spec c " ") as [->|_]; [reflexivity|].
  destruct (Ascii.eqb_spec c "013") as [->|_]; [reflexivity|].
  destruct (Ascii.eqb_spec c "009") as [->|_]; [reflexivity|discriminate].
Qed.

Lemma rstrip_chars_empty chars s :
  rstrip_chars chars s = EmptyString ↔ all_in chars s = true.
Proof.
  induction s as [|c s IH]; simpl; [tauto|].
  destruct (rstrip_chars chars s) as [|c' r].
  - destruct (in_chars chars c); simpl.
    + split; [intros _; now apply IH|reflexivity].
    + split; discriminate.
  - split; [discriminate|]. intros Hall. apply andb_true_iff in Hall as [_ Hall].
    apply IH in Hall. discriminate.
Qed.

Lemma lstrip_chars_all_in chars s :
  all_in chars (lstrip_chars chars s) = all_in chars s.
Proof.
  induction s as [|c s IH]; simpl; [reflexivity|].
  destruct (in_chars chars c) eqn:Hc; simpl; [exact IH|now rewrite Hc].
Qed.

Lemma strip_empty chars s : strip chars s = EmptyString ↔ all_in chars s = true.
Proof. unfold strip. now rewrite rstrip_chars_empty, lstrip_chars_all_in. Qed.

Lemma strip_length chars s :
  Nat.eqb (String.length (strip chars s)) 0 = all_in chars s.
Proof.
  destruct (all_in chars s) eqn:Hall.
  - apply strip_empty in Hall. now rewrite Hall.
  - destruct (strip chars s) eqn:Hs; [|reflexivity].
    apply strip_empty in Hs. congruence.
Qed.

Lemma split_from_word tok :
  ∀ w rest, no_space tok = true →
            split_from w (tok +:+ rest) = split_from (w +:+ tok) rest.
Proof.
  induction tok as [|c tok IH]; intros w rest Htok.
  - now rewrite app_empty_r, app_empty_l.
  - rewrite app_cons. simpl. simpl in Htok. apply andb_true_iff in Htok as [Hc Htok].
    apply negb_true_iff in Hc. rewrite Hc, IH by exact Htok.
    now rewrite app_assoc3, app_cons, app_empty_l.
Qed.

Lemma split_from_blank w c rest :
  is_word w = true → is_space c = true →
  split_from w (String c rest) = w :: split_from EmptyString rest.
Proof. intros Hw Hc. simpl. rewrite Hc. destruct w; [discriminate|reflexivity]. Qed.

Lemma is_word_no_space w : is_word w = true → no_space w = true.
Proof. destruct w; [discriminate|intros Hw; exact Hw]. Qed.

(** The words of a line are read back by [split]. *)
Lemma split_words words :
  Forall (λ s, is_word s = true) words → words ≠ [] →
  split_from EmptyString (String.concat " " words +:+ newline) = words.
Proof.
  induction words as [|x words IH]; intros Hall Hne; [congruence|].
  apply Forall_cons in Hall as [Hx Hall].
  destruct words as [|y words].
  - simpl. rewrite split_from_word by (now apply is_word_no_space).
    rewrite app_empty_l. unfold newline.
    rewrite split_from_blank by (exact Hx || reflexivity).
    reflexivity.
  - change (String.concat " " (x :: y :: words))
      with (x +:+ " " +:+ String.concat " " (y :: words)).
    rewrite !app_assoc3.
    rewrite split_from_word by (now apply is_word_no_space).
    rewrite app_empty_l, app_cons, app_empty_l.
    rewrite split_from_blank by (exact Hx || reflexivity).
    now rewrite IH.
Qed.

Lemma drop_digits_number number rest :
  all_digits number = true → drop_digits (number +:+ rest) = drop_digits rest.
Proof.
  induction number as [|c number IH]; intros Hnum; [reflexivity|].
  rewrite app_cons. simpl. simpl in Hnum. apply andb_true_iff in Hnum as [Hc Hnum].
  unfold isdigit. destruct (digit_value c); [now apply IH|discriminate].
Qed.

Lemma digit_not_space c : isdigit c = true → is_space c = false ∧ c ≠ "#"%char.
Proof.
  unfold isdigit, digit_value, is_space.
  destruct (Nat.leb 48 (nat_of_ascii c)) eqn:Hlo; simpl; [|discriminate].
  destruct (Nat.leb (nat_of_ascii c) 57) eqn:Hhi; simpl; [|discriminate].
  intros _. split.
  - apply Nat.leb_le in Hlo.
    destruct (Nat.leb_spec (nat_of_ascii c) 13), (Nat.leb_spec (nat_of_ascii c) 32);
      rewrite ?andb_false_r; simpl; try reflexivity; lia.
  - intros ->. vm_compute in Hlo. discriminate.
Qed.

End Words.

Section DispatchFacts.
Context {Board Code : Type} `{BoardOps Board Code} `{BoardAdmin Board}.
Variables (fuel budget : nat) (unbound : string) (other : string → command Board Code).
Implicit Types (g : GtpConnection Board Code).

Lemma line_head name args :
  Forall (λ s, is_word s = true) (name :: args) →
  ∃ c nm rest,
    name = String c nm ∧
    String.concat " " (name :: args) +:+ newline = String c rest ∧
    is_space c = false.
Proof.
  intros Hwords. apply Forall_cons in Hwords as [Hname _].
  destruct name as [|c nm]; [discriminate|].
  simpl in Hname. apply andb_true_iff in Hname as [Hc _].
  apply negb_true_iff in Hc.
  destruct args as [|a args].
  - exists c, nm, (nm +:+ newline). now repeat split.
  - exists c, nm, ((nm +:+ " " +:+ String.concat " " (a :: args)) +:+ newline).
    now repeat split.
Qed.

Lemma not_blank c rest : is_space c = false → all_in blank_chars (String c rest) = false.
Proof.
  intros Hc. simpl. destruct (in_chars blank_chars c) eqn:Hb; [|reflexivity].
  apply blank_is_space in Hb. congruence.
Qed.

Lemma get_cmd_plain c rest g :
  is_space c = false → isdigit c = false → c ≠ "#"%char →
  get_cmd fuel budget unbound other (String c rest) g
  = match split (String c rest) with
    | [] => (g, Ret tt)
    | command_name :: args => run_command fuel budget unbound other command_name args g
    end.
Proof.
  intros Hsp Hdigit Hhash. unfold get_cmd. rewrite strip_length.
  rewrite not_blank by exact Hsp.
  destruct (Ascii.eqb_spec c "#") as [Heq|_]; [contradiction|].
  now rewrite Hdigit.
Qed.

Lemma get_cmd_numbered d rest g :
  isdigit d = true →
  get_cmd fuel budget unbound other (String d rest) g
  = match split (lstrip (drop_digits (String d rest))) with
    | [] => (g, Ret tt)
    | command_name :: args => run_command fuel budget unbound other command_name args g
    end.
Proof.
  intros Hd. destruct (digit_not_space d Hd) as [Hsp Hhash].
  unfold get_cmd. rewrite strip_length.
  rewrite not_blank by exact Hsp.
  destruct (Ascii.eqb_spec d "#") as [Heq|_]; [contradiction|].
  now rewrite Hd.
Qed.

Lemma get_cmd_indented rest g :
  all_in blank_chars rest = false →
  get_cmd fuel budget unbound other (String " " rest) g
  = match split rest with
    | [] => (g, Ret tt)
    | command_name :: args => run_command fuel budget unbound other command_name args g
    end.
Proof.
  intros Hrest. unfold get_cmd. rewrite strip_length.
  assert (all_in blank_chars (String " " rest) = false) as -> by exact Hrest.
  reflexivity.
Qed.

(** X19.  [get_cmd] reads a line as its words: a line made of a command
    name and arguments separated by single blanks and ended by a newline
    runs the command of that name on those arguments, provided the name
    starts neither with a digit nor with [#]; and so does the same line
    after a number and a blank (the numbering of regression tests), or
    after just a blank. *)
Theorem get_cmd_reads name args number g :
  Forall (λ s, is_word s = true) (name :: args) →
  (∀ c s, name = String c s → isdigit c = false ∧ c ≠ "#"%char) →
  all_digits number = true →
  get_cmd fuel budget unbound other (String.concat " " (name :: args) +:+ newline) g
  = run_command fuel budget unbound other name args g ∧
  get_cmd fuel budget unbound other
    (number +:+ " " +:+ String.concat " " (name :: args) +:+ newline) g
  = run_command fuel budget unbound other name args g.
Proof.
  intros Hwords Hfirst Hnum.
  pose proof (split_words (name :: args) Hwords ltac:(discriminate)) as Hsplit.
  destruct (line_head name args Hwords) as (c & nm & rest & Hname & Hline & Hsp).
  destruct (Hfirst c nm Hname) as [Hdigit Hhash].
  set (line := String.concat " " (name :: args) +:+ newline) in *.
  assert (split line = name :: args) as Hsplit' by exact Hsplit.
  split.
  { rewrite Hline, get_cmd_plain by assumption. now rewrite <- Hline, Hsplit'. }
  destruct number as [|d ds].
  - rewrite app_empty_l, app_cons, app_empty_l.
    rewrite get_cmd_indented by (rewrite Hline; now apply not_blank).
    now rewrite Hsplit'.
  - simpl in Hnum. apply andb_true_iff in Hnum as [Hd Hds].
    assert (isdigit d = true) as Hdd
      by (unfold isdigit; destruct (digit_value d); [reflexivity|discriminate]).
    assert (drop_digits (String d ds +:+ " " +:+ line) = String " " line) as Hdrop.
    { rewrite drop_digits_number; [reflexivity|].
      simpl. rewrite Hds. now destruct (digit_value d). }
    rewrite app_cons in *. rewrite get_cmd_numbered by exact Hdd.
    rewrite Hdrop.
    assert (lstrip (String " " line) = line) as ->.
    { change (lstrip (String " " line)) with (lstrip line).
      rewrite Hline. simpl. now rewrite Hsp. }
    now rewrite Hsplit'.
Qed.

(** *** What a command can raise *)

Lemma play_cmd_frame args g :
  g_tt (fst (play_cmd unbound args g)) = g_tt g ∧
  g_history_heuristic (fst (play_cmd unbound args g)) = g_history_heuristic g ∧
  ∀ a0 a1 rest, args = a0 :: a1 :: rest → snd (play_cmd unbound args g) = Ret tt.
Proof.
  unfold play_cmd. destruct args as [|a0 [|a1 rest]].
  - split; [reflexivity|]. split; [reflexivity|]. intros ? ? ? [=].
  - split; [reflexivity|]. split; [reflexivity|]. intros ? ? ? [=].
  - cbn zeta.
    destruct (negb _ && negb _);
      [split; [reflexivity|]; split; [reflexivity|]; reflexivity|].
    destruct (color_to_int _);
      [|split; [reflexivity|]; split; [reflexivity|]; reflexivity].
    destruct (String.eqb _ "pass");
      [split; [reflexivity|]; split; [reflexivity|]; reflexivity|].
    destruct (move_to_coord _ _ _) as [[|row col]|msg];
      try (split; [reflexivity|]; split; [reflexivity|]; reflexivity).
    destruct (negb _); split; [reflexivity| |reflexivity|]; split; reflexivity.
Qed.

Lemma report_raises mv g g' x :
  MAXSIZE ≤ 26 → report mv g = (g', Raise x) →
  x = ZeroDivisionError ∨ x = ValueError.
Proof.
  intros Hmax. unfold report. destruct mv as [m|]; [|discriminate].
  unfold point_to_coord. destruct (Z.eqb _ 0); [intros [= _ <-]; now left|].
  destruct (format_point _ _) as [s|y|] eqn:Hfmt; try discriminate.
  intros [= _ <-]. right. eapply format_point_raises; eassumption.
Qed.

Lemma solve_raises args g g' x :
  MAXSIZE ≤ 26 → solve fuel budget args g = (g', Raise x) →
  x = KeyError ∨ x = ZeroDivisionError ∨ x = ValueError.
Proof.
  intros Hmax Hsolve. unfold solve in Hsolve. cbn zeta in Hsolve.
  set (b := the_board g) in *.
  set (g0 := mkGtp _ _ _ _ _ _ _) in Hsolve.
  destruct (g_tt g0 !! size b) as [t|]; [|injection Hsolve as _ <-; now left].
  destruct (g_history_heuristic g0 !! size b) as [h|];
    [|injection Hsolve as _ <-; now left].
  destruct (negamax_boolean fuel (count_steps b) _) as [e [[s mv]|y|]] eqn:Hrun.
  - destruct (e_alarm e) as [[|n]|]; [discriminate| |];
      (apply report_raises in Hsolve; [right; exact Hsolve|exact Hmax]).
  - apply negamax_boolean_raises in Hrun. subst y. discriminate.
  - discriminate.
Qed.

Lemma genmove_cmd_raises a0 args g g' x :
  MAXSIZE ≤ 26 → genmove_cmd fuel (a0 :: args) g = (g', Raise x) →
  x = KeyError ∨ x = ZeroDivisionError ∨ x = ValueError.
Proof.
  intros Hmax Hgen. unfold genmove_cmd in Hgen.
  destruct (color_to_int (lower a0)) as [color|]; [|injection Hgen as _ <-; now left].
  cbn zeta in Hgen. set (b := the_board g) in *.
  destruct (g_tt g !! size b) as [t|]; [|injection Hgen as _ <-; now left].
  destruct (g_history_heuristic g !! size b) as [h|];
    [|injection Hgen as _ <-; now left].
  destruct (negamax_boolean fuel 0 _) as [e o1] eqn:Hrun.
  apply negamax_boolean_unarmed in Hrun as [_ Hno]; [|reflexivity].
  destruct o1 as [[s [m|]]|y|]; try discriminate.
  - unfold point_to_coord in Hgen.
    destruct (Z.eqb _ 0); [injection Hgen as _ <-; right; now left|].
    destruct (format_point _ _) as [txt|y|] eqn:Hfmt; try discriminate.
    + destruct (is_legal _ _ _); discriminate.
    + injection Hgen as _ <-. right. right.
      eapply format_point_raises; eassumption.
  - now destruct (Hno y).
Qed.

Lemma one_word (args : list string) :
  (1 =? Z.of_nat (length args)) = true → ∃ a0, args = [a0].
Proof.
  intros Hlen. apply Z.eqb_eq in Hlen.
  destruct args as [|a0 [|a1 args]]; simpl in Hlen; try lia. now exists a0.
Qed.

Lemma two_words (args : list string) :
  (2 =? Z.of_nat (length args)) = true → ∃ a0 a1, args = [a0; a1].
Proof.
  intros Hlen. apply Z.eqb_eq in Hlen.
  destruct args as [|a0 [|a1 [|a2 args]]]; simpl in Hlen; try lia. now exists a0, a1.
Qed.

(** X20.  What the six commands modelled can raise when they are run
    through [get_cmd], for [MAXSIZE] up to 26.  The check of the number of
    arguments comes first, so no handler fails on a missing argument:
    [IndexError] is never raised; [TimeoutError] never leaves [solve];
    [play] and [clear_board] raise nothing; [boardsize] and [timelimit]
    raise only the [ValueError] of a text that is no number; [genmove] and
    [solve] only [KeyError] (no tables for the size, or for [genmove] an
    unknown colour), [ZeroDivisionError] or [ValueError] (a point without
    text). *)
Theorem run_command_raises name args g g' x :
  MAXSIZE ≤ 26 →
  In name ["boardsize"; "clear_board"; "genmove"; "play"; "timelimit"; "solve"]%string →
  run_command fuel budget unbound other name args g = (g', Raise x) →
  (x = ValueError ∨
   ((x = KeyError ∨ x = ZeroDivisionError) ∧
    (name = "genmove"%string ∨ name = "solve"%string))) ∧
  name ≠ "play"%string ∧ name ≠ "clear_board"%string.
Proof.
  intros Hmax Hin Hrun. unfold run_command, has_arg_error in Hrun.
  simpl in Hin.
  destruct Hin as [<-|[<-|[<-|[<-|[<-|[<-|[]]]]]]].
  - (* boardsize *)
    change (argmap "boardsize") with (Some (1, "Usage: boardsize INT"%string)) in Hrun.
    change (commands fuel budget unbound other "boardsize")
      with (Some (boardsize_cmd (Board:=Board) (Code:=Code))) in Hrun.
    cbv beta iota in Hrun.
    destruct (1 =? Z.of_nat (length args)) eqn:Hlen; simpl in Hrun; [|discriminate].
    destruct (one_word args Hlen) as (a0 & ->). unfold boardsize_cmd in Hrun.
    destruct (py_int a0); [discriminate|]. injection Hrun as _ <-.
    split; [now left|]. split; discriminate.
  - (* clear_board *)
    change (argmap "clear_board") with (@None (Z * string)) in Hrun.
    change (commands fuel budget unbound other "clear_board")
      with (Some (clear_board_cmd (Board:=Board) (Code:=Code))) in Hrun.
    discriminate.
  - (* genmove *)
    change (argmap "genmove") with (Some (1, "Usage: genmove {w,b}"%string)) in Hrun.
    change (commands fuel budget unbound other "genmove")
      with (Some (genmove_cmd (Board:=Board) (Code:=Code) fuel)) in Hrun.
    cbv beta iota in Hrun.
    destruct (1 =? Z.of_nat (length args)) eqn:Hlen; simpl in Hrun; [|discriminate].
    destruct (one_word args Hlen) as (a0 & ->).
    apply genmove_cmd_raises in Hrun; [|exact Hmax].
    split; [|split; discriminate].
    destruct Hrun as [->|[->| ->]]; [right|right|left]; auto.
  - (* play *)
    change (argmap "play") with (Some (2, "Usage: play {b,w} MOVE"%string)) in Hrun.
    change (commands fuel budget unbound other "play")
      with (Some (play_cmd (Board:=Board) (Code:=Code) unbound)) in Hrun.
    cbv beta iota in Hrun.
    destruct (2 =? Z.of_nat (length args)) eqn:Hlen; simpl in Hrun; [|discriminate].
    destruct (two_words args Hlen) as (a0 & a1 & ->).
    destruct (play_cmd_frame [a0; a1] g) as (_ & _ & Hret).
    specialize (Hret a0 a1 [] eq_refl). rewrite Hrun in Hret. discriminate.
  - (* timelimit *)
    change (argmap "timelimit") with (Some (1, "Usage: timelimit seconds"%string)) in Hrun.
    change (commands fuel budget unbound other "timelimit")
      with (Some (timelimit_cmf (Board:=Board) (Code:=Code))) in Hrun.
    cbv beta iota in Hrun.
    destruct (1 =? Z.of_nat (length args)) eqn:Hlen; simpl in Hrun; [|discriminate].
    destruct (one_word args Hlen) as (a0 & ->). unfold timelimit_cmf in Hrun.
    destruct (py_int a0) as [a|].
    + destruct (_ && _); discriminate.
    + injection Hrun as _ <-. split; [now left|]. split; discriminate.
  - (* solve *)
    change (argmap "solve") with (@None (Z * string)) in Hrun.
    change (commands fuel budget unbound other "solve")
      with (Some (solve (Board:=Board) (Code:=Code) fuel budget)) in Hrun.
    apply solve_raises in Hrun; [|exact Hmax].
    split; [|split; discriminate].
    destruct Hrun as [->|[->| ->]]; [right|right|left]; auto.
Qed.

(** *** Lines that run no handler *)

Lemma unknown_name name :
  existsb (String.eqb name) command_names = false →
  argmap name = None ∧ commands fuel budget unbound other name = None.
Proof.
  intros Hname. unfold command_names in Hname. simpl in Hname.
  repeat (apply orb_false_iff in Hname as [? Hname]).
  unfold argmap, commands, command_names. simpl existsb.
  repeat match goal with
         | Heq : String.eqb name _ = false |- _ => rewrite Heq; clear Heq
         end.
  now split.
Qed.

(** X21.  Lines that run no handler.  A line of blanks, tabs and carriage
    returns and a line that starts with [#] do nothing at all.  A name
    that is not a key of [self.commands] is answered with the error line
    [? Unknown command], and a command with another number of arguments
    than [self.argmap] asks for with its usage line; in both cases no
    handler runs and nothing but the output changes. *)
Theorem get_cmd_rejects :
  (∀ command g,
     all_in blank_chars command = true ∨ (∃ s, command = String "#" s) →
     get_cmd fuel budget unbound other command g = (g, Ret tt)) ∧
  (∀ name args g,
     existsb (String.eqb name) command_names = false →
     run_command fuel budget unbound other name args g
     = (error "Unknown command" g, Ret tt)) ∧
  (∀ name args g n usage,
     argmap name = Some (n, usage) → Z.of_nat (length args) ≠ n →
     run_command fuel budget unbound other name args g = (error usage g, Ret tt)).
Proof.
  split; [|split].
  - intros command g [Hblank|[s ->]]; unfold get_cmd; rewrite strip_length.
    + now rewrite Hblank.
    + reflexivity.
  - intros name args g Hname. destruct (unknown_name name Hname) as [Harg Hcmd].
    unfold run_command, has_arg_error. now rewrite Harg, Hcmd.
  - intros name args g n usage Harg Hlen. unfold run_command, has_arg_error.
    rewrite Harg. destruct (Z.eqb_spec n (Z.of_nat (length args))); [congruence|].
    reflexivity.
Qed.

(** *** What a handler does to the tables *)

Lemma respond_moves_frame moves g :
  g_tt (fst (respond_moves moves g)) = g_tt g ∧
  g_history_heuristic (fst (respond_moves moves g)) = g_history_heuristic g ∧
  the_board (fst (respond_moves moves g)) = the_board g.
Proof.
  unfold respond_moves. destruct (format_moves _ _); now repeat split.
Qed.

(** A handler leaves the tables alone, or it is a reset, a search, or
    one of those not modelled. *)
Lemma commands_effect name cmd args g :
  commands fuel budget unbound other name = Some cmd →
  (g_tt (fst (cmd args g)) = g_tt g ∧
   g_history_heuristic (fst (cmd args g)) = g_history_heuristic g) ∨
  (∃ sz, fst (cmd args g) = respond EmptyString (reset sz g)) ∨
  cmd = genmove_cmd fuel ∨ cmd = solve fuel budget ∨ cmd = other name.
Proof.
  unfold commands.
  destruct (String.eqb name "boardsize").
  { intros [= <-]. unfold boardsize_cmd. destruct args as [|a0 args]; [now left|].
    destruct (py_int a0) as [n|]; [|now left]. right. left. now exists n. }
  destruct (String.eqb name "clear_board").
  { intros [= <-]. right. left. now eexists. }
  destruct (String.eqb name "genmove"); [intros [= <-]; tauto|].
  destruct (String.eqb name "play").
  { intros [= <-]. left. now destruct (play_cmd_frame args g) as (Ht & Hh & _). }
  destruct (String.eqb name "timelimit").
  { intros [= <-]. left. unfold timelimit_cmf. destruct args as [|a0 args]; [now split|].
    destruct (py_int a0); [|now split]. destruct (_ && _); now split. }
  destruct (String.eqb name "solve"); [intros [= <-]; tauto|].
  destruct (String.eqb name "known_command").
  { intros [= <-]. left. unfold known_command_cmd. destruct args as [|a0 args]; [now split|].
    destruct (existsb _ _); now split. }
  destruct (String.eqb name "list_commands"); [intros [= <-]; left; now split|].
  destruct (String.eqb name "legal_moves").
  { intros [= <-]. left. unfold legal_moves_cmd. destruct args as [|a0 args]; [now split|].
    destruct (color_to_int _); [|now split].
    now destruct (respond_moves_frame (generate_legal_moves (the_board g) c) g)
      as (Ht & Hh & _). }
  destruct (String.eqb name "gogui-rules_legal_moves").
  { intros [= <-]. left.
    now destruct (respond_moves_frame (playable (the_board g)) g) as (Ht & Hh & _). }
  destruct (String.eqb name "gogui-rules_final_result"); [intros [= <-]; left; now split|].
  destruct (String.eqb name "gogui-rules_side_to_move"); [intros [= <-]; left; now split|].
  destruct (String.eqb name "gogui-rules_board_size"); [intros [= <-]; left; now split|].
  destruct (String.eqb name "gogui-rules_game_id"); [intros [= <-]; left; now split|].
  destruct (String.eqb name "protocol_version"); [intros [= <-]; left; now split|].
  destruct (String.eqb name "gogui-analyze_commands"); [intros [= <-]; left; now split|].
  destruct (existsb _ _); [|discriminate].
  intros [= <-]. tauto.
Qed.

(** *** The two kinds of table stay in step *)

Lemma same_but_in_step sz g g' :
  same_but sz g g' → tables_in_step g → tables_in_step g'.
Proof.
  unfold tables_in_step. intros (_ & Ht & Hh & _) Hstep. now rewrite Ht, Hh.
Qed.

Lemma reset_in_step sz g : tables_in_step g → tables_in_step (reset sz g).
Proof. intros Hstep. now destruct (reset_tables sz g Hstep) as (_ & _ & Hd & _). Qed.

Lemma run_command_in_step name args g :
  (∀ name args g, tables_in_step g → tables_in_step (fst (other name args g))) →
  tables_in_step g →
  tables_in_step (fst (run_command fuel budget unbound other name args g)).
Proof.
  intros Hother Hstep. unfold run_command, has_arg_error.
  assert (∀ usage, tables_in_step (error usage g)) as Herr by (intros usage; exact Hstep).
  assert (∀ cmd : command Board Code,
            commands fuel budget unbound other name = Some cmd →
            tables_in_step (fst (cmd args g))) as Hcmd.
  { intros cmd Hcmd.
    destruct (commands_effect name cmd args g Hcmd)
      as [[Ht Hh]|[[sz Hreset]|[->|[->| ->]]]].
    - unfold tables_in_step. now rewrite Ht, Hh.
    - rewrite Hreset. now apply (reset_in_step sz).
    - eapply same_but_in_step; [|exact Hstep].
      eapply genmove_cmd_frame. apply surjective_pairing.
    - eapply same_but_in_step; [|exact Hstep].
      eapply solve_frame. apply surjective_pairing.
    - now apply Hother. }
  destruct (argmap name) as [[n usage]|].
  - destruct (negb _); [apply Herr|].
    destruct (commands fuel budget unbound other name) as [cmd|];
      [now apply Hcmd|apply Herr].
  - destruct (commands fuel budget unbound other name) as [cmd|];
      [now apply Hcmd|apply Herr].
Qed.

(** X22.  The two kinds of table stay in step along a session.  The
    connection [__init__] makes has a history table exactly for the sizes
    it has a transposition table for, and every line [get_cmd] runs keeps
    it so, provided the handlers not modelled here do: [solve] and
    [genmove_cmd] never find one of the two tables without the other. *)
Theorem tables_in_step_kept :
  (∀ board objects next,
     tables_in_step (GtpConnection_init (Code:=Code) board objects next)) ∧
  ((∀ name args g, tables_in_step g → tables_in_step (fst (other name args g))) →
   ∀ command g,
     tables_in_step g →
     tables_in_step (fst (get_cmd fuel budget unbound other command g)) ∧
     (is_Some (g_tt g !! size (the_board g)) ↔
      is_Some (g_history_heuristic g !! size (the_board g)))).
Proof.
  split.
  - intros board objects next. unfold tables_in_step, GtpConnection_init. simpl.
    now rewrite !dom_singleton_L.
  - intros Hother command g Hstep. split.
    + unfold get_cmd. destruct (Nat.eqb _ 0); [exact Hstep|].
      destruct command as [|c0 rest]; [exact Hstep|].
      destruct (Ascii.eqb c0 "#"); [exact Hstep|].
      destruct (split _) as [|name args]; [exact Hstep|].
      now apply run_command_in_step.
    + rewrite <- !elem_of_dom. unfold tables_in_step in Hstep. now rewrite Hstep.
Qed.

(** *** The commands the connection says it knows *)

Lemma commands_names name :
  is_Some (commands fuel budget unbound other name)
  ↔ existsb (String.eqb name) command_names = true.
Proof.
  unfold commands.
  repeat match goal with
         | |- context [if String.eqb name ?k then _ else _] =>
             destruct (String.eqb_spec name k) as [->|?]; [split; [reflexivity|eauto]|]
         end.
  destruct (existsb _ _); split; eauto; first [intros [? [=]]|discriminate].
Qed.

(** X23.  [known_command] and [list_commands] agree with the dispatch of
    [get_cmd].  [known_command] answers [true] for exactly the names that
    have a handler and [false] for all others, which are the names
    [get_cmd] answers with [? Unknown command]; and the words of the line
    [list_commands] answers are exactly the names that have a handler. *)
Theorem known_command_agrees name rest args g :
  (g_stdout (fst (known_command_cmd (name :: rest) g))
   = g_stdout g ++ [reply (match commands fuel budget unbound other name with
                          | Some _ => "true"
                          | None => "false"
                          end)]) ∧
  (g_stdout (fst (known_command_cmd (name :: rest) g)) = g_stdout g ++ [reply "false"] →
   run_command fuel budget unbound other name args g
   = (error "Unknown command" g, Ret tt)) ∧
  (∃ text, fst (list_commands_cmd args g) = respond text g ∧
           ∀ n, In n (split text) ↔ is_Some (commands fuel budget unbound other n)).
Proof.
  split; [|split].
  - unfold known_command_cmd.
    pose proof (commands_names name) as Hn.
    destruct (existsb _ _).
    + destruct (proj2 Hn eq_refl) as [cmd ->]. reflexivity.
    + destruct (commands fuel budget unbound other name) as [cmd|]; [|reflexivity].
      assert (false = true) by (apply Hn; eauto). discriminate.
  - unfold known_command_cmd.
    destruct (existsb (String.eqb name) command_names) eqn:Hname.
    + simpl. intros Hout. apply app_inv_head in Hout. discriminate.
    + intros _. destruct (unknown_name name Hname) as [Harg Hcmd].
      unfold run_command, has_arg_error. now rewrite Harg, Hcmd.
  - exists (String.concat " " command_names). split; [reflexivity|].
    assert (split (String.concat " " command_names) = command_names) as ->
      by (vm_compute; reflexivity).
    intros n. rewrite commands_names. rewrite existsb_exists. split.
    + intros Hin. exists n. split; [exact Hin|apply String.eqb_refl].
    + intros (k & Hin & Heq). apply String.eqb_eq in Heq. now subst.
Qed.

End DispatchFacts.

(** * Listing the moves *)

Section Listing.
Context {Board Code : Type} `{BoardOps Board Code} `{BoardAdmin Board}.
Implicit Types (g : GtpConnection Board Code) (b : Board).

Lemma insert_text_Permutation x l : insert_text x l ≡ₚ x :: l.
Proof.
  induction l as [|y l IH]; simpl; [reflexivity|].
  destruct (String.leb x y); [reflexivity|].
  rewrite IH. apply Permutation_swap.
Qed.

Lemma sorted_Permutation l : sorted l ≡ₚ l.
Proof.
  induction l as [|x l IH]; simpl; [reflexivity|].
  now rewrite insert_text_Permutation, IH.
Qed.

Lemma insert_text_ascending x l : ascending l → ascending (insert_text x l).
Proof.
  induction l as [|y l IH]; simpl; [tauto|]. intros [Hy Hl].
  destruct (String.leb x y) eqn:Hxy.
  - simpl. tauto.
  - assert (String.leb y x = true) as Hyx
      by (destruct (String.leb_total x y); congruence).
    specialize (IH Hl). split; [|exact IH].
    destruct l as [|z l]; simpl; [exact Hyx|].
    destruct (String.leb x z); [exact Hyx|exact Hy].
Qed.

Lemma sorted_ascending l : ascending (sorted l).
Proof.
  induction l as [|x l IH]; simpl; [exact I|]. now apply insert_text_ascending.
Qed.

Lemma format_moves_Ret moves sz :
  ∀ texts,
    format_moves (Board := Board) moves sz = Ret texts
    ↔ Forall2 (λ move s, move_text MAXSIZE sz move = Ret s) moves texts.
Proof.
  induction moves as [|move moves IH]; intros texts; simpl.
  - split; [intros [= <-]; constructor|intros Hall; now inversion Hall].
  - destruct (move_text MAXSIZE sz move) as [s|x|] eqn:Hs.
    + destruct (format_moves moves sz) as [l|x|] eqn:Hl.
      * split.
        -- intros [= <-]. constructor; [exact Hs|now apply IH].
        -- intros Hall. inversion Hall as [|? s' ? l' Hs' Hl']; subst.
           apply IH in Hl'. congruence.
      * split; [discriminate|]. intros Hall.
        inversion Hall as [|? s' ? l' Hs' Hl']; subst. apply IH in Hl'. discriminate.
      * split; [discriminate|]. intros Hall.
        inversion Hall as [|? s' ? l' Hs' Hl']; subst. apply IH in Hl'. discriminate.
    + split; [discriminate|]. intros Hall. inversion Hall; subst. congruence.
    + split; [discriminate|]. intros Hall. inversion Hall; subst. congruence.
Qed.

Lemma format_moves_Raise moves sz x :
  format_moves (Board := Board) moves sz = Raise x →
  ∃ move, In move moves ∧ move_text MAXSIZE sz move = Raise x.
Proof.
  induction moves as [|move moves IH]; simpl; [discriminate|].
  destruct (move_text MAXSIZE sz move) as [s|y|] eqn:Hs.
  - destruct (format_moves moves sz) as [l|y|]; try discriminate.
    intros [= <-]. destruct (IH eq_refl) as (m & Hin & Hm). exists m. tauto.
  - intros [= <-]. exists move. tauto.
  - discriminate.
Qed.

Lemma respond_moves_listed moves g :
  (∀ texts,
     Forall2 (λ move s, move_text MAXSIZE (size (the_board g)) move = Ret s) moves texts →
     respond_moves moves g = (respond (String.concat " " (sorted texts)) g, Ret tt) ∧
     sorted texts ≡ₚ texts ∧ ascending (sorted texts)) ∧
  (∀ x, snd (respond_moves moves g) = Raise x →
        fst (respond_moves moves g) = g ∧
        ∃ move, In move moves ∧ move_text MAXSIZE (size (the_board g)) move = Raise x).
Proof.
  split.
  - intros texts Hall. apply format_moves_Ret in Hall.
    unfold respond_moves. rewrite Hall.
    split; [reflexivity|]. split; [apply sorted_Permutation|apply sorted_ascending].
  - intros x. unfold respond_moves.
    destruct (format_moves moves _) as [l|y|] eqn:Hl; simpl; try discriminate.
    intros [= <-]. split; [reflexivity|]. now apply format_moves_Raise.
Qed.

(** X25.  What [legal_moves] and [gogui-rules_legal_moves] answer.  When
    every move to be listed has a text, the answer is those texts joined
    by blanks, each once per move and in ascending order as Python
    compares [str]; when some move has none, the error of that move is
    raised and nothing is written.  [legal_moves] lists what
    [generate_legal_moves] gives for the colour asked for and raises
    [KeyError] for a colour letter it does not know;
    [gogui-rules_legal_moves] lists the empty points [is_legal] accepts
    for the player to move. *)
Theorem legal_moves_listed a0 rest g :
  let b := the_board g in
  let listed moves result :=
    (∀ texts,
       Forall2 (λ move s, move_text MAXSIZE (size b) move = Ret s) moves texts →
       result = (respond (String.concat " " (sorted texts)) g, Ret tt) ∧
       sorted texts ≡ₚ texts ∧ ascending (sorted texts)) ∧
    (∀ x, snd result = Raise x →
          fst result = g ∧
          ∃ move, In move moves ∧ move_text MAXSIZE (size b) move = Raise x) in
  (∀ color, color_to_int (lower a0) = Some color →
            listed (generate_legal_moves b color) (legal_moves_cmd (a0 :: rest) g)) ∧
  (color_to_int (lower a0) = None →
   legal_moves_cmd (a0 :: rest) g = (g, Raise KeyError)) ∧
  listed (List.filter (λ move, is_legal b move (current_player b)) (get_empty_points b))
    (gogui_rules_legal_moves_cmd rest g).
Proof.
  cbn zeta. split; [|split].
  - intros color Hcolor. unfold legal_moves_cmd. rewrite Hcolor.
    apply respond_moves_listed.
  - intros Hcolor. unfold legal_moves_cmd. now rewrite Hcolor.
  - apply (respond_moves_listed (playable (the_board g)) g).
Qed.

Lemma move_text_not_empty maxsize sz move s :
  move_text maxsize sz move = Ret s → s ≠ EmptyString.
Proof.
  unfold move_text, point_to_coord. destruct (Z.eqb _ 0); [discriminate|].
  unfold format_point. destruct (negb _ || negb _); [discriminate|].
  destruct (py_index _ _); try discriminate. intros [= <-]. discriminate.
Qed.

Lemma concat_not_empty (x : string) l :
  x ≠ EmptyString → String.concat " " (x :: l) ≠ EmptyString.
Proof.
  intros Hx. destruct x as [|c x]; [congruence|].
  destruct l; simpl; discriminate.
Qed.

Lemma reply_empty text : reply text = reply EmptyString → text = EmptyString.
Proof.
  unfold reply. intros Heq. apply (String.app_inj "= ") in Heq.
  destruct text as [|c1 [|c2 text]]; [reflexivity|discriminate|].
  exfalso. injection Heq as _ _ Heq. destruct text; discriminate.
Qed.

(** X26.  [gogui-rules_final_result] agrees with
    [gogui-rules_legal_moves].  The result is [unknown] exactly when the
    player to move has an empty point that [is_legal] accepts; otherwise
    the winner named is the player who is not to move.  And when
    [gogui-rules_legal_moves] answers, its answer is empty exactly when the
    final result is not [unknown]. *)
Theorem final_result_agrees args args' g :
  let b := the_board g in
  (playable b ≠ [] ↔
   gogui_rules_final_result_cmd args g = (respond "unknown" g, Ret tt)) ∧
  (playable b = [] →
   gogui_rules_final_result_cmd args g
   = (respond (if decide (current_player b = WHITE) then "black" else "white") g, Ret tt) ∧
   gogui_rules_legal_moves_cmd args' g = (respond EmptyString g, Ret tt)) ∧
  (∀ g', gogui_rules_legal_moves_cmd args' g = (g', Ret tt) →
         (g' = respond EmptyString g ↔ playable b = [])).
Proof.
  cbn zeta. unfold gogui_rules_final_result_cmd, gogui_rules_legal_moves_cmd.
  split; [|split].
  - destruct (playable (the_board g)) as [|m l].
    + split; [congruence|]. intros Heq. exfalso.
      apply (f_equal (λ r, g_stdout (fst r))) in Heq. simpl in Heq.
      apply app_inv_head in Heq.
      destruct (decide (current_player (the_board g) = WHITE));
        vm_compute in Heq; discriminate.
    + split; [reflexivity|discriminate].
  - intros ->. split; [reflexivity|]. reflexivity.
  - intros g'. unfold respond_moves.
    destruct (format_moves _ _) as [texts| |] eqn:Htexts; try discriminate.
    intros [= <-]. apply format_moves_Ret in Htexts.
    destruct (playable (the_board g)) as [|m l].
    + inversion Htexts; subst. split; reflexivity.
    + split; [|discriminate]. intros Heq. exfalso.
      inversion Htexts as [|? s ? l' Hs Hl]; subst.
      apply move_text_not_empty in Hs.
      apply (f_equal g_stdout) in Heq. simpl in Heq. apply app_inv_head in Heq.
      apply (f_equal (hd EmptyString)) in Heq. cbn [hd] in Heq.
      apply reply_empty in Heq. rename Heq into Hempty.
      pose proof (sorted_Permutation (s :: l')) as Hperm.
      change (String.concat " " (sorted (s :: l')) = EmptyString) in Hempty.
      destruct (sorted (s :: l')) as [|y l2] eqn:Hsorted.
      * apply Permutation_nil_l in Hperm. discriminate.
      * assert (In y (s :: l')) as Hin
          by (eapply Permutation_in; [exact Hperm|now left]).
        assert (Forall (λ t, t ≠ EmptyString) (s :: l')) as Hne.
        { constructor; [exact Hs|].
          clear - Hl. induction Hl as [|? t ? ? Ht ? IH]; constructor; [|exact IH].
          eapply move_text_not_empty; exact Ht. }
        rewrite Forall_forall in Hne. apply list_elem_of_In, Hne in Hin.
        apply (concat_not_empty y l2) in Hin. contradiction.
Qed.

End Listing.

(** * One line for each command *)

Section Answers.
Context {Board Code : Type} `{BoardOps Board Code} `{BoardAdmin Board}.
Variables (fuel budget : nat) (unbound : string) (other : string → command Board Code).
Implicit Types (g : GtpConnection Board Code) (b : Board).

Lemma report_line mv g g' :
  report mv g = (g', Ret tt) → answered g g'.
Proof.
  unfold report, answered. destruct mv as [m|]; [|intros [= <-]; eexists; reflexivity].
  destruct (point_to_coord _ _); try discriminate.
  destruct (format_point _ _); try discriminate.
  intros [= <-]. eexists. reflexivity.
Qed.

Lemma solve_line args g g' :
  solve fuel budget args g = (g', Ret tt) → answered g g'.
Proof.
  intros Hsolve. unfold solve in Hsolve. cbn zeta in Hsolve.
  set (b := the_board g) in *.
  set (g0 := mkGtp _ _ _ _ _ _ _) in Hsolve.
  destruct (g_tt g0 !! size b) as [t|]; [|discriminate].
  destruct (g_history_heuristic g0 !! size b) as [h|]; [|discriminate].
  destruct (negamax_boolean fuel (count_steps b) _) as [e [[s mv]|x|]].
  - destruct (e_alarm e) as [[|n]|];
      [injection Hsolve as <-; eexists; reflexivity
      |apply report_line in Hsolve; exact Hsolve..].
  - destruct x; try discriminate. injection Hsolve as <-. eexists. reflexivity.
  - discriminate.
Qed.

Lemma genmove_cmd_line args g g' :
  genmove_cmd fuel args g = (g', Ret tt) → answered g g'.
Proof.
  intros Hgen. unfold genmove_cmd in Hgen.
  destruct args as [|a0 args]; [discriminate|].
  destruct (color_to_int (lower a0)) as [color|]; [|discriminate].
  cbn zeta in Hgen. set (b := the_board g) in *.
  destruct (g_tt g !! size b) as [t|]; [|discriminate].
  destruct (g_history_heuristic g !! size b) as [h|]; [|discriminate].
  destruct (negamax_boolean fuel 0 _) as [e o1].
  destruct o1 as [[s [m|]]|x|]; try discriminate.
  - destruct (point_to_coord _ _) as [c| |]; try discriminate.
    destruct (format_point _ _) as [txt| |]; try discriminate.
    destruct (is_legal _ _ _); injection Hgen as <-; eexists; reflexivity.
  - injection Hgen as <-. eexists. reflexivity.
Qed.

Lemma play_cmd_line args g g' :
  play_cmd unbound args g = (g', Ret tt) → answered g g'.
Proof.
  unfold play_cmd, answered. destruct args as [|a0 [|a1 rest]]; try discriminate.
  cbn zeta.
  destruct (negb _ && negb _); [intros [= <-]; eexists; reflexivity|].
  destruct (color_to_int _); [|intros [= <-]; eexists; reflexivity].
  destruct (String.eqb _ "pass"); [intros [= <-]; eexists; reflexivity|].
  destruct (move_to_coord _ _ _) as [[|row col]|msg];
    try (intros [= <-]; eexists; reflexivity).
  destruct (negb _); intros [= <-]; eexists; reflexivity.
Qed.

Lemma respond_moves_line moves g g' :
  respond_moves moves g = (g', Ret tt) → answered g g'.
Proof.
  unfold respond_moves. destruct (format_moves _ _); try discriminate.
  intros [= <-]. eexists. reflexivity.
Qed.

(** What a handler that returns has written. *)
Lemma commands_answer name cmd args g g' :
  commands fuel budget unbound other name = Some cmd →
  cmd args g = (g', Ret tt) →
  answered g g' ∨
  (name = "timelimit"%string ∧ g' = g ∧
   ∃ a0 rest a, args = a0 :: rest ∧ py_int a0 = Some a ∧ ¬ 1 ≤ a ≤ 100) ∨
  In name ["quit"; "name"; "version"; "showboard"; "komi"; "gogui-rules_board"]%string.
Proof.
  unfold commands.
  destruct (String.eqb_spec name "boardsize") as [->|?].
  { intros [= <-]. unfold boardsize_cmd. destruct args as [|a0 args]; [discriminate|].
    destruct (py_int a0) as [n|]; [|discriminate].
    intros [= <-]. left. eexists. reflexivity. }
  destruct (String.eqb_spec name "clear_board") as [->|?].
  { intros [= <-] [= <-]. left. eexists. reflexivity. }
  destruct (String.eqb_spec name "genmove") as [->|?].
  { intros [= <-] Hrun. left. now apply genmove_cmd_line in Hrun. }
  destruct (String.eqb_spec name "play") as [->|?].
  { intros [= <-] Hrun. left. now apply play_cmd_line in Hrun. }
  destruct (String.eqb_spec name "timelimit") as [->|?].
  { intros [= <-]. unfold timelimit_cmf. destruct args as [|a0 args]; [discriminate|].
    destruct (py_int a0) as [a|] eqn:Ha; [|discriminate].
    destruct (Z.leb_spec 1 a), (Z.leb_spec a 100); simpl; intros [= <-];
      first [left; eexists; reflexivity
            |right; left; split; [reflexivity|]; split; [reflexivity|];
             exists a0, args, a; split; [reflexivity|]; split; [exact Ha|lia]]. }
  destruct (String.eqb_spec name "solve") as [->|?].
  { intros [= <-] Hrun. left. now apply solve_line in Hrun. }
  destruct (String.eqb_spec name "known_command") as [->|?].
  { intros [= <-]. unfold known_command_cmd. destruct args as [|a0 args]; [discriminate|].
    destruct (existsb _ _); intros [= <-]; left; eexists; reflexivity. }
  destruct (String.eqb_spec name "list_commands") as [->|?];
    [intros [= <-] [= <-]; left; eexists; reflexivity|].
  destruct (String.eqb_spec name "legal_moves") as [->|?].
  { intros [= <-]. unfold legal_moves_cmd. destruct args as [|a0 args]; [discriminate|].
    destruct (color_to_int _); [|discriminate].
    intros Hrun. left. now apply respond_moves_line in Hrun. }
  destruct (String.eqb_spec name "gogui-rules_legal_moves") as [->|?].
  { intros [= <-] Hrun. left. now apply respond_moves_line in Hrun. }
  destruct (String.eqb_spec name "gogui-rules_final_result") as [->|?];
    [intros [= <-] [= <-]; left; eexists; reflexivity|].
  destruct (String.eqb_spec name "gogui-rules_side_to_move") as [->|?];
    [intros [= <-] [= <-]; left; eexists; reflexivity|].
  destruct (String.eqb_spec name "gogui-rules_board_size") as [->|?];
    [intros [= <-] [= <-]; left; eexists; reflexivity|].
  destruct (String.eqb_spec name "gogui-rules_game_id") as [->|?];
    [intros [= <-] [= <-]; left; eexists; reflexivity|].
  destruct (String.eqb_spec name "protocol_version") as [->|?];
    [intros [= <-] [= <-]; left; eexists; reflexivity|].
  destruct (String.eqb_spec name "gogui-analyze_commands") as [->|?];
    [intros [= <-] [= <-]; left; eexists; reflexivity|].
  destruct (existsb _ _) eqn:Hex; [|discriminate].
  intros _ _. right. right.
  unfold command_names in Hex. simpl in Hex.
  repeat (apply orb_true_iff in Hex as [Heq|Hex];
          [apply String.eqb_eq in Heq; subst name; first [congruence|simpl; tauto]|]).
  discriminate.
Qed.

(** X27.  One line for each command.  Whatever the line, a command that
    [get_cmd] runs and that returns has written exactly one line, an
    answer [= ...] or an error [? ...], with one exception: [timelimit]
    with a number outside 1..100 returns without a word and without a
    change.  (This is so for every name but those of the six handlers
    not modelled here, unknown names and wrong numbers of arguments
    included.) *)
Theorem run_command_answers name args g g' :
  ¬ In name ["quit"; "name"; "version"; "showboard"; "komi"; "gogui-rules_board"]%string →
  run_command fuel budget unbound other name args g = (g', Ret tt) →
  (∃ text, g_stdout g' = g_stdout g ++ [reply text] ∨
           g_stdout g' = g_stdout g ++ [error_reply text]) ∨
  (name = "timelimit"%string ∧ g' = g ∧
   ∃ a0 a, args = [a0] ∧ py_int a0 = Some a ∧ ¬ 1 ≤ a ≤ 100).
Proof.
  intros Hname Hrun. unfold run_command, has_arg_error in Hrun.
  assert (∀ usage, (error usage g, Ret tt) = (g', Ret tt) →
                   ∃ text, g_stdout g' = g_stdout g ++ [reply text] ∨
                           g_stdout g' = g_stdout g ++ [error_reply text]) as Herr.
  { intros usage [= <-]. exists usage. now right. }
  assert (∀ cmd : command Board Code,
            commands fuel budget unbound other name = Some cmd →
            cmd args g = (g', Ret tt) →
            (name = "timelimit"%string → ∃ a0, args = [a0]) →
            (∃ text, g_stdout g' = g_stdout g ++ [reply text] ∨
                     g_stdout g' = g_stdout g ++ [error_reply text]) ∨
            (name = "timelimit"%string ∧ g' = g ∧
             ∃ a0 a, args = [a0] ∧ py_int a0 = Some a ∧ ¬ 1 ≤ a ≤ 100)) as Hcmd.
  { intros cmd Hc Hr Hone.
    destruct (commands_answer name cmd args g g' Hc Hr)
      as [[text Ht]|[(Hn & Hg & a0 & rest & a & Hargs & Ha & Hout)|Hin]].
    - left. exists text. now left.
    - right. split; [exact Hn|]. split; [exact Hg|].
      destruct (Hone Hn) as [a0' Hargs']. rewrite Hargs' in Hargs.
      injection Hargs as <- <-. now exists a0', a.
    - contradiction. }
  destruct (argmap name) as [[n usage]|] eqn:Harg.
  - destruct (Z.eqb_spec n (Z.of_nat (length args))) as [Hlen|Hlen]; simpl in Hrun.
    + destruct (commands fuel budget unbound other name) as [cmd|] eqn:Hc.
      * apply (Hcmd cmd eq_refl Hrun). intros ->.
        injection Harg as <- _. apply one_word. now apply Z.eqb_eq.
      * left. now apply (Herr "Unknown command"%string).
    + left. now apply (Herr usage).
  - destruct (commands fuel budget unbound other name) as [cmd|] eqn:Hc.
    + apply (Hcmd cmd eq_refl Hrun). intros ->. discriminate.
    + left. now apply (Herr "Unknown command"%string).
Qed.

End Answers.

(** * A whole session *)

Section SessionFacts.
Context {Board Code : Type} `{BoardOps Board Code} `{BoardAdmin Board}.
Variables (fuel : nat) (unbound : string) (other : string → command Board Code).
Implicit Types (g : GtpConnection Board Code).

Lemma reset_tables_sound sz g : tables_sound g → tables_sound (reset sz g).
Proof.
  intros Hg sz' t. unfold reset. simpl.
  destruct (g_tt g !! sz) as [t0|] eqn:Ht0; simpl; [apply Hg|].
  destruct (decide (sz = sz')) as [->|Hne].
  - rewrite lookup_insert_eq. intros [= <-]. apply tt_sound_empty.
  - rewrite lookup_insert_ne by exact Hne. apply Hg.
Qed.

Lemma run_command_tables_sound budget name args g :
  undo_restores → codes_distinct →
  (∀ name args g, tables_sound g → tables_sound (fst (other name args g))) →
  tables_sound g →
  tables_sound (fst (run_command fuel budget unbound other name args g)).
Proof.
  intros Hundo Hinj Hother Hg. unfold run_command, has_arg_error.
  assert (∀ usage, tables_sound (error usage g)) as Herr by (intros usage; exact Hg).
  assert (∀ cmd : command Board Code,
            commands fuel budget unbound other name = Some cmd →
            tables_sound (fst (cmd args g))) as Hcmd.
  { intros cmd Hcmd.
    destruct (commands_effect fuel budget unbound other name cmd args g Hcmd)
      as [[Ht Hh]|[[sz Hreset]|[->|[->| ->]]]].
    - unfold tables_sound. rewrite Ht. apply Hg.
    - rewrite Hreset. now apply (reset_tables_sound sz).
    - exact (genmove_cmd_tables_sound fuel args g _ _ Hundo Hinj Hg (surjective_pairing _)).
    - exact (solve_tables_sound fuel budget args g _ _ Hundo Hinj Hg (surjective_pairing _)).
    - now apply Hother. }
  destruct (argmap name) as [[n usage]|].
  - destruct (negb _); [apply Herr|].
    destruct (commands fuel budget unbound other name) as [cmd|];
      [now apply Hcmd|apply Herr].
  - destruct (commands fuel budget unbound other name) as [cmd|];
      [now apply Hcmd|apply Herr].
Qed.

Lemma get_cmd_keeps (P : GtpConnection Board Code → Prop) budget command g :
  (∀ name args, P (fst (run_command fuel budget unbound other name args g))) →
  P g → P (fst (get_cmd fuel budget unbound other command g)).
Proof.
  intros Hrun Hg. unfold get_cmd. destruct (Nat.eqb _ 0); [exact Hg|].
  destruct command as [|c0 rest]; [exact Hg|].
  destruct (Ascii.eqb c0 "#"); [exact Hg|].
  destruct (split _) as [|name args]; [exact Hg|]. apply Hrun.
Qed.

(** X24.  Along a whole session the tables stay sound.  On a lawful
    board, from a connection whose tables are sound and in step (the one
    [__init__] makes, say), after any lines read by [start_connection],
    with any alarms, every transposition table of the connection is still
    sound and still has its history table, provided the handlers not
    modelled here keep it so; this holds where the loop stops as well,
    at the end of the input or at an exception.  So neither a change of
    size, nor a cleared board, nor a move played, nor an interrupted
    search leaves an entry behind that a later [solve] or [genmove]
    would answer wrongly from. *)
Theorem start_connection_sound budgets lines g :
  undo_restores → codes_distinct →
  (∀ name args g, tables_sound g → tables_sound (fst (other name args g))) →
  (∀ name args g, tables_in_step g → tables_in_step (fst (other name args g))) →
  tables_sound g → tables_in_step g →
  tables_sound (fst (start_connection fuel unbound other budgets lines g)) ∧
  tables_in_step (fst (start_connection fuel unbound other budgets lines g)).
Proof.
  intros Hundo Hinj Hsound Hstep.
  revert budgets g. induction lines as [|line lines IH]; intros budgets g Hg Hs;
    [now split|].
  simpl. destruct line as [|c0 rest]; [now split|].
  assert (tables_sound (fst (get_cmd fuel (budgets O) unbound other (String c0 rest) g)))
    as Hg1.
  { apply (get_cmd_keeps tables_sound); [|exact Hg].
    intros name args. now apply run_command_tables_sound. }
  assert (tables_in_step (fst (get_cmd fuel (budgets O) unbound other (String c0 rest) g)))
    as Hs1.
  { apply (get_cmd_keeps tables_in_step); [|exact Hs].
    intros name args. now apply run_command_in_step. }
  destruct (get_cmd fuel (budgets O) unbound other (String c0 rest) g) as [g1 [[]|x|]];
    simpl in Hg1, Hs1; [now apply IH|now split..].
Qed.

End SessionFacts.

(** * The further properties at work *)

Lemma negamax_boolean_first_win_witness :
  let e := Pile.fresh (Pile.mk 4 true) None in
  ∃ tried rest,
    ordered e = tried ++ 1 :: rest ∧
    (∀ m', In m' tried → Win (next (e_board e) m')) ∧
    Loss (next (e_board e) 1).
Proof.
  cbn zeta.
  assert (negamax_boolean 5 0 (Pile.fresh (Pile.mk 4 true) None)
          = (fst (negamax_boolean 5 0 (Pile.fresh (Pile.mk 4 true) None)),
             Ret (true, Some 1))) as Hrun by (vm_compute; reflexivity).
  assert (TranspositionTable.lookup (e_tt (Pile.fresh (Pile.mk 4 true) None))
            (code (e_board (Pile.fresh (Pile.mk 4 true) None))) = None) as Hmiss
    by reflexivity.
  destruct (negamax_boolean_first_win 5 0 (Pile.fresh (Pile.mk 4 true) None)
              (fst (negamax_boolean 5 0 (Pile.fresh (Pile.mk 4 true) None)))
              (true, Some 1)
              Pile_undo Pile_codes tt_sound_empty Hmiss Hrun)
    as [[Habs _]|(m & tried & rest & Hr & Hord & Htried & Hloss)]; [discriminate|].
  injection Hr as <-. exists tried, rest.
  split; [exact Hord|]. split; [exact Htried|exact Hloss].
Defined.

Lemma negamax_boolean_keeps_entries_witness :
  let t := TranspositionTable.store TranspositionTable.init
             (code (Pile.mk 9 false)) true (Some 2) in
  let e := mkEnv (Pile.mk 4 true) t HistoryHeuristicTable.init None [] in
  TranspositionTable.lookup (e_tt (fst (negamax_boolean 5 0 e))) (code (Pile.mk 9 false))
  = Some (true, Some 2).
Proof.
  cbn zeta.
  assert (negamax_boolean 5 0
            (mkEnv (Pile.mk 4 true)
               (TranspositionTable.store TranspositionTable.init
                  (code (Pile.mk 9 false)) true (Some 2))
               HistoryHeuristicTable.init None [])
          = (fst (negamax_boolean 5 0
                    (mkEnv (Pile.mk 4 true)
                       (TranspositionTable.store TranspositionTable.init
                          (code (Pile.mk 9 false)) true (Some 2))
                       HistoryHeuristicTable.init None [])),
             Ret (true, Some 1))) as Hrun by (vm_compute; reflexivity).
  destruct (negamax_boolean_keeps_entries 5 0 _ _ _ Pile_undo Hrun) as [_ Hkeep].
  apply Hkeep. reflexivity.
Defined.

Lemma negamax_boolean_credit_witness :
  let e := mkEnv (Pile.mk 4 true) TranspositionTable.init HistoryHeuristicTable.init None [] in
  let e' := fst (negamax_boolean 5 3 e) in
  HistoryHeuristicTable.lookup (e_history e) 1 + 3 ^ 2
  ≤ HistoryHeuristicTable.lookup (e_history e') 1.
Proof.
  cbn zeta.
  assert (negamax_boolean 5 3
            (mkEnv (Pile.mk 4 true) TranspositionTable.init HistoryHeuristicTable.init None [])
          = (fst (negamax_boolean 5 3
                    (mkEnv (Pile.mk 4 true) TranspositionTable.init
                       HistoryHeuristicTable.init None [])),
             Ret (true, Some 1))) as Hrun by (vm_compute; reflexivity).
  destruct (negamax_boolean_credit 5 3 _ _ _ _ Hrun) as [Hmiss _].
  apply Hmiss. reflexivity.
Defined.

Lemma negamax_boolean_later_witness :
  let e := Pile.fresh (Pile.mk 3 true) (Some 200%nat) in
  later (e_alarm e) None ∧
  ∃ e'', negamax_boolean 5 0 (set_alarm None e) = (e'', Ret (false, None)).
Proof.
  cbn zeta. split; [constructor|].
  assert (negamax_boolean 5 0 (Pile.fresh (Pile.mk 3 true) (Some 200%nat))
          = (fst (negamax_boolean 5 0 (Pile.fresh (Pile.mk 3 true) (Some 200%nat))),
             Ret (false, None))) as Hrun by (vm_compute; reflexivity).
  destruct (negamax_boolean_later 5 0 _ _ _ None (later_never _) Hrun) as (e'' & H2 & _).
  exists e''. exact H2.
Defined.

Lemma solve_more_time_witness :
  let g := Pile.connection (Pile.mk 3 true) in
  let g' := fst (solve 5 200 [] g) in
  g_stdout g' ≠ g_stdout g ++ [reply "unknown"] ∧
  solve 5 (200 + 50) [] g = (g', Ret tt).
Proof.
  cbn zeta.
  assert (g_stdout (fst (solve 5 200 [] (Pile.connection (Pile.mk 3 true))))
          ≠ g_stdout (Pile.connection (Pile.mk 3 true)) ++ [reply "unknown"]) as Hans
    by (vm_compute; discriminate).
  assert (solve 5 200 [] (Pile.connection (Pile.mk 3 true))
          = (fst (solve 5 200 [] (Pile.connection (Pile.mk 3 true))), Ret tt)) as Hrun
    by (vm_compute; reflexivity).
  split; [exact Hans|].
  exact (solve_more_time 5 200 50 [] (Pile.connection (Pile.mk 3 true))
           (fst (solve 5 200 [] (Pile.connection (Pile.mk 3 true)))) Hrun Hans).
Defined.

Lemma solve_reports_winner_witness :
  let g := Pile.connection (Pile.mk 3 true) in
  let g' := fst (solve 5 200 [] g) in
  g_stdout g' = g_stdout g ++ [reply (other_letter (the_board g))].
Proof.
  cbn zeta.
  assert (Loss (Pile.mk 3 true)) as Hloss.
  { destruct (exhaustive_verdict Pile.rank Pile_ends 3 (Pile.mk 3 true)) as [_ Hl];
      [unfold Pile.rank; simpl; lia|].
    apply Hl. vm_compute. reflexivity. }
  assert (g_stdout (fst (solve 5 200 [] (Pile.connection (Pile.mk 3 true))))
          ≠ g_stdout (Pile.connection (Pile.mk 3 true)) ++ [reply "unknown"]) as Hans
    by (vm_compute; discriminate).
  assert (solve 5 200 [] (Pile.connection (Pile.mk 3 true))
          = (fst (solve 5 200 [] (Pile.connection (Pile.mk 3 true))), Ret tt)) as Hrun
    by (vm_compute; reflexivity).
  exact (proj1 (solve_reports_winner 5 200 [] (Pile.connection (Pile.mk 3 true))
                  (fst (solve 5 200 [] (Pile.connection (Pile.mk 3 true))))
                  TranspositionTable.init HistoryHeuristicTable.init
                  Pile_undo Pile_codes eq_refl eq_refl tt_sound_empty Hrun Hans)
           Hloss).
Defined.

Lemma Pile_connection_sound p : tables_sound (Pile.connection p).
Proof.
  intros sz t. unfold Pile.connection. simpl.
  intros Hl. apply lookup_singleton_Some in Hl as [_ <-]. apply tt_sound_empty.
Qed.

Lemma commands_keep_tables_sound_witness :
  let g := Pile.connection (Pile.mk 3 true) in
  tables_sound (fst (solve 5 7 ["b"%string] g)) ∧
  tables_sound (fst (genmove_cmd 5 ["b"%string] g)).
Proof.
  cbn zeta.
  apply (commands_keep_tables_sound 5 7 ["b"%string] (Pile.connection (Pile.mk 3 true))).
  - exact Pile_undo.
  - exact Pile_codes.
  - apply Pile_connection_sound.
Defined.

Lemma Pile_connection_dom (p : Pile.t) :
  dom (g_tt (Pile.connection p)) = dom (g_history_heuristic (Pile.connection p)).
Proof. unfold Pile.connection. simpl. now rewrite !dom_singleton_L. Qed.

Lemma ordered_by_history_witness :
  ordered (Pile.fresh (Pile.mk 4 true) None) = [1; 2].
Proof.
  destruct (ordered_by_history 0 0 (Pile.fresh (Pile.mk 4 true) None))
    as (_ & _ & _ & _ & Hsame).
  apply Hsame. intros m m' _ _. reflexivity.
Defined.

Lemma format_point_cases_witness :
  format_point 25 (CRowCol 3 0) = Ret "Z3"%string ∧
  format_point 25 (CRowCol 25 1) = Raise ValueError.
Proof.
  split.
  - destruct (format_point_cases 25 3 0 ltac:(lia)) as (_ & _ & Hzero).
    apply Hzero; lia.
  - destruct (format_point_cases 25 25 1 ltac:(lia)) as (_ & Hout & _).
    apply Hout. lia.
Defined.

Lemma move_to_coord_format_point_witness :
  move_to_coord 25 "J3" 9 = Parsed (CRowCol 3 9) ∧
  move_to_coord 25 (lower "J3") 9 = Parsed (CRowCol 3 9).
Proof.
  apply (move_to_coord_format_point 25 9 3 9 "J3"); [lia|lia|lia|reflexivity].
Defined.

Lemma move_to_coord_on_board_witness :
  move_to_coord 25 "c3" 4 = Parsed (CRowCol 3 3) ∧
  2 ≤ 4 ≤ 25 ∧ 1 ≤ 3 ≤ 4 ∧ 1 ≤ 3 ≤ 4 ∧ 3 ≤ 25 ∧ lower "c3" ≠ "pass"%string.
Proof.
  split; [reflexivity|].
  apply (move_to_coord_on_board 25 "c3" 4 (CRowCol 3 3)). reflexivity.
Defined.

Lemma timelimit_cmf_range_witness :
  g_timelimit (fst (timelimit_cmf ["30"%string] (Pile.connection (Pile.mk 4 true)))) = 30 ∧
  fst (timelimit_cmf ["0"%string] (Pile.connection (Pile.mk 4 true)))
  = Pile.connection (Pile.mk 4 true).
Proof.
  split.
  - destruct (timelimit_cmf_range ["30"%string] (Pile.connection (Pile.mk 4 true))
                _ _ (surjective_pairing _)) as (_ & _ & _ & _ & Hset).
    apply (Hset "30"%string [] 30 eq_refl eq_refl).
  - destruct (timelimit_cmf_range ["0"%string] (Pile.connection (Pile.mk 4 true))
                _ _ (surjective_pairing _)) as (_ & _ & _ & _ & Hset).
    apply (Hset "0"%string [] 0 eq_refl eq_refl).
Defined.

Lemma reset_keeps_tables_witness :
  let g := Pile.connection (Pile.mk 4 true) in
  g_tt (reset 7 g) !! 2 = Some TranspositionTable.init ∧
  g_tt (reset 7 g) !! 7 = Some TranspositionTable.init ∧
  g_tt (fst (clear_board_cmd [] g)) = g_tt g.
Proof.
  cbn zeta.
  destruct (reset_keeps_tables 7 [] (Pile.connection (Pile.mk 4 true))
              (Pile_connection_dom _)) as (Hold & _ & Hnew & _ & _ & Hclear).
  split; [apply Hold; reflexivity|].
  split; [apply Hnew; reflexivity|].
  apply Hclear. eexists. reflexivity.
Defined.

Lemma reset_then_search_witness :
  let g1 := reset 2 (Pile.connection (Pile.mk 4 true)) in
  tables_ready g1 ∧
  snd (solve 5 10 [] g1) ≠ Raise KeyError ∧
  snd (genmove_cmd 5 ["B"%string] g1) ≠ Raise KeyError.
Proof.
  assert (size (board_reset (the_board (Pile.connection (Pile.mk 4 true))) 2) = 2)
    as Hsize by reflexivity.
  assert (color_to_int (lower "B") = Some BLACK) as Hcolor by reflexivity.
  exact (reset_then_search 2 (Pile.connection (Pile.mk 4 true)) 5 10 [] "B" BLACK
           (Pile_connection_dom (Pile.mk 4 true)) Hsize Hcolor).
Defined.

Lemma move_text_on_board_witness :
  point_to_coord (Some 13) 4 = Ret (CRowCol 2 3) ∧
  move_text 25 4 13 = Ret "C2"%string ∧
  move_text 25 25 (26 * 25 + 3) = Raise ValueError.
Proof.
  split; [|split].
  - apply (move_text_on_board 25 4 2 3); lia.
  - destruct (move_text_on_board 25 4 2 3) as (_ & -> & _); [lia..|]. reflexivity.
  - destruct (move_text_on_board 25 25 25 3) as (_ & _ & _ & Hlast & _); [lia..|].
    apply Hlast; [reflexivity|now left].
Defined.

Lemma get_cmd_reads_witness :
  let other : string → command Pile.t (nat * bool) := λ _ _ g, (g, Ret tt) in
  let g := Pile.connection (Pile.mk 4 true) in
  get_cmd 5 10 EmptyString other ("play b a1" +:+ newline) g
  = run_command 5 10 EmptyString other "play" ["b"; "a1"]%string g ∧
  get_cmd 5 10 EmptyString other ("10 play b a1" +:+ newline) g
  = run_command 5 10 EmptyString other "play" ["b"; "a1"]%string g.
Proof.
  cbn zeta.
  apply (get_cmd_reads 5 10 EmptyString (λ _ _ g, (g, Ret tt))
           "play" ["b"; "a1"]%string "10" (Pile.connection (Pile.mk 4 true))).
  - repeat constructor.
  - intros c s [= <- <-]. split; [reflexivity|discriminate].
  - reflexivity.
Defined.

Lemma run_command_raises_witness :
  let other : string → command Pile.t (nat * bool) := λ _ _ g, (g, Ret tt) in
  let g := Pile.connection (Pile.mk 4 true) in
  run_command 5 10 EmptyString other "boardsize" ["x"]%string g = (g, Raise ValueError) ∧
  "boardsize"%string ≠ "play"%string.
Proof.
  cbn zeta.
  assert (run_command 5 10 EmptyString (λ _ _ g, (g, Ret tt)) "boardsize" ["x"]%string
            (Pile.connection (Pile.mk 4 true))
          = (Pile.connection (Pile.mk 4 true), Raise ValueError)) as Hrun by reflexivity.
  split; [exact Hrun|].
  assert (MAXSIZE (Board := Pile.t) ≤ 26) as Hmax by (vm_compute; discriminate).
  assert (In "boardsize"%string
            ["boardsize"; "clear_board"; "genmove"; "play"; "timelimit"; "solve"]%string)
    as Hin by (now left).
  exact (proj1 (proj2 (run_command_raises 5 10 EmptyString (λ _ _ g, (g, Ret tt))
                         "boardsize" ["x"]%string (Pile.connection (Pile.mk 4 true))
                         (Pile.connection (Pile.mk 4 true)) ValueError Hmax Hin Hrun))).
Defined.

Lemma tables_in_step_kept_witness :
  let other : string → command Pile.t (nat * bool) := λ _ _ g, (g, Ret tt) in
  tables_in_step
    (fst (get_cmd 5 10 EmptyString other ("boardsize 7" +:+ newline)
            (Pile.connection (Pile.mk 4 true)))).
Proof.
  cbn zeta.
  destruct (tables_in_step_kept (Board := Pile.t) 5 10 EmptyString (λ _ _ g, (g, Ret tt)))
    as [_ Hkept].
  apply Hkept.
  - intros name args g Hstep. exact Hstep.
  - apply Pile_connection_dom.
Defined.

Lemma start_connection_sound_witness :
  let other : string → command Pile.t (nat * bool) := λ _ _ g, (g, Ret tt) in
  let lines := ["boardsize 7" +:+ newline; "solve" +:+ newline;
                "play b a1" +:+ newline; "genmove w" +:+ newline] in
  let g' := fst (start_connection 9 EmptyString other (λ _, 50%nat) lines
                   (Pile.connection (Pile.mk 4 true))) in
  tables_sound g' ∧ tables_in_step g'.
Proof.
  cbn zeta.
  apply (start_connection_sound 9 EmptyString (λ _ _ g, (g, Ret tt))).
  - exact Pile_undo.
  - exact Pile_codes.
  - intros name args g Hg. exact Hg.
  - intros name args g Hg. exact Hg.
  - apply Pile_connection_sound.
  - apply Pile_connection_dom.
Defined.

Lemma run_command_answers_witness :
  let other : string → command Pile.t (nat * bool) := λ _ _ g, (g, Ret tt) in
  let g := Pile.connection (Pile.mk 4 true) in
  run_command 5 10 EmptyString other "timelimit" ["0"]%string g = (g, Ret tt) ∧
  ((∃ text, g_stdout g = g_stdout g ++ [reply text] ∨
            g_stdout g = g_stdout g ++ [error_reply text]) ∨
   ("timelimit"%string = "timelimit"%string ∧ g = g ∧
    ∃ a0 a, ["0"%string] = [a0] ∧ py_int a0 = Some a ∧ ¬ 1 ≤ a ≤ 100)).
Proof.
  cbn zeta.
  assert (run_command 5 10 EmptyString (λ _ _ g, (g, Ret tt)) "timelimit" ["0"]%string
            (Pile.connection (Pile.mk 4 true))
          = (Pile.connection (Pile.mk 4 true), Ret tt)) as Hrun by reflexivity.
  split; [exact Hrun|].
  apply (run_command_answers 5 10 EmptyString (λ _ _ g, (g, Ret tt))
           "timelimit" ["0"]%string (Pile.connection (Pile.mk 4 true))
           (Pile.connection (Pile.mk 4 true))); [|exact Hrun].
  simpl. intros [Heq|[Heq|[Heq|[Heq|[Heq|[Heq|[]]]]]]]; discriminate.
Defined.
